(** * ohm: occupancy-map kernels, shallow embedding and verified properties

    The development follows the layout of the C++ sources:
    - [CovarianceVoxel.h]        : NDT hit and miss kernels      (module [Ndt])
    - [OccupancyMapDetail.cpp]   : key stepping                  (module [KeyMath])
    - [Heightmap.cpp]            : column search and heightmap   (module [Hm])
    - [MapSerialiseV0.cpp]       : legacy chunk loader           (module [SerialiseV0])
    - [VoxelIncidentCompute.h]   : incident normal update        (module [Incident])

    Floating point values are the IEEE-754 values of the Standard Library's
    [SpecFloat]: [float] is binary32 and [double] (the CPU [covreal]) is
    binary64, every operation rounding to nearest-even.  Definitions come
    first, the properties follow them. *)

From Stdlib Require Import ZArith Bool List Lia Reals Lra.
From Stdlib Require Import Floats.SpecFloat.
From stdpp Require Import base option list gmap.

Local Open Scope Z_scope.

(** ** IEEE-754 arithmetic *)

Module Ieee.

Record format := Format { prec : Z; emax : Z }.

Definition binary32 : format := Format 24 128.
Definition binary64 : format := Format 53 1024.

Section Ops.
Variable fmt : format.

Definition add := SFadd (prec fmt) (emax fmt).
Definition sub := SFsub (prec fmt) (emax fmt).
Definition mul := SFmul (prec fmt) (emax fmt).
Definition div := SFdiv (prec fmt) (emax fmt).
Definition sqrt := SFsqrt (prec fmt) (emax fmt).

(** Round the dyadic number [m * 2^e] into the format. *)
Definition of_dyadic (m e : Z) : spec_float :=
  binary_normalize (prec fmt) (emax fmt) m e false.

(** Conversion of a value of another format (it rounds when narrowing and is
    exact when widening). *)
Definition convert (x : spec_float) : spec_float :=
  match x with
  | S754_finite s m e => binary_round (prec fmt) (emax fmt) s m e
  | _ => x
  end.

End Ops.

Definition neg : spec_float -> spec_float := SFopp.
Definition eqb : spec_float -> spec_float -> bool := SFeqb.
Definition ltb : spec_float -> spec_float -> bool := SFltb.
Definition leb : spec_float -> spec_float -> bool := SFleb.
(** C's [a > b] and [a >= b]. *)
Definition gtb (a b : spec_float) : bool := SFltb b a.
Definition geb (a b : spec_float) : bool := SFleb b a.

Definition is_nan (x : spec_float) : bool :=
  match x with S754_nan => true | _ => false end.

Definition is_finite (x : spec_float) : bool :=
  match x with S754_zero _ | S754_finite _ _ _ => true | _ => false end.

Definition pinf : spec_float := S754_infinity false.
Definition ninf : spec_float := S754_infinity true.
Definition pzero : spec_float := S754_zero false.
Definition nzero : spec_float := S754_zero true.

End Ieee.

(** [float] of the sources. *)
Definition f32 := spec_float.
(** [double] of the sources. *)
Definition f64 := spec_float.

Module F32.

Definition add : f32 -> f32 -> f32 := Ieee.add Ieee.binary32.
Definition sub : f32 -> f32 -> f32 := Ieee.sub Ieee.binary32.
Definition mul : f32 -> f32 -> f32 := Ieee.mul Ieee.binary32.
Definition div : f32 -> f32 -> f32 := Ieee.div Ieee.binary32.
Definition of_Z (n : Z) : f32 := Ieee.of_dyadic Ieee.binary32 n 0.
Definition of_dyadic : Z -> Z -> f32 := Ieee.of_dyadic Ieee.binary32.
(** The cast [(float)d]. *)
Definition of_f64 (d : f64) : f32 := Ieee.convert Ieee.binary32 d.
Definition zero : f32 := Ieee.pzero.
Definition one : f32 := of_Z 1.

End F32.

Module F64.

Definition add : f64 -> f64 -> f64 := Ieee.add Ieee.binary64.
Definition sub : f64 -> f64 -> f64 := Ieee.sub Ieee.binary64.
Definition mul : f64 -> f64 -> f64 := Ieee.mul Ieee.binary64.
Definition div : f64 -> f64 -> f64 := Ieee.div Ieee.binary64.
Definition sqrt : f64 -> f64 := Ieee.sqrt Ieee.binary64.
Definition of_Z (n : Z) : f64 := Ieee.of_dyadic Ieee.binary64 n 0.
Definition of_dyadic : Z -> Z -> f64 := Ieee.of_dyadic Ieee.binary64.
(** The implicit promotion of a [float] operand to [double]. *)
Definition of_f32 (x : f32) : f64 := Ieee.convert Ieee.binary64 x.
Definition zero : f64 := Ieee.pzero.
Definition one : f64 := of_Z 1.
Definition half : f64 := of_dyadic 1 (-1).

End F64.

(** ** The C math library

    [exp] and [log] are the only transcendental functions the kernels call.
    Their results on ordinary arguments are implementation defined, so the
    library is an interface; its laws are the special values C11 Annex F
    fixes (F.10.3.1 for [exp], F.10.3.7 for [log], F.10 paragraph 11 for
    NaN arguments). *)

Record Libm := {
  c_exp : f64 -> f64;
  c_log : f64 -> f64;
  exp_zero : forall s, c_exp (S754_zero s) = F64.one;
  exp_ninf : c_exp Ieee.ninf = Ieee.pzero;
  exp_nan : c_exp S754_nan = S754_nan;
  log_one : c_log F64.one = Ieee.pzero;
  log_zero : forall s, c_log (S754_zero s) = Ieee.ninf;
  log_nan : c_log S754_nan = S754_nan
}.

(** A library that is exact on the special values and crude elsewhere: it
    shows that the interface is inhabited and lets the kernels be evaluated. *)
Definition exp_special (x : f64) : f64 :=
  match x with
  | S754_zero _ => F64.one
  | S754_infinity true => Ieee.pzero
  | S754_infinity false => Ieee.pinf
  | S754_nan => S754_nan
  | S754_finite true _ _ => F64.half
  | S754_finite false _ _ => F64.of_Z 2
  end.

Definition log_special (x : f64) : f64 :=
  match x with
  | S754_zero _ => Ieee.ninf
  | S754_infinity false => Ieee.pinf
  | S754_infinity true => S754_nan
  | S754_nan => S754_nan
  | S754_finite true _ _ => S754_nan
  | S754_finite false _ _ =>
      if Ieee.eqb x F64.one then Ieee.pzero
      else if Ieee.ltb x F64.one then F64.of_Z (-1) else F64.one
  end.

Definition libm_special : Libm.
Proof.
  refine {| c_exp := exp_special; c_log := log_special |};
    try reflexivity; intros []; reflexivity.
Defined.

(** ** glm vectors (the parts of GLM the kernels use) *)

Record vec3 := Vec3 { vx : f64; vy : f64; vz : f64 }.

Module glm.

Definition vsub (a b : vec3) : vec3 :=
  Vec3 (F64.sub (vx a) (vx b)) (F64.sub (vy a) (vy b)) (F64.sub (vz a) (vz b)).

Definition vadd (a b : vec3) : vec3 :=
  Vec3 (F64.add (vx a) (vx b)) (F64.add (vy a) (vy b)) (F64.add (vz a) (vz b)).

Definition vscale (a : vec3) (s : f64) : vec3 :=
  Vec3 (F64.mul (vx a) s) (F64.mul (vy a) s) (F64.mul (vz a) s).

(** [glm::dot]: the component products summed left to right. *)
Definition dot (a b : vec3) : f64 :=
  F64.add (F64.add (F64.mul (vx a) (vx b)) (F64.mul (vy a) (vy b)))
          (F64.mul (vz a) (vz b)).

Definition length2 (v : vec3) : f64 := dot v v.

Definition inversesqrt (s : f64) : f64 := F64.div F64.one (F64.sqrt s).

(** [glm::normalize(v) = v * inversesqrt(dot(v, v))]. *)
Definition normalize (v : vec3) : vec3 := vscale v (inversesqrt (dot v v)).

End glm.

(** ** CovarianceVoxel.h: the NDT voxel kernel *)

Module Ndt.

(** [struct CovarianceVoxel { float trianglar_covariance[6]; }]. *)
Record CovarianceVoxel := Cov {
  tc0 : f32; tc1 : f32; tc2 : f32; tc3 : f32; tc4 : f32; tc5 : f32
}.

(** [cov->trianglar_covariance[i]]; the kernels only use [i < 6]. *)
Definition tc (cov : CovarianceVoxel) (i : nat) : f32 :=
  match i with
  | 0%nat => tc0 cov | 1%nat => tc1 cov | 2%nat => tc2 cov
  | 3%nat => tc3 cov | 4%nat => tc4 cov | 5%nat => tc5 cov
  | _ => F32.zero
  end.

(** [cov->trianglar_covariance[i] = v]. *)
Definition tc_set (cov : CovarianceVoxel) (i : nat) (v : f32) : CovarianceVoxel :=
  let '(Cov a b c d e f) := cov in
  match i with
  | 0%nat => Cov v b c d e f | 1%nat => Cov a v c d e f
  | 2%nat => Cov a b v d e f | 3%nat => Cov a b c v e f
  | 4%nat => Cov a b c d v f | 5%nat => Cov a b c d e v
  | _ => cov
  end.

(** Reads of the local [covreal] array of nine elements. *)
Definition rd (a : list f64) (i : nat) : f64 := nth i a F64.zero.

(** The packed form of [d * I]. *)
Definition scaledIdentity (d : f32) : CovarianceVoxel :=
  Cov d F32.zero d F32.zero F32.zero d.

(** [initialiseCovariance]: entries 0, 2 and 5 receive
    [sensor_noise * sensor_noise], entries 1, 3 and 4 receive 0. *)
Definition initialiseCovariance (cov : CovarianceVoxel) (sensor_noise : f32)
  : CovarianceVoxel :=
  let d := F32.mul sensor_noise sensor_noise in
  let cov := tc_set (tc_set (tc_set cov 5 d) 2 d) 0 d in
  tc_set (tc_set (tc_set cov 4 F32.zero) 3 F32.zero) 1 F32.zero.

Definition col_first_el (j : nat) : nat := nth j [0; 1; 3]%nat 0%nat.

(** [packedDot]: the dot product of columns [j] and [k] of the packed 4x3
    matrix. *)
Definition packedDot (A : list f64) (j k : nat) : f64 :=
  let indj := col_first_el j in
  let indk := col_first_el k in
  let m := if (j <=? k)%nat then j else k in
  let d := F64.mul (rd A (6 + k)) (rd A (6 + j)) in
  foldl (fun d i => F64.add d (F64.mul (rd A (indj + i)) (rd A (indk + i))))
        d (seq 0 (S m)).

(** [unpackCovariance]; [point_count] is an [unsigned]. *)
Definition unpackCovariance (cov : CovarianceVoxel) (point_count : Z)
    (sample_to_mean : vec3) : list f64 :=
  let one_on_num_pt_plus_one :=
    F64.div F64.one (F64.add (F64.of_Z point_count) F64.one) in
  let sc_1 :=
    if point_count =? 0 then F64.one
    else F64.sqrt (F64.mul (F64.of_Z point_count) one_on_num_pt_plus_one) in
  let sc_2 := F64.mul one_on_num_pt_plus_one (F64.sqrt (F64.of_Z point_count)) in
  map (fun i => F64.mul sc_1 (F64.of_f32 (tc cov i))) (seq 0 6)
    ++ [F64.mul sc_2 (vx sample_to_mean);
        F64.mul sc_2 (vy sample_to_mean);
        F64.mul sc_2 (vz sample_to_mean)].

(** [solveTriangular]: forward substitution on the packed lower triangle. *)
Definition solveTriangular (cov : CovarianceVoxel) (y : vec3) : vec3 :=
  let c i := F64.of_f32 (tc cov i) in
  let x_x := F64.div (vx y) (c 0%nat) in
  let d := F64.sub (vy y) (F64.mul (c 1%nat) x_x) in
  let x_y := F64.div d (c 2%nat) in
  let d := F64.sub (vz y) (F64.mul (c 3%nat) x_x) in
  let d := F64.sub d (F64.mul (c 4%nat) x_y) in
  let x_z := F64.div d (c 5%nat) in
  Vec3 x_x x_y x_z.

(** *** calculateHitWithCovariance *)

(** The condition of the [if] that guards [initialiseCovariance]. *)
Definition reinitialise (initial_value uninitialised_value reinitialise_threshold : f32)
    (point_count reinitialise_sample_count : Z) : bool :=
  let was_uncertain := Ieee.eqb initial_value uninitialised_value in
  was_uncertain || (point_count =? 0)
  || (Ieee.ltb initial_value reinitialise_threshold
      && (reinitialise_sample_count <=? point_count)).

(** The first statement block: initialise or accumulate.  It yields the
    covariance, the occupancy value and [initialised_covariance]. *)
Definition hitInitialise (cov_voxel : CovarianceVoxel) (voxel_value : f32)
    (point_count : Z) (hit_value uninitialised_value sensor_noise
    reinitialise_threshold : f32) (reinitialise_sample_count : Z)
  : CovarianceVoxel * f32 * bool :=
  let initial_value := voxel_value in
  if reinitialise initial_value uninitialised_value reinitialise_threshold
       point_count reinitialise_sample_count
  then (initialiseCovariance cov_voxel sensor_noise, hit_value, true)
  else (cov_voxel, F32.add voxel_value hit_value, false).

(** Innermost loop: [for (l = 0; l <= k; ++l) A[indj+l] -= c * A[indk+l]]. *)
Definition gsRow (c : f64) (indj indk k : nat) (A : list f64) : list f64 :=
  foldl (fun A l =>
           <[(indj + l)%nat :=
               F64.sub (rd A (indj + l)) (F64.mul c (rd A (indk + l)))]> A)
        A (seq 0 (S k)).

(** Body of [for (j = k + 1; j < 3; ++j)]. *)
Definition gsColumn (k indk : nat) (aki : f64)
    (st : CovarianceVoxel * list f64) (j : nat) : CovarianceVoxel * list f64 :=
  let '(cov, A) := st in
  let indj := Nat.shiftr (j * (j + 1)) 1 in
  let indkj := (indj + k)%nat in
  let c := F64.mul (packedDot A j k) aki in
  let cov := tc_set cov indkj (F32.of_f64 c) in
  let c := F64.mul c aki in
  let A := <[(j + 6)%nat := F64.sub (rd A (j + 6)) (F64.mul c (rd A (k + 6)))]> A in
  (cov, gsRow c indj indk k A).

(** Body of [for (k = 0; k < 3; ++k)]. *)
Definition gsStep (st : CovarianceVoxel * list f64) (k : nat)
  : CovarianceVoxel * list f64 :=
  let '(cov, A) := st in
  let ind1 := Nat.shiftr (k * (k + 3)) 1 in
  let indk := (ind1 - k)%nat in
  let ak := F64.sqrt (packedDot A k k) in
  let cov := tc_set cov ind1 (F32.of_f64 ak) in
  if Ieee.gtb ak F64.zero then
    let aki := F64.div F64.one ak in
    foldl (gsColumn k indk aki) (cov, A) (seq (S k) (2 - k))
  else (cov, A).

(** The modified Gram-Schmidt update of the square-root covariance. *)
Definition updateCovariance (cov_voxel : CovarianceVoxel) (point_count : Z)
    (sample_to_mean : vec3) : CovarianceVoxel :=
  let unpacked_covariance := unpackCovariance cov_voxel point_count sample_to_mean in
  fst (foldl gsStep (cov_voxel, unpacked_covariance) [0; 1; 2]%nat).

(** The updated covariance and occupancy value, and the value returned. *)
Definition calculateHitWithCovariance (cov_voxel : CovarianceVoxel) (voxel_value : f32)
    (sample voxel_mean : vec3) (point_count : Z)
    (hit_value uninitialised_value sensor_noise reinitialise_threshold : f32)
    (reinitialise_sample_count : Z) : CovarianceVoxel * f32 * bool :=
  let '(cov_voxel, voxel_value, initialised_covariance) :=
    hitInitialise cov_voxel voxel_value point_count hit_value uninitialised_value
      sensor_noise reinitialise_threshold reinitialise_sample_count in
  let sample_to_mean := glm.vsub sample voxel_mean in
  (updateCovariance cov_voxel point_count sample_to_mean,
   voxel_value, initialised_covariance).

(** *** calculateMissNdt *)

Section Miss.
Variable libm : Libm.

(** The intermediate quantities of the covariance branch, named as in the
    source. *)
Definition sensor_ray (sensor sample : vec3) : vec3 :=
  glm.normalize (glm.vsub sample sensor).

Definition voxel_maximum_likelyhood (cov_voxel : CovarianceVoxel)
    (sensor sample voxel_mean : vec3) : vec3 :=
  let ray := sensor_ray sensor sample in
  let sensor_to_mean := glm.vsub sensor voxel_mean in
  let a := solveTriangular cov_voxel ray in
  let b_norm := solveTriangular cov_voxel sensor_to_mean in
  let t := F64.div (Ieee.neg (glm.dot a b_norm)) (glm.dot a a) in
  glm.vadd (glm.vscale ray t) sensor.

Definition p_x_ml_given_voxel (cov_voxel : CovarianceVoxel)
    (ml voxel_mean : vec3) : f64 :=
  c_exp libm
    (F64.mul (F64.of_dyadic (-1) (-1))
       (glm.length2 (solveTriangular cov_voxel (glm.vsub ml voxel_mean)))).

(** [sensor_noise * sensor_noise] is a [float] product. *)
Definition p_x_ml_given_sample (ml sample : vec3) (sensor_noise : f32) : f64 :=
  let sensor_noise_variance := F64.of_f32 (F32.mul sensor_noise sensor_noise) in
  c_exp libm
    (F64.div (F64.mul (F64.of_dyadic (-1) (-1)) (glm.length2 (glm.vsub ml sample)))
             sensor_noise_variance).

(** [1.0f - (1.0 / (1.0 + exp(miss_value)))], evaluated in [double]; [exp]
    is taken at the promoted argument (a [float] overload agrees with it on
    the special values, the only ones the library interface fixes). *)
Definition scaling_factor (miss_value : f32) : f64 :=
  F64.sub (F64.of_f32 F32.one)
    (F64.div F64.one (F64.add F64.one (c_exp libm (F64.of_f32 miss_value)))).

Definition probability_update (cov_voxel : CovarianceVoxel)
    (sensor sample voxel_mean : vec3) (miss_value sensor_noise : f32) : f64 :=
  let ml := voxel_maximum_likelyhood cov_voxel sensor sample voxel_mean in
  F64.sub F64.half
    (F64.mul (F64.mul (scaling_factor miss_value)
                (p_x_ml_given_voxel cov_voxel ml voxel_mean))
       (F64.sub F64.one (p_x_ml_given_sample ml sample sensor_noise))).

(** The new occupancy value and the vector the function returns. *)
Definition calculateMissNdt (cov_voxel : CovarianceVoxel) (voxel_value : f32)
    (sensor sample voxel_mean : vec3) (point_count : Z)
    (uninitialised_value miss_value sensor_noise : f32) (sample_threshold : Z)
  : f32 * vec3 :=
  if Ieee.eqb voxel_value uninitialised_value then
    (miss_value, voxel_mean)
  else if point_count <? sample_threshold then
    (F32.add voxel_value miss_value, voxel_mean)
  else
    let ml := voxel_maximum_likelyhood cov_voxel sensor sample voxel_mean in
    let pu := probability_update cov_voxel sensor sample voxel_mean
                miss_value sensor_noise in
    let voxel_value :=
      if Ieee.eqb pu pu then
        F32.add voxel_value
          (F32.of_f64 (c_log libm (F64.div pu (F64.sub F64.one pu))))
      else voxel_value in
    (voxel_value, ml).

End Miss.

End Ndt.

(** ** The NDT-OM miss adjustment as the specification words it

    [C] is the stored square-root covariance, [mu] the voxel mean, [z] the
    sample and [sigma] the sensor noise.  [C^-1 y] is obtained by a
    triangular solve on [C]. *)

Module NdtSpec.

Section Adjustment.
Variable libm : Libm.
Variables (C : Ndt.CovarianceVoxel) (sensor z mu : vec3).
Variables (miss_value sigma : f32).

Definition minus_half : f64 := F64.of_dyadic (-1) (-1).

Definition C_inv (y : vec3) : vec3 := Ndt.solveTriangular C y.
(** The unit ray [l]. *)
Definition ell : vec3 := glm.normalize (glm.vsub z sensor).
Definition a : vec3 := C_inv ell.
(** [t = -(a.b)/(a.a)] and [x_ML = sensor + t l], for a given [b]. *)
Definition t_of (b : vec3) : f64 := F64.div (Ieee.neg (glm.dot a b)) (glm.dot a a).
Definition x_ML_of (b : vec3) : vec3 := glm.vadd (glm.vscale ell (t_of b)) sensor.
(** The specification's [b = sensor - mu]. *)
Definition b_spec : vec3 := glm.vsub sensor mu.
(** [b] taken through the triangular solve, as [a] is. *)
Definition b : vec3 := C_inv b_spec.
Definition t : f64 := t_of b.
Definition x_ML : vec3 := x_ML_of b.
(** [p1 = exp(-0.5 |C^-1 (x_ML - mu)|^2)]. *)
Definition p1 : f64 :=
  c_exp libm (F64.mul minus_half (glm.length2 (C_inv (glm.vsub x_ML mu)))).
(** [p2 = exp(-0.5 |x_ML - z|^2 / sigma^2)]. *)
Definition p2 : f64 :=
  c_exp libm
    (F64.div (F64.mul minus_half (glm.length2 (glm.vsub x_ML z)))
             (F64.of_f32 (F32.mul sigma sigma))).
(** [scale = 1 - 1/(1 + exp(miss_value))]. *)
Definition scale : f64 :=
  F64.sub F64.one
    (F64.div F64.one (F64.add F64.one (c_exp libm (F64.of_f32 miss_value)))).
(** [dp = 0.5 - scale p1 (1 - p2)]. *)
Definition delta_p : f64 :=
  F64.sub F64.half (F64.mul (F64.mul scale p1) (F64.sub F64.one p2)).
(** [log(dp / (1 - dp))]. *)
Definition log_odds : f64 :=
  c_log libm (F64.div delta_p (F64.sub F64.one delta_p)).

End Adjustment.

End NdtSpec.

(** ** OccupancyMapDetail.cpp: keys and key stepping *)

(** Two's-complement wrap-around of the C++ integer conversions. *)
Definition wrap_signed (bits x : Z) : Z :=
  (x + 2 ^ (bits - 1)) mod 2 ^ bits - 2 ^ (bits - 1).
Definition int16 (x : Z) : Z := wrap_signed 16 x.
Definition int32 (x : Z) : Z := wrap_signed 32 x.
Definition uint8 (x : Z) : Z := x mod 256.
Definition uint32 (x : Z) : Z := x mod 2 ^ 32.

(** [glm::ivec3], [glm::i16vec3] and [glm::u8vec3]: three integers, read and
    written through [operator[]]. *)
Record ivec3 := IVec3 { ix : Z; iy : Z; iz : Z }.

Definition vget (v : ivec3) (axis : nat) : Z :=
  match axis with 0%nat => ix v | 1%nat => iy v | _ => iz v end.

Definition vset (v : ivec3) (axis : nat) (a : Z) : ivec3 :=
  match axis with
  | 0%nat => IVec3 a (iy v) (iz v)
  | 1%nat => IVec3 (ix v) a (iz v)
  | _ => IVec3 (ix v) (iy v) a
  end.

(** A voxel key: the region coordinate ([int16_t] per axis) and the local
    coordinate inside the region ([uint8_t] per axis). *)
Record Key := MkKey { regionKey : ivec3; localKey : ivec3 }.

Module KeyMath.

(** [Key(region_key, x, y, z)]: the local coordinates are narrowed to
    [uint8_t]. *)
Definition makeKey (region_key : ivec3) (x y z : Z) : Key :=
  MkKey region_key (IVec3 (uint8 x) (uint8 y) (uint8 z)).

(** [OccupancyMapDetail::moveKeyAlongAxis].  [/] and [%] of C++ truncate
    towards zero ([Z.quot], [Z.rem]); [int] arithmetic wraps at 32 bits and
    the [int16_t] region coordinate at 16 bits. *)
Definition moveKeyAlongAxis (key : Key) (axis : nat) (step : Z)
    (region_voxel_dimensions : ivec3) : Key :=
  let local_limits := region_voxel_dimensions in
  if step =? 0 then key
  else
    let region_key := regionKey key in
    let local_key := localKey key in
    let lim := vget local_limits axis in
    if 0 <? step then
      let local_key := vset local_key axis (int32 (vget local_key axis + step)) in
      let region_key :=
        vset region_key axis
          (int16 (vget region_key axis + Z.quot (vget local_key axis) lim)) in
      let local_key := vset local_key axis (Z.rem (vget local_key axis) lim) in
      makeKey region_key (ix local_key) (iy local_key) (iz local_key)
    else
      let local_key := vset local_key axis (int32 (vget local_key axis + step)) in
      let region_key :=
        vset region_key axis
          (int16 (vget region_key axis
                  + Z.quot (int32 (vget local_key axis - (lim - 1))) lim)) in
      let local_key :=
        if vget local_key axis <? 0 then
          let local_key :=
            vset local_key axis (lim + Z.rem (vget local_key axis) lim) in
          if vget local_key axis =? lim then vset local_key axis 0 else local_key
        else local_key in
      makeKey region_key (ix local_key) (iy local_key) (iz local_key).

(** Modelled from the spec: [OccupancyMap::rangeBetween] (OccupancyMap.cpp is
    not among the sources), "the signed voxel delta per axis" from the first
    key to the second, a region step counting for the region's extent in
    voxels. *)
Definition rangeBetween (region_voxel_dimensions : ivec3) (from to : Key) : ivec3 :=
  let delta axis :=
    (vget (regionKey to) axis - vget (regionKey from) axis)
      * vget region_voxel_dimensions axis
    + (vget (localKey to) axis - vget (localKey from) axis) in
  IVec3 (delta 0%nat) (delta 1%nat) (delta 2%nat).

(** A key as the data model describes it: region coordinates in the
    [int16_t] range and local coordinates inside the region, whose extent
    fits [uint8_t]. *)
Definition validAxis (dims : ivec3) (key : Key) (axis : nat) : Prop :=
  - 2 ^ 15 <= vget (regionKey key) axis < 2 ^ 15 /\
  0 <= vget (localKey key) axis < vget dims axis /\
  vget dims axis <= 255.

Definition validKey (dims : ivec3) (key : Key) : Prop :=
  forall axis, (axis < 3)%nat -> validAxis dims key axis.

End KeyMath.

(** ** Heightmap.cpp: column search and heightmap generation *)

Module Hm.

(** [enum OccupancyType], the four values Heightmap.cpp distinguishes. *)
Inductive OccupancyType := kNull | kUnobserved | kFree | kOccupied.

#[global] Instance OccupancyType_eq_dec : EqDecision OccupancyType.
Proof. solve_decision. Defined.

(** Modelled from the spec: [unobservedOccupancyValue()], the "unobserved
    sentinel" every occupancy layer is cleared to, "a specific f32 bit
    pattern" (its header is not among the sources).  The column search
    classifies a voxel as unknown when it is neither occupied nor free, free
    being [occupancy < threshold]: the sentinel is not below any threshold,
    and positive infinity is taken for it. *)
Definition unobservedOccupancyValue : f32 := Ieee.pinf.

(** [Heightmap::kHeightmapSurfaceValue] and its siblings (Heightmap.h). *)
Definition kHeightmapSurfaceValue : f32 := F32.of_Z 1.
Definition kHeightmapVirtualSurfaceValue : f32 := F32.of_Z (-1).

(** The part of an [OccupancyMap] the heightmap code reads and writes: the
    region size, the occupancy threshold and, per allocated region, the
    voxels of the occupancy layer in row-major order. *)
Record OccupancyMap := {
  region_voxel_dimensions : ivec3;
  occupancy_threshold_value : f32;
  chunks : gmap (Z * Z * Z) (list f32)
}.

Definition regionIndex (key : Key) : Z * Z * Z :=
  (ix (regionKey key), iy (regionKey key), iz (regionKey key)).

Definition voxelIndex (dims : ivec3) (key : Key) : nat :=
  Z.to_nat (ix (localKey key)
            + ix dims * (iy (localKey key) + iy dims * iz (localKey key))).

Definition regionVolume (dims : ivec3) : nat :=
  Z.to_nat (ix dims * iy dims * iz dims).

(** [voxel.occupancy.chunk()], after [voxel.setKey(key)]. *)
Definition chunk (map : OccupancyMap) (key : Key) : option (list f32) :=
  chunks map !! regionIndex key.

Definition hasChunk (map : OccupancyMap) (key : Key) : bool :=
  bool_decide (is_Some (chunk map key)).

(** [float occupancy = unobservedOccupancyValue();
     if (voxel.occupancy.chunk()) voxel.occupancy.read(&occupancy);] *)
Definition readOccupancy (map : OccupancyMap) (key : Key) : f32 :=
  match chunk map key with
  | Some voxels =>
      default unobservedOccupancyValue
        (voxels !! voxelIndex (region_voxel_dimensions map) key)
  | None => unobservedOccupancyValue
  end.

(** [SrcVoxel::occupancyType]. *)
Definition occupancyType (map : OccupancyMap) (key : Key) : OccupancyType :=
  let value := readOccupancy map key in
  let type :=
    if Ieee.geb value (occupancy_threshold_value map) then kOccupied else kFree in
  let type :=
    if negb (Ieee.eqb value unobservedOccupancyValue) then type else kUnobserved in
  if hasChunk map key then type else kNull.

(** [HeightmapDetail], the fields the column code reads.  [up_axis_id] is the
    [UpAxis] value: -3, -2, -1 for -Z, -Y, -X and 0, 1, 2 for X, Y, Z. *)
Record HeightmapDetail := {
  up_axis_id : Z;
  vertical_axis_index : nat;
  min_clearance : f64;
  generate_virtual_surface : bool;
  promote_virtual_below : bool
}.

(** Modelled from the spec: [Key::isBounded(axis, min, max)] (Key.cpp is not
    among the sources); keys are "totally ordered per axis", the region
    coordinate first and the local coordinate second. *)
Definition isBounded (key : Key) (axis : nat) (min_key max_key : Key) : bool :=
  let r k := vget (regionKey k) axis in
  let l k := vget (localKey k) axis in
  negb ((r key <? r min_key) || (r max_key <? r key))
  && negb ((r key =? r min_key) && (l key <? l min_key))
  && negb ((r key =? r max_key) && (l max_key <? l key)).

Section Columns.
Variable map : OccupancyMap.

Let dims := region_voxel_dimensions map.

(** *** findNearestSupportingVoxel2 *)

(** The loop-carried variables of the search. *)
Record Search := {
  best_virtual : option Key;
  last_unknown : bool;
  last_free : bool;
  last_key : option Key;
  current_key : Key;
  offset : Z
}.

(** The outcome of the loop: an occupied voxel returned from inside it, or
    the state at its end. *)
Inductive SearchExit :=
| FoundOccupied (key : Key) (offset : Z)
| Exhausted (st : Search).

(** The [for (int i = 0; i < vertical_range; ++i)] loop; [None] when the fuel
    runs out before the loop condition fails. *)
Fixpoint searchLoop (fuel : nat) (vertical_range step : Z) (up_axis_index : nat)
    (search_up allow_virtual_surface : bool) (i : Z) (st : Search)
  : option SearchExit :=
  if i <? vertical_range then
    match fuel with
    | O => None
    | S fuel =>
        let offset := i + (if search_up then 1 else 0) in
        let current := current_key st in
        let occupancy := readOccupancy map current in
        let occupied :=
          Ieee.geb occupancy (occupancy_threshold_value map)
          && negb (Ieee.eqb occupancy unobservedOccupancyValue) in
        let free := Ieee.ltb occupancy (occupancy_threshold_value map) in
        if occupied then Some (FoundOccupied current offset)
        else
          let best :=
            if allow_virtual_surface && search_up && free && last_unknown st
               && bool_decide (best_virtual st = None)
            then Some current else best_virtual st in
          let best :=
            if allow_virtual_surface && negb search_up && last_free st && negb free
            then last_key st else best in
          let next_step :=
            if hasChunk map current then step
            else if 0 <? step
                 then vget dims up_axis_index - vget (localKey current) up_axis_index
                 else - (1 + vget (localKey current) up_axis_index) in
          let i := if hasChunk map current then i else i + (Z.abs next_step - 1) in
          searchLoop fuel vertical_range step up_axis_index search_up
            allow_virtual_surface (i + 1)
            {| best_virtual := best;
               last_unknown := negb occupied && negb free;
               last_free := free;
               last_key := Some current;
               current_key :=
                 KeyMath.moveKeyAlongAxis current up_axis_index next_step dims;
               offset := offset |}
    end
  else Some (Exhausted st).

(** The key found (or the null key), [*offset] and [*is_virtual]; [offset0]
    is the caller's value of [*offset] on entry. *)
Definition findNearestSupportingVoxel2 (from_key to_key : Key)
    (up_axis_index : nat) (step_limit : Z) (search_up allow_virtual_surface : bool)
    (offset0 : Z) : option (option Key * Z * bool) :=
  let vertical_range :=
    vget (KeyMath.rangeBetween dims from_key to_key) up_axis_index + 1 in
  let step := if 0 <=? vertical_range then 1 else -1 in
  let vertical_range :=
    if 0 <=? vertical_range then vertical_range else - vertical_range in
  let vertical_range :=
    if 0 <? step_limit then Z.min vertical_range step_limit else vertical_range in
  match searchLoop (Z.to_nat vertical_range) vertical_range step up_axis_index
          search_up allow_virtual_surface 0
          {| best_virtual := None; last_unknown := true; last_free := true;
             last_key := None; current_key := from_key; offset := offset0 |} with
  | None => None
  | Some (FoundOccupied key offset) => Some (Some key, offset, false)
  | Some (Exhausted st) =>
      let '(best, offset) :=
        match best_virtual st with
        | Some _ => (best_virtual st, offset st)
        | None =>
            if allow_virtual_surface && negb search_up && last_free st
            then (last_key st, offset st)
            else (None, -1)
        end in
      Some (best, offset, bool_decide (best <> None))
  end.

(** *** findNearestSupportingVoxel *)

(** The selection among the two candidates: the statements that follow the
    two searches. *)
Definition selectSupportingVoxel (below above : option Key)
    (offset_below offset_above : Z) (virtual_below virtual_above : bool)
    (clearance_voxel_count_permissive : Z) (promote_virtual_below : bool)
  : option Key :=
  let have_candidate_below := 0 <=? offset_below in
  let have_candidate_above := 0 <=? offset_above in
  let virtual_below :=
    have_candidate_below && virtual_below && negb promote_virtual_below in
  if have_candidate_below && virtual_above && negb virtual_below then below
  else if have_candidate_above && negb virtual_above && virtual_below then above
  else if have_candidate_below && virtual_above && virtual_below then below
  else if have_candidate_below
          && (negb have_candidate_above || (offset_below <=? offset_above)
              || (have_candidate_below && have_candidate_above
                  && negb virtual_above
                  && (clearance_voxel_count_permissive
                        <=? offset_below + offset_above)))
  then below
  else above.

Definition findNearestSupportingVoxel (seed_key : Key) (up_axis : Z)
    (min_key max_key : Key) (voxel_ceiling clearance_voxel_count_permissive : Z)
    (allow_virtual_surface promote_virtual_below : bool) : option (option Key) :=
  let up_axis_index := Z.to_nat (if 0 <=? up_axis then up_axis else - up_axis - 1) in
  let search_down_to := if 0 <=? up_axis then min_key else max_key in
  let search_up_to := if 0 <=? up_axis then max_key else min_key in
  match findNearestSupportingVoxel2 seed_key search_down_to up_axis_index 0
          false allow_virtual_surface (-1),
        findNearestSupportingVoxel2 seed_key search_up_to up_axis_index
          voxel_ceiling true allow_virtual_surface (-1) with
  | Some (below, offset_below, virtual_below),
    Some (above, offset_above, virtual_above) =>
      Some (selectSupportingVoxel below above offset_below offset_above
              virtual_below virtual_above clearance_voxel_count_permissive
              promote_virtual_below)
  | _, _ => None
  end.

(** *** findGround *)

(** The height of a voxel along the up axis: [glm::dot(voxel.position(), up)]
    for an occupied voxel (the voxel mean when there is one) and
    [glm::dot(voxelCentreGlobal(key), up)] otherwise.  The map geometry is
    not among the sources. *)
Variable positionHeight : Key -> f64.
Variable centreHeight : Key -> f64.

(** [sourceVoxelHeight]. *)
Definition sourceVoxelHeight (key : Key) : OccupancyType * f64 :=
  let voxel_type := occupancyType map key in
  (voxel_type,
   if bool_decide (voxel_type = kOccupied) then positionHeight key
   else centreHeight key).

(** The loop-carried variables of [findGround]. *)
Record Ground := {
  column_height : f64;
  column_clearance_height : f64;
  height : f64;
  candidate_voxel_type : OccupancyType;
  last_voxel_type : OccupancyType;
  ground_key : option Key
}.

(** [std::numeric_limits<double>::max()]. *)
Definition double_max : f64 := S754_finite false (2 ^ 53 - 1) 971.

Definition groundInit : Ground :=
  {| column_height := double_max; column_clearance_height := double_max;
     height := F64.zero; candidate_voxel_type := kNull;
     last_voxel_type := kNull; ground_key := None |}.

(** One pass through the loop body: [inl] when it executes [break]. *)
Definition groundBody (imp : HeightmapDetail) (key : Key) (st : Ground)
  : Ground + Ground :=
  let '(voxel_type, height) := sourceVoxelHeight key in
  let last_is_unobserved :=
    bool_decide (last_voxel_type st = kUnobserved)
    || bool_decide (last_voxel_type st = kNull) in
  if bool_decide (voxel_type = kOccupied)
     || (generate_virtual_surface imp && last_is_unobserved
         && bool_decide (voxel_type = kFree)
         && bool_decide (candidate_voxel_type st = kNull))
  then
    if negb (bool_decide (candidate_voxel_type st = kNull)) then
      let column_clearance_height := height in
      if Ieee.geb (F64.sub column_clearance_height (column_height st))
                  (min_clearance imp)
      then inl {| column_height := column_height st;
                  column_clearance_height := column_clearance_height;
                  height := height;
                  candidate_voxel_type := candidate_voxel_type st;
                  last_voxel_type := last_voxel_type st;
                  ground_key := ground_key st |}
      else inr {| column_height := height;
                  column_clearance_height := height;
                  height := height;
                  candidate_voxel_type := voxel_type;
                  last_voxel_type := voxel_type;
                  ground_key := Some key |}
    else inr {| column_height := height;
                column_clearance_height := height;
                height := height;
                candidate_voxel_type := voxel_type;
                last_voxel_type := voxel_type;
                ground_key := Some key |}
  else inr {| column_height := column_height st;
              column_clearance_height := column_clearance_height st;
              height := height;
              candidate_voxel_type := candidate_voxel_type st;
              last_voxel_type := voxel_type;
              ground_key := ground_key st |}.

(** Modelled from the spec: [OccupancyMap::stepKey(key, axis, dir)]
    (OccupancyMap.cpp is not among the sources), the map's
    [moveKeyAlongAxis] with its own region dimensions. *)
Definition stepKey (key : Key) (axis : nat) (dir : Z) : Key :=
  KeyMath.moveKeyAlongAxis key axis dir dims.

(** The keys the walk of [findGround] visits: the seed stepped [i] times
    along the up axis. *)
Definition columnKey (imp : HeightmapDetail) (seed_key : Key) (i : nat) : Key :=
  Nat.iter i
    (fun key => stepKey key (vertical_axis_index imp)
                  (if 0 <=? up_axis_id imp then 1 else -1))
    seed_key.

(** The height [sourceVoxelHeight] reports for a voxel. *)
Definition heightOf (key : Key) : f64 := snd (sourceVoxelHeight key).

(** The [for (key = seed_key; key.isBounded(...); stepKey(...))] loop; [None]
    when the fuel runs out. *)
Fixpoint groundLoop (fuel : nat) (imp : HeightmapDetail) (min_key max_key : Key)
    (key : Key) (st : Ground) : option Ground :=
  let up_axis_index := vertical_axis_index imp in
  let step_dir := if 0 <=? up_axis_id imp then 1 else -1 in
  if isBounded key up_axis_index min_key max_key then
    match fuel with
    | O => None
    | S fuel =>
        match groundBody imp key st with
        | inl st => Some st
        | inr st =>
            groundLoop fuel imp min_key max_key
              (stepKey key up_axis_index step_dir) st
        end
    end
  else Some st.

(** The ground key (or the null key) with [*height_out] and
    [*clearance_out]; the outputs are only written for a ground key. *)
Definition findGround (fuel : nat) (seed_key min_key max_key : Key)
    (imp : HeightmapDetail) : option (option (Key * f64 * f64)) :=
  match groundLoop fuel imp min_key max_key seed_key groundInit with
  | None => None
  | Some st =>
      if negb (bool_decide (candidate_voxel_type st = kNull)) then
        match ground_key st with
        | Some key =>
            Some (Some (key, height st,
                        F64.sub (column_clearance_height st) (column_height st)))
        | None => Some None
        end
      else Some None
  end.

(** *** The walk of [findGround], as the proofs read it *)

Section GroundSpec.
Variable imp : HeightmapDetail.
Variables min_key max_key seed : Key.

(** A voxel that may carry the ground: occupied, or free when virtual
    surfaces are generated. *)
Definition groundType (t : OccupancyType) : Prop :=
  t = kOccupied \/ (generate_virtual_surface imp = true /\ t = kFree).

(** Nothing between the [g]-th and the [k]-th key of the walk is occupied. *)
Definition clearBetween (g k : nat) : Prop :=
  forall j, (g < j < k)%nat -> occupancyType map (columnKey imp seed j) <> kOccupied.

(** The state at the head of the loop, about to visit the [k]-th key: either
    there is no candidate yet, or the candidate is the [g]-th voxel, below
    [k], its height is the base height, and nothing between the two is
    occupied. *)
Definition groundInv (k : nat) (st : Ground) : Prop :=
  candidate_voxel_type st = kNull \/
  exists g, (g < k)%nat /\
    ground_key st = Some (columnKey imp seed g) /\
    candidate_voxel_type st = occupancyType map (columnKey imp seed g) /\
    groundType (occupancyType map (columnKey imp seed g)) /\
    column_height st = heightOf (columnKey imp seed g) /\
    column_clearance_height st = heightOf (columnKey imp seed g) /\
    clearBetween g k.

(** The walk left the bounds at key [e] without meeting an occupied voxel
    above the ground [g]. *)
Definition reachedBounds (g : nat) (clearance_height : f64) : Prop :=
  exists e, (g < e)%nat /\
    isBounded (columnKey imp seed e) (vertical_axis_index imp) min_key max_key = false /\
    clearBetween g e /\
    clearance_height = heightOf (columnKey imp seed g).

(** The walk stopped at the first occupied voxel [j] above the ground [g],
    whose height gap is at least the minimum clearance. *)
Definition obstructedAt (g : nat) (clearance_height : f64) : Prop :=
  exists j, (g < j)%nat /\
    isBounded (columnKey imp seed j) (vertical_axis_index imp) min_key max_key = true /\
    occupancyType map (columnKey imp seed j) = kOccupied /\
    clearBetween g j /\
    clearance_height = heightOf (columnKey imp seed j) /\
    Ieee.geb (F64.sub (heightOf (columnKey imp seed j)) (heightOf (columnKey imp seed g)))
             (min_clearance imp) = true.

(** The state the loop ends in. *)
Definition groundFinal (st : Ground) : Prop :=
  candidate_voxel_type st = kNull \/
  exists g,
    ground_key st = Some (columnKey imp seed g) /\
    groundType (occupancyType map (columnKey imp seed g)) /\
    column_height st = heightOf (columnKey imp seed g) /\
    (reachedBounds g (column_clearance_height st)
     \/ obstructedAt g (column_clearance_height st)).

End GroundSpec.

End Columns.

(** *** Column walks, as the termination arguments read them *)

(** The position of a key along an axis, in voxels. *)
Definition axisPosition (dims : ivec3) (key : Key) (axis : nat) : Z :=
  vget (regionKey key) axis * vget dims axis + vget (localKey key) axis.

(** A key that is null or valid on the axis. *)
Definition validOn (dims : ivec3) (axis : nat) (key : option Key) : Prop :=
  match key with
  | Some key => KeyMath.validAxis dims key axis
  | None => True
  end.

(** The keys a search hands back are null or valid on the axis. *)
Definition exitValid (dims : ivec3) (axis : nat) (r : SearchExit) : Prop :=
  match r with
  | FoundOccupied key _ => KeyMath.validAxis dims key axis
  | Exhausted st => validOn dims axis (best_virtual st) /\ validOn dims axis (last_key st)
  end.

(** The number of voxels [findGround] has left to walk from [key], that one
    included. *)
Definition remaining (dims : ivec3) (imp : HeightmapDetail) (min_key max_key key : Key)
  : Z :=
  (if 0 <=? up_axis_id imp
   then axisPosition dims max_key (vertical_axis_index imp)
        - axisPosition dims key (vertical_axis_index imp)
   else axisPosition dims key (vertical_axis_index imp)
        - axisPosition dims min_key (vertical_axis_index imp)) + 1.

(** *** Heightmap::buildHeightmapT

    Only the occupancy layer of the heightmap is tracked: the writes to its
    heightmap and mean layers do not touch it. *)

(** [heightmap.clear()]: every region is released. *)
Definition clear (heightmap : OccupancyMap) : OccupancyMap :=
  {| region_voxel_dimensions := region_voxel_dimensions heightmap;
     occupancy_threshold_value := occupancy_threshold_value heightmap;
     chunks := ∅ |}.

(** [hm_voxel.setKey(hm_key); hm_voxel.occupancy.write(value)]: the region is
    created on first touch, its occupancy layer cleared to the unobserved
    value. *)
Definition writeOccupancy (heightmap : OccupancyMap) (key : Key) (value : f32)
  : OccupancyMap :=
  let dims := region_voxel_dimensions heightmap in
  let voxels :=
    default (replicate (regionVolume dims) unobservedOccupancyValue)
            (chunk heightmap key) in
  {| region_voxel_dimensions := dims;
     occupancy_threshold_value := occupancy_threshold_value heightmap;
     chunks := <[regionIndex key := <[voxelIndex dims key := value]> voxels]>
                 (chunks heightmap) |}.

(** [Heightmap::project]: the key is flattened along the up axis. *)
Definition project (up_axis_index : nat) (key : Key) : Key :=
  MkKey (vset (regionKey key) up_axis_index 0) (vset (localKey key) up_axis_index 0).

(** The value written for a ground voxel of the given type. *)
Definition surfaceValue (voxel_type : OccupancyType) : f32 :=
  if bool_decide (voxel_type = kOccupied) then kHeightmapSurfaceValue
  else kHeightmapVirtualSurfaceValue.

Section Build.
(** The source map, its geometry, and [heightmap.voxelKey(voxel_pos)] for the
    horizontal position of a source voxel (the map geometry is not among the
    sources). *)
Variable src_map : OccupancyMap.
Variable positionHeight : Key -> f64.
Variable centreHeight : Key -> f64.
Variable heightmapVoxelKey : Key -> Key.
Variable imp : HeightmapDetail.
(** The walker's extents, and the two voxel counts [buildHeightmapT] derives
    from the ceiling and the minimum clearance. *)
Variables min_ext_key max_ext_key : Key.
Variables voxel_ceiling clearance_voxel_count_permissive : Z.

(** One pass through the [do ... while] body for [walk_key]: the heightmap
    and [populated_count]; [None] when a column loop runs out of fuel. *)
Definition visitColumn (fuel : nat) (heightmap : OccupancyMap) (populated_count : Z)
    (walk_key : Key) : option (OccupancyMap * Z) :=
  match findNearestSupportingVoxel src_map walk_key (up_axis_id imp)
          min_ext_key max_ext_key voxel_ceiling clearance_voxel_count_permissive
          (generate_virtual_surface imp) (promote_virtual_below imp) with
  | None => None
  | Some candidate_key =>
      let ground :=
        match candidate_key with
        | Some candidate =>
            match findGround src_map positionHeight centreHeight fuel candidate
                    min_ext_key max_ext_key imp with
            | None => None
            | Some (Some (ground_key, _, _)) => Some (Some ground_key)
            | Some None => Some None
            end
        | None => Some (Some walk_key)
        end in
      match ground with
      | None => None
      | Some ground_key =>
          let voxel_type :=
            match ground_key with
            | Some key => occupancyType src_map key
            | None => kNull
            end in
          if bool_decide (voxel_type = kOccupied) || generate_virtual_surface imp then
            let surface_value := surfaceValue voxel_type in
            match ground_key with
            | Some key =>
                if negb (bool_decide (voxel_type = kUnobserved))
                   && negb (bool_decide (voxel_type = kNull))
                then
                  let hm_key :=
                    project (vertical_axis_index imp) (heightmapVoxelKey key) in
                  Some (writeOccupancy heightmap hm_key surface_value,
                        populated_count + 1)
                else Some (heightmap, populated_count)
            | None => Some (heightmap, populated_count)
            end
          else Some (heightmap, populated_count)
      end
  end.

(** The columns the walker yields are visited in order. *)
Fixpoint visitColumns (fuel : nat) (heightmap : OccupancyMap) (populated_count : Z)
    (walk : list Key) : option (OccupancyMap * Z) :=
  match walk with
  | [] => Some (heightmap, populated_count)
  | walk_key :: walk =>
      match visitColumn fuel heightmap populated_count walk_key with
      | None => None
      | Some (heightmap, populated_count) =>
          visitColumns fuel heightmap populated_count walk
      end
  end.

(** [buildHeightmapT]: the heightmap built and the value returned,
    [populated_count != 0]. *)
Definition buildHeightmapT (fuel : nat) (heightmap : OccupancyMap) (walk : list Key)
  : option (OccupancyMap * bool) :=
  match visitColumns fuel (clear heightmap) 0 walk with
  | None => None
  | Some (heightmap, populated_count) =>
      Some (heightmap, negb (populated_count =? 0))
  end.

End Build.

(** *** The heightmap's occupancy layer, as the proofs read it *)

(** Every stored voxel of the occupancy layer satisfies [P]. *)
Definition occupancyForall (P : f32 -> Prop) (heightmap : OccupancyMap) : Prop :=
  map_Forall (fun _ voxels => Forall P voxels) (chunks heightmap).

(** Every key reads a value that satisfies [P]. *)
Definition readsForall (P : f32 -> Prop) (heightmap : OccupancyMap) : Prop :=
  forall key, P (readOccupancy heightmap key).


(** The values the build leaves in a voxel. *)
Definition builtValue (v : f32) : Prop :=
  v = kHeightmapSurfaceValue \/ v = kHeightmapVirtualSurfaceValue \/
  v = unobservedOccupancyValue.

(** What one column visit does to the heightmap: nothing, or one write, of
    +1 for an occupied ground voxel and of -1 for a free one when virtual
    surfaces are generated. *)
Definition columnWrite (src_map : OccupancyMap) (heightmapVoxelKey : Key -> Key)
    (imp : HeightmapDetail) (before after : OccupancyMap) : Prop :=
  after = before \/
  exists ground_key,
    let hm_key := project (vertical_axis_index imp) (heightmapVoxelKey ground_key) in
    (occupancyType src_map ground_key = kOccupied /\
     after = writeOccupancy before hm_key kHeightmapSurfaceValue)
    \/
    (occupancyType src_map ground_key = kFree /\
     generate_virtual_surface imp = true /\
     after = writeOccupancy before hm_key kHeightmapVirtualSurfaceValue).


End Hm.

(** ** MapSerialiseV0.cpp: the legacy chunk loader *)

Module SerialiseV0.

(** The error codes [loadChunk] returns ([kSeOk] is 0). *)
Inductive SerialiseError := kSeOk | kSeFileReadFailure | kSeValueOverflow.

Definition byte := Byte.byte.

(** The unsigned value of a little-endian byte sequence. *)
Definition le_unsigned (bytes : list byte) : Z :=
  foldr (fun b acc => Z.of_N (Byte.to_N b) + 256 * acc) 0 bytes.

(** [InputStream::read(dst, n)]: up to [n] bytes are taken from the stream;
    the bytes read and the remaining stream. *)
Definition streamRead (stream : list byte) (n : nat) : list byte * list byte :=
  (take n stream, drop n stream).

(** Modelled from the spec: [read<T>(stream, value)] of SerialiseUtil.h (not
    among the sources) for a [T] of [n] bytes of the little-endian format; on
    a short read it returns false and [value] keeps its old content. *)
Definition readValue (n : nat) (decode : Z -> Z) (stream : list byte) (old : Z)
  : bool * Z * list byte :=
  let '(got, rest) := streamRead stream n in
  if (length got =? n)%nat then (true, decode (le_unsigned got), rest)
  else (false, old, rest).

(** The fields of a [MapChunk] the loader writes.  Floats and doubles are
    carried as their bit patterns: the loader only moves them. *)
Record MapChunk := {
  region_coord : ivec3;
  region_centre : ivec3;
  touched_time : Z;
  occupancy : list Z;
  clearance : list Z;
  coarse_clearance : option (list Z)
}.

(** [detail.region_voxel_dimensions.x * .y * .z], an [int] product stored in
    an [unsigned]. *)
Definition nodeCount (region_voxel_dimensions : ivec3) : Z :=
  uint32 (int32 (int32 (ix region_voxel_dimensions * iy region_voxel_dimensions)
                 * iz region_voxel_dimensions)).

(** [2 * sizeof(float) * node_count], a [size_t]. *)
Definition nodeByteCount (region_voxel_dimensions : ivec3) : Z :=
  (2 * 4 * nodeCount region_voxel_dimensions) mod 2 ^ 64.

(** [node_data[j]] of the vector of [size] floats, zero-initialised and then
    overwritten by the bytes that were read. *)
Definition nodeData (got : list byte) (size : nat) (j : nat) : Z :=
  let bytes := got ++ replicate (4 * size - length got) Byte.x00 in
  le_unsigned (take 4 (drop (4 * j) bytes)).

(** The de-interleaving loop over [i < node_data.size() / 2]. *)
Definition deinterleave (node_data : nat -> Z) (count : nat)
    (layers : list Z * list Z) : list Z * list Z :=
  foldl (fun '(occupancy_buffer, clearance_buffer) i =>
           (<[i := node_data (2 * i)%nat]> occupancy_buffer,
            <[i := node_data (2 * i + 1)%nat]> clearance_buffer))
        layers (seq 0 count).

(** [read<int32_t>(stream, chunk.region.coord.x)]: the [int32_t] read from
    the stream is stored into an [int16_t] member of [region.coord], and so
    narrowed to 16 bits. *)
Definition coordOfInt32 (bits : Z) : Z := int16 (int32 bits).

(** The seven [ok = read<T>(stream, field) && ok] statements: every read is
    attempted, and [ok] is their conjunction. *)
Definition readRegion (stream : list byte) (chunk : MapChunk)
  : bool * MapChunk * list byte :=
  let '(ok1, cx, stream) :=
    readValue 4 coordOfInt32 stream (ix (region_coord chunk)) in
  let '(ok2, cy, stream) :=
    readValue 4 coordOfInt32 stream (iy (region_coord chunk)) in
  let '(ok3, cz, stream) :=
    readValue 4 coordOfInt32 stream (iz (region_coord chunk)) in
  let '(ok4, mx, stream) :=
    readValue 8 (fun bits => bits) stream (ix (region_centre chunk)) in
  let '(ok5, my, stream) :=
    readValue 8 (fun bits => bits) stream (iy (region_centre chunk)) in
  let '(ok6, mz, stream) :=
    readValue 8 (fun bits => bits) stream (iz (region_centre chunk)) in
  let '(ok7, time, stream) :=
    readValue 8 (fun bits => bits) stream (touched_time chunk) in
  (ok1 && ok2 && ok3 && ok4 && ok5 && ok6 && ok7,
   {| region_coord := IVec3 cx cy cz; region_centre := IVec3 mx my mz;
      touched_time := time; occupancy := occupancy chunk;
      clearance := clearance chunk; coarse_clearance := coarse_clearance chunk |},
   stream).

(** [v0::loadChunk]: the error code, the chunk and the remaining stream.  The
    legacy "coarseClearance" layer, when present, is zeroed first. *)
Definition loadChunk (stream : list byte) (chunk : MapChunk)
    (region_voxel_dimensions : ivec3) : SerialiseError * MapChunk * list byte :=
  let chunk :=
    {| region_coord := region_coord chunk; region_centre := region_centre chunk;
       touched_time := touched_time chunk; occupancy := occupancy chunk;
       clearance := clearance chunk;
       coarse_clearance :=
         option_map (fun l => replicate (length l) 0) (coarse_clearance chunk) |} in
  let '(ok, chunk, stream) := readRegion stream chunk in
  let node_count := nodeCount region_voxel_dimensions in
  let node_byte_count := nodeByteCount region_voxel_dimensions in
  if negb (node_byte_count =? uint32 node_byte_count) then
    (kSeValueOverflow, chunk, stream)
  else if ok then
    let size := Z.to_nat (uint32 (node_count * 2)) in
    let '(got, stream) := streamRead stream (Z.to_nat (uint32 node_byte_count)) in
    let ok := (Z.of_nat (length got) =? node_byte_count) && ok in
    let '(occupancy_buffer, clearance_buffer) :=
      deinterleave (nodeData got size) (Z.to_nat (uint32 (Z.of_nat size / 2)))
        (occupancy chunk, clearance chunk) in
    (if ok then kSeOk else kSeFileReadFailure,
     {| region_coord := region_coord chunk; region_centre := region_centre chunk;
        touched_time := touched_time chunk; occupancy := occupancy_buffer;
        clearance := clearance_buffer; coarse_clearance := coarse_clearance chunk |},
     stream)
  else (kSeFileReadFailure, chunk, stream).

(** [glm::u8vec3]: the region dimensions a map can hold. *)
Definition isU8Vec3 (v : ivec3) : Prop :=
  0 <= ix v <= 255 /\ 0 <= iy v <= 255 /\ 0 <= iz v <= 255.

(** The region voxel count, the product of the three dimensions. *)
Definition regionVoxelCount (region_voxel_dimensions : ivec3) : nat :=
  Z.to_nat (ix region_voxel_dimensions * iy region_voxel_dimensions
            * iz region_voxel_dimensions).

(** The [j]-th float of the block that follows the 44-byte region header. *)
Definition storedFloat (stream : list byte) (j : nat) : Z :=
  le_unsigned (take 4 (drop (44 + 4 * j) stream)).

End SerialiseV0.

(** ** VoxelIncidentCompute.h: the incident normal, in exact real arithmetic *)

Module Incident.

Local Open Scope R_scope.

(** [Vec3] with real components. *)
Record Vec3 := MkVec3 { nx : R; ny : R; nz : R }.

Definition zero3 : Vec3 := MkVec3 0 0 0.

Definition scale (v : Vec3) (s : R) : Vec3 :=
  MkVec3 (nx v * s) (ny v * s) (nz v * s).

Definition length2 (v : Vec3) : R := nx v * nx v + ny v * ny v + nz v * nz v.

(** The literal [1e-6f]: the binary32 number nearest to 10^-6,
    8796093 * 2^-43. *)
Definition epsilon : R := IZR 8796093 / IZR (2 ^ 43).

(** [(len2 > 1e-6f) ? 1.0f / sqrt(len2) : 0.0f]. *)
Definition normaliser (len2 : R) : R :=
  if Rlt_dec epsilon len2 then 1 / sqrt len2 else 0.

(** [x != 0]. *)
Definition neq0 (x : R) : bool := if Req_dec_T x 0 then false else true.

(** [normal.x != 0 || normal.y != 0 || normal.z != 0]. *)
Definition nonzero (v : Vec3) : bool := neq0 (nx v) || neq0 (ny v) || neq0 (nz v).

(** The point count the function works with: 0 for a zero normal. *)
Definition effectiveCount (normal : Vec3) (point_count : Z) : Z :=
  if nonzero normal && negb (point_count =? 0)%Z then point_count else 0%Z.

(** [updateIncidentNormalV3]; [point_count] is an [unsigned], so
    [point_count + 1] wraps at 32 bits.  When it wraps to 0 the quotient
    [1.0f / (float)(point_count + 1)] is a division by zero, which has no
    value in real arithmetic: the result is [None]. *)
Definition updateIncidentNormalV3 (normal incident_ray : Vec3) (point_count : Z)
  : option Vec3 :=
  let point_count := effectiveCount normal point_count in
  let count_plus_one := uint32 (point_count + 1) in
  if (count_plus_one =? 0)%Z then None
  else
    let one_on_count_plus_one := 1 / IZR count_plus_one in
    let normal_length_2 := length2 incident_ray in
    let incident_ray := scale incident_ray (normaliser normal_length_2) in
    let normal :=
      MkVec3 (nx normal + (nx incident_ray - nx normal) * one_on_count_plus_one)
             (ny normal + (ny incident_ray - ny normal) * one_on_count_plus_one)
             (nz normal + (nz incident_ray - nz normal) * one_on_count_plus_one) in
    let normal_length_2 := length2 normal in
    Some (scale normal (normaliser normal_length_2)).

End Incident.

(** ** Heightmap.cpp: what the column code classifies and reports *)

Module HmInfo.

Import Hm.

(** The two tests of the column search on the voxel of a key:
    [occupancy >= threshold && occupancy != unobservedOccupancyValue()] and
    [occupancy < threshold]. *)
Definition isOccupied (map : OccupancyMap) (key : Key) : bool :=
  let occupancy := readOccupancy map key in
  Ieee.geb occupancy (occupancy_threshold_value map)
  && negb (Ieee.eqb occupancy unobservedOccupancyValue).

Definition isFree (map : OccupancyMap) (key : Key) : bool :=
  Ieee.ltb (readOccupancy map key) (occupancy_threshold_value map).

(** The state of a search between two passes of its loop: the offset is the
    caller's until a voxel has been visited, a voxel remembered as free is
    free, and a virtual candidate is a free voxel found with virtual
    surfaces allowed. *)
Definition searchInv (map : OccupancyMap) (allow : bool) (offset0 bound : Z)
    (st : Search) : Prop :=
  (last_key st = None -> offset st = offset0) /\
  (forall key, last_key st = Some key ->
     0 <= offset st < bound /\ (last_free st = true -> isFree map key = true)) /\
  (forall key, best_virtual st = Some key ->
     allow = true /\ isFree map key = true /\ last_key st <> None).

(** What a search hands back: a null key with offset -1, an occupied voxel,
    or (flagged virtual) a free voxel found with virtual surfaces allowed. *)
Definition searchResult (map : OccupancyMap) (allow : bool) (bound : Z)
    (key : option Key) (off : Z) (is_virtual : bool) : Prop :=
  match key with
  | None => off = -1 /\ is_virtual = false
  | Some key =>
      0 <= off < bound /\
      if is_virtual then allow = true /\ isFree map key = true
      else isOccupied map key = true
  end.

(** *** The walk of [findGround], voxel by voxel *)

Section GroundTrace.
Variable map : OccupancyMap.
Variables positionHeight centreHeight : Key -> f64.
Variable imp : HeightmapDetail.
Variables min_key max_key seed : Key.

(** The first [k] keys of the walk are inside the bounds. *)
Definition walked (k : nat) : Prop :=
  forall j, (j < k)%nat ->
    isBounded (columnKey map imp seed j) (vertical_axis_index imp) min_key max_key
    = true.

(** The state at the head of the loop, about to test the [k]-th key: the
    keys before it were visited, [height] is that of the last one, there is
    no candidate only if none of them is occupied, and a candidate is one
    of them, with its height as the base height. *)
Definition traceInv (k : nat) (st : Ground) : Prop :=
  walked k /\
  (forall n, k = S n ->
     height st = heightOf map positionHeight centreHeight (columnKey map imp seed n)) /\
  (candidate_voxel_type st = kNull ->
     forall j, (j < k)%nat ->
       occupancyType map (columnKey map imp seed j) <> kOccupied) /\
  (candidate_voxel_type st <> kNull ->
     exists g, (g < k)%nat /\
       ground_key st = Some (columnKey map imp seed g) /\
       column_height st
       = heightOf map positionHeight centreHeight (columnKey map imp seed g)).

(** The loop was left by [break] on the [n]-th key, an occupied voxel above
    the candidate [g]. *)
Definition stoppedAt (n : nat) (st : Ground) : Prop :=
  walked (S n) /\
  occupancyType map (columnKey map imp seed n) = kOccupied /\
  candidate_voxel_type st <> kNull /\
  height st = heightOf map positionHeight centreHeight (columnKey map imp seed n) /\
  column_clearance_height st
  = heightOf map positionHeight centreHeight (columnKey map imp seed n) /\
  exists g, (g < n)%nat /\
    ground_key st = Some (columnKey map imp seed g) /\
    column_height st
    = heightOf map positionHeight centreHeight (columnKey map imp seed g).

(** How the loop ends: at the first key outside the bounds, or by [break]. *)
Definition traceExit (st : Ground) : Prop :=
  (exists e,
     isBounded (columnKey map imp seed e) (vertical_axis_index imp) min_key max_key
     = false /\ traceInv e st)
  \/ (exists n, stoppedAt n st).

End GroundTrace.

(** [enum HeightmapVoxelType], the values Heightmap.cpp returns. *)
Inductive HeightmapVoxelType := kUnknown | kVacant | kSurface | kVirtualSurface.

(** [Heightmap::getHeightmapVoxelInfo], the type it returns.  [key] is
    [None] for the null key; [heightmap_voxel_valid] is
    [heightmap_voxel.isValid()], the validity of the voxel in the heightmap
    layer. *)
Definition heightmapVoxelType (heightmap : OccupancyMap) (heightmap_voxel_valid : bool)
    (key : option Key) : HeightmapVoxelType :=
  match key with
  | None => kUnknown
  | Some key =>
      if hasChunk heightmap key then
        let occupancy := readOccupancy heightmap key in
        let is_uncertain := Ieee.eqb occupancy unobservedOccupancyValue in
        let heightmap_voxel_value :=
          if negb is_uncertain then occupancy else F32.of_Z (-1) in
        if negb is_uncertain && heightmap_voxel_valid
           && Ieee.eqb heightmap_voxel_value F32.zero then kVacant
        else if negb is_uncertain && heightmap_voxel_valid
                && Ieee.gtb heightmap_voxel_value F32.zero then kSurface
        else if negb is_uncertain then kVirtualSurface else kUnknown
      else kUnknown
  end.

(** The coordinate of a region index along an axis. *)
Definition regionCoord (index : Z * Z * Z) (axis : nat) : Z :=
  let '(x, y, z) := index in
  match axis with 0%nat => x | 1%nat => y | _ => z end.

End HmInfo.

(** ** MapSerialiseV0.cpp: loading the regions of a version-0 map *)

Module SerialiseLoad.

Import SerialiseV0.

(** What [load] leaves behind: the error code, the chunks inserted into
    [detail.chunks] in the order of their insertion, the stream, and what
    the [SerialiseProgress] observer was told (its target, when one was
    set, and how often it was incremented). *)
Record Loaded := {
  load_error : SerialiseError;
  load_chunks : list MapChunk;
  load_stream : list byte;
  progress_target : option Z;
  progress_count : nat
}.

(** The [for] loop of [load].  [i] is the [unsigned] loop counter and
    [region_count] the [size_t] bound; [quit], when there is a progress
    observer, answers its [quit()] queries in order; [fresh] is the chunk
    [new MapChunk(detail)] makes.  [None] when the fuel runs out. *)
Fixpoint loadLoop (fuel : nat) (fresh : MapChunk) (region_voxel_dimensions : ivec3)
    (region_count : Z) (quit : option (nat -> bool)) (i : Z) (queries : nat)
    (st : Loaded) : option Loaded :=
  let go_on :=
    (i <? region_count)
    && match quit with Some quit => negb (quit queries) | None => true end in
  if go_on then
    match fuel with
    | O => None
    | S fuel =>
        let '(err, chunk, stream) :=
          loadChunk (load_stream st) fresh region_voxel_dimensions in
        match err with
        | kSeOk =>
            loadLoop fuel fresh region_voxel_dimensions region_count quit
              (uint32 (i + 1)) (S queries)
              {| load_error := err;
                 load_chunks := load_chunks st ++ [chunk];
                 load_stream := stream;
                 progress_target := progress_target st;
                 progress_count :=
                   match quit with
                   | Some _ => S (progress_count st)
                   | None => progress_count st
                   end |}
        | _ =>
            Some {| load_error := err;
                    load_chunks := load_chunks st;
                    load_stream := stream;
                    progress_target := progress_target st;
                    progress_count := progress_count st |}
        end
    end
  else Some st.

(** [v0::load], from the point where the layout has been set up. *)
Definition load (fuel : nat) (stream : list byte) (fresh : MapChunk)
    (region_voxel_dimensions : ivec3) (quit : option (nat -> bool))
    (region_count : Z) : option Loaded :=
  let '(target, count) :=
    match quit with
    | Some _ =>
        if negb (region_count =? 0) then (Some (uint32 region_count), 0%nat)
        else (Some 1, 1%nat)
    | None => (None, 0%nat)
    end in
  loadLoop fuel fresh region_voxel_dimensions region_count quit 0 0
    {| load_error := kSeOk; load_chunks := []; load_stream := stream;
       progress_target := target; progress_count := count |}.

(** The bytes one region takes in the stream: the 44-byte header and two
    floats per voxel. *)
Definition regionBytes (region_voxel_dimensions : ivec3) : nat :=
  (44 + 8 * Z.to_nat (nodeCount region_voxel_dimensions))%nat.

(** The answer to the [n]-th [quit()] query; without an observer no query is
    made and the loop goes on. *)
Definition quits (quit : option (nat -> bool)) (n : nat) : bool :=
  match quit with Some quit => quit n | None => false end.

(** The chunk [loadChunk] makes of the [i]-th region block of a stream. *)
Definition regionChunk (stream : list byte) (fresh : MapChunk)
    (region_voxel_dimensions : ivec3) (i : nat) : MapChunk :=
  snd (fst (loadChunk (drop (i * regionBytes region_voxel_dimensions) stream) fresh
              region_voxel_dimensions)).

End SerialiseLoad.

(** ** VoxelIncidentCompute.h: the packed incident normal, in [float] *)

Module NormalPack.

(** [glm::vec3]. *)
Record Vec3f := MkVec3f { fx : f32; fy : f32; fz : f32 }.

Definition OHM_NORMAL_QUAT : f32 := F32.of_Z 16383.
Definition OHM_NORMAL_MASK : Z := 16383.
Definition OHM_NORMAL_SHIFT_X : Z := 0.
Definition OHM_NORMAL_SHIFT_Y : Z := 15.
Definition OHM_NORMAL_SET_BIT : Z := Z.shiftl 1 30.
Definition OHM_NORMAL_SIGN_BIT_Z : Z := Z.shiftl 1 31.

(** [std::min(a, b)] is [(b < a) ? b : a] and [std::max(a, b)] is
    [(a < b) ? b : a]. *)
Definition fmin (a b : f32) : f32 := if Ieee.ltb b a then b else a.
Definition fmax (a b : f32) : f32 := if Ieee.ltb a b then b else a.

(** [std::max(-1.0f, std::min(v, 1.0f))]. *)
Definition clamp1 (v : f32) : f32 := fmax (F32.of_Z (-1)) (fmin v F32.one).

(** [x != 0], and the conversion of a [float] to [bool]. *)
Definition fnonzero (x : f32) : bool := negb (Ieee.eqb x F32.zero).

(** [(unsigned)x] for a [float]: the value truncated towards zero, which is
    defined for values in (-1, 2^32); other values (undefined behaviour) are
    given 0 or the truncation modulo 2^32. *)
Definition to_unsigned (x : f32) : Z :=
  match x with
  | S754_finite s m e =>
      let magnitude := if 0 <=? e then Z.pos m * 2 ^ e else Z.pos m / 2 ^ (- e) in
      uint32 (if s then - magnitude else magnitude)
  | _ => 0
  end.

(** [(packed_normal >> shift) & OHM_NORMAL_MASK]. *)
Definition channel (packed_normal shift : Z) : Z :=
  Z.land (Z.shiftr packed_normal shift) OHM_NORMAL_MASK.

(** [packed_normal & bit], as a condition. *)
Definition hasBit (packed_normal bit : Z) : bool :=
  negb (Z.land packed_normal bit =? 0).

(** [(2.0f * (q / OHM_NORMAL_QUAT)) - 1.0f], then clamped. *)
Definition decodeChannel (q : Z) : f32 :=
  clamp1 (F32.sub (F32.mul (F32.of_Z 2) (F32.div (F32.of_Z q) OHM_NORMAL_QUAT))
            F32.one).

(** [decodeNormal].  [sqrt] of a [float] is the correctly rounded [float]
    square root (computing it in [double] and narrowing gives the same
    value). *)
Definition decodeNormal (packed_normal : Z) : Vec3f :=
  let x := decodeChannel (channel packed_normal OHM_NORMAL_SHIFT_X) in
  let y := decodeChannel (channel packed_normal OHM_NORMAL_SHIFT_Y) in
  let z := clamp1 (F32.sub F32.one (F32.add (F32.mul x x) (F32.mul y y))) in
  let set := hasBit packed_normal OHM_NORMAL_SET_BIT in
  let x := if set then x else F32.zero in
  let y := if set then y else F32.zero in
  let z := if set then Ieee.sqrt Ieee.binary32 z else F32.zero in
  let z :=
    F32.mul z (if hasBit packed_normal OHM_NORMAL_SIGN_BIT_Z
               then F32.of_Z (-1) else F32.one) in
  MkVec3f x y z.

(** [0.5f * (std::max(-1.0f, std::min(v, 1.0f)) + 1.0f)]: the channel moved
    from [-1, 1] to [0, 1]. *)
Definition remap (v : f32) : f32 :=
  F32.mul (F32.of_dyadic 1 (-1)) (F32.add (clamp1 v) F32.one).

(** [(unsigned)(v * OHM_NORMAL_QUAT)]. *)
Definition quantise (v : f32) : Z := to_unsigned (F32.mul v OHM_NORMAL_QUAT).

(** [~x] of an [unsigned]. *)
Definition not32 (x : Z) : Z := uint32 (Z.lnot x).

(** [encodeNormal]. *)
Definition encodeNormal (normal : Vec3f) : Z :=
  let n := 0 in
  let x := remap (fx normal) in
  let y := remap (fy normal) in
  let i := quantise x in
  let n := Z.lor n (uint32 (Z.shiftl (Z.land i OHM_NORMAL_MASK) OHM_NORMAL_SHIFT_X)) in
  let i := quantise y in
  let n := Z.lor n (uint32 (Z.shiftl (Z.land i OHM_NORMAL_MASK) OHM_NORMAL_SHIFT_Y)) in
  let n := Z.land n (not32 (Z.lor OHM_NORMAL_SET_BIT OHM_NORMAL_SIGN_BIT_Z)) in
  let n := Z.lor n (if Ieee.ltb (fz normal) F32.zero then OHM_NORMAL_SIGN_BIT_Z else 0) in
  let n :=
    Z.lor n (if fnonzero x || fnonzero y || fnonzero (fz normal)
             then OHM_NORMAL_SET_BIT else 0) in
  n.

(** The literal [1e-6f]. *)
Definition epsilon : f32 := S754_finite false 8796093 (-43).

(** [(len2 > 1e-6f) ? 1.0f / sqrt(len2) : 0.0f], as the vector's
    [operator*=] takes it.  On the host [sqrt] is the [double] function of the
    C library: [len2] is promoted, the quotient is computed in [double], and
    the [double] result of the conditional is narrowed to [float] once, by
    glm's [operator*=]. *)
Definition normaliser (len2 : f32) : f32 :=
  F32.of_f64
    (if Ieee.gtb len2 epsilon
     then F64.div (F64.of_f32 F32.one) (F64.sqrt (F64.of_f32 len2))
     else F64.of_f32 F32.zero).

Definition length2 (v : Vec3f) : f32 :=
  F32.add (F32.add (F32.mul (fx v) (fx v)) (F32.mul (fy v) (fy v)))
          (F32.mul (fz v) (fz v)).

Definition scale (v : Vec3f) (s : f32) : Vec3f :=
  MkVec3f (F32.mul (fx v) s) (F32.mul (fy v) s) (F32.mul (fz v) s).

(** [updateIncidentNormalV3] in [float] arithmetic; [point_count] is an
    [unsigned]. *)
Definition updateIncidentNormalV3 (normal incident_ray : Vec3f) (point_count : Z)
  : Vec3f :=
  let point_count :=
    if (fnonzero (fx normal) || fnonzero (fy normal) || fnonzero (fz normal))
       && negb (point_count =? 0)
    then point_count else 0 in
  let one_on_count_plus_one :=
    F32.div F32.one (F32.of_Z (uint32 (point_count + 1))) in
  let normal_length_2 := length2 incident_ray in
  let incident_ray := scale incident_ray (normaliser normal_length_2) in
  let step (n r : f32) := F32.add n (F32.mul (F32.sub r n) one_on_count_plus_one) in
  let normal :=
    MkVec3f (step (fx normal) (fx incident_ray)) (step (fy normal) (fy incident_ray))
            (step (fz normal) (fz incident_ray)) in
  let normal_length_2 := length2 normal in
  scale normal (normaliser normal_length_2).

(** [updateIncidentNormal]. *)
Definition updateIncidentNormal (packed_normal : Z) (incident_ray : Vec3f)
    (point_count : Z) : Z :=
  let normal := decodeNormal packed_normal in
  let normal := updateIncidentNormalV3 normal incident_ray point_count in
  encodeNormal normal.

(** *** The 16384 channel values, as the proofs read them *)

(** What holds of a stored channel value [q]: it decodes to a number in
    [-1, 1] that is not zero, and quantising that number again gives [q]
    or [q - 1], and not less than 0. *)
Definition channelOk (q : Z) : bool :=
  let v := decodeChannel q in
  let again := quantise (remap v) in
  fnonzero v && Ieee.leb (F32.of_Z (-1)) v && Ieee.leb v F32.one
  && ((again =? q) || (again =? q - 1))
  && (0 <=? again).

(** [channelOk] on the [2 ^ bits] channel values from [base] on, halving the
    range at each level. *)
Fixpoint allChannels (bits : nat) (base : Z) : bool :=
  match bits with
  | O => channelOk base
  | S bits =>
      allChannels bits base && allChannels bits (base + 2 ^ Z.of_nat bits)
  end.

End NormalPack.

(** ** MapFlag.h and OccupancyMapDetail::setDefaultLayout *)

Module MapFlags.

(** [enum class MapFlag : unsigned]; a flag set is an [unsigned]. *)
Definition kNone : Z := 0.
Definition kVoxelMean : Z := Z.shiftl 1 0.
Definition kCompressed : Z := Z.shiftl 1 1.
Definition kTraversal : Z := Z.shiftl 1 2.
Definition kTouchTime : Z := Z.shiftl 1 3.
Definition kIncidentNormal : Z := Z.shiftl 1 4.
Definition kDefault : Z := kCompressed.

(** The operators [|], [&], [^] and [~] of MapFlag.h, on the underlying
    [unsigned]. *)
Definition flag_or (left right : Z) : Z := Z.lor left right.
Definition flag_and (left right : Z) : Z := Z.land left right.
Definition flag_xor (left right : Z) : Z := Z.lxor left right.
Definition flag_not (value : Z) : Z := uint32 (Z.lnot value).

(** Modelled from the spec: a layout owns its layers in insertion order. The
    [add...] functions of DefaultLayer.h are not among the sources; each is
    taken to append its layer to the layout, so a layout is the list of the
    layers added since [layout.clear()]. *)
Inductive Layer :=
| OccupancyLayer | VoxelMeanLayer | TraversalLayer | TouchTimeLayer
| IncidentNormalLayer | ClearanceLayer.

(** One [if ((init_flags & flag) != MapFlag::kNone)] statement of
    [setDefaultLayout]. *)
Definition enableLayer (init_flags flag : Z) (layer : Layer)
    (st : list Layer * Z) : list Layer * Z :=
  let '(layout, flags) := st in
  if negb (flag_and init_flags flag =? kNone)
  then (layout ++ [layer], flag_or flags flag)
  else (layout, flag_and flags (flag_not flag)).

(** [OccupancyMapDetail::setDefaultLayout]: the layout and the flags it
    leaves. *)
Definition setDefaultLayout (flags init_flags : Z) : list Layer * Z :=
  let layout := [] in
  let layout := layout ++ [OccupancyLayer] in
  enableLayer init_flags kIncidentNormal IncidentNormalLayer
    (enableLayer init_flags kTouchTime TouchTimeLayer
       (enableLayer init_flags kTraversal TraversalLayer
          (enableLayer init_flags kVoxelMean VoxelMeanLayer (layout, flags)))).

(** The flag bits that select a layer. *)
Definition layerBits : Z :=
  flag_or kVoxelMean (flag_or kTraversal (flag_or kTouchTime kIncidentNormal)).

End MapFlags.

(** ** RayMapperTrace.cpp: the mesh of occupied voxels *)

Module TraceMesh.

(** The packets [OccupancyMesh::update] sends, by kind and by the vertices
    they carry. The encoding of a packet, and the split of a bulk range into
    packets, belong to the 3es library and are not modelled: each bulk loop is
    one entry with the range [offset, new_vertex_count) it sends. *)
Inductive Packet :=
| MeshRedefine (vertexCount : Z)
| VertexPosition (vertex_index : Z)
| VertexColour (vertex_index : Z)
| BulkPositions (offset new_vertex_count : Z)
| BulkNormals (offset new_vertex_count : Z)
| BulkColours (offset new_vertex_count : Z)
| MeshFinalise.

(** [std::vector::back] and [pop_back] in one: the last element and the
    vector without it, nothing on an empty vector. *)
Fixpoint pop_back {A} (l : list A) : option (list A * A) :=
  match l with
  | [] => None
  | x :: rest =>
      match pop_back rest with
      | None => Some ([], x)
      | Some (init, y) => Some (x :: init, y)
      end
  end.

(** [a[i] = v] on a [std::vector]: undefined out of range, given as [None]. *)
Definition store {A} (a : list A) (i : Z) (v : A) : option (list A) :=
  if bool_decide (0 <= i < Z.of_nat (length a))
  then Some (<[Z.to_nat i := v]> a)
  else None.

(** [&a[i]] read for a packet: undefined out of range. *)
Definition inRange {A} (a : list A) (i : Z) : bool :=
  bool_decide (0 <= i < Z.of_nat (length a)).

(** Keys are compared and hashed by their six coordinates. *)
#[global] Instance ivec3_eq_dec : EqDecision ivec3.
Proof. solve_decision. Defined.

#[global] Instance Key_eq_dec : EqDecision Key.
Proof. solve_decision. Defined.

#[global] Instance ivec3_countable : Countable ivec3 :=
  inj_countable' (fun v => (ix v, iy v, iz v))
    (fun t => IVec3 (fst (fst t)) (snd (fst t)) (snd t))
    (fun v => match v with IVec3 _ _ _ => eq_refl end).

#[global] Instance Key_countable : Countable Key :=
  inj_countable' (fun k => (regionKey k, localKey k))
    (fun t => MkKey (fst t) (snd t))
    (fun k => match k with MkKey _ _ => eq_refl end).

Section Mesh.

(** [ohm::Key] with its hash and equality, and [tes::Vector3d]. *)
Context {K : Type} `{Countable K}.
Variable V : Type.

(** [tes::Vector3d(glm::value_ptr(map->voxelCentreGlobal(key)))],
    [tes::Vector3d(0.5 * map->resolution())], [voxelColour(occupancy_voxel)]
    with the voxel set to a key, and [tes::Colour::Colours[White].c]: the map
    is not written during an update, so each is a function of the key. *)
Variable voxelCentreGlobal : K -> V.
Variable halfExtents : V.
Variable voxelColour : K -> Z.
Variable white : Z.

(** [OccupancyMeshDetail], without the map pointer and the mesh id. *)
Record OccupancyMeshDetail := MeshDetail {
  vertices : list V;
  normals : list V;
  colours : list Z;
  unused_vertex_list : list Z;
  voxel_index_map : gmap K Z }.

(** [std::unordered_map::insert]: an existing entry is kept. *)
Definition map_insert (m : gmap K Z) (key : K) (vertex_index : Z) : gmap K Z :=
  match m !! key with
  | Some _ => m
  | None => <[key := vertex_index]> m
  end.

(** The body of the loop over [newly_free]. *)
Definition freeVoxel (key : K) (st : OccupancyMeshDetail * list Z)
    : option (OccupancyMeshDetail * list Z) :=
  let '(imp, modified_vertices) := st in
  match voxel_index_map imp !! key with
  | Some second =>
      match store (colours imp) second 0 with
      | Some colours' =>
          Some (MeshDetail (vertices imp) (normals imp) colours'
                  (unused_vertex_list imp ++ [second])
                  (delete key (voxel_index_map imp)),
                modified_vertices ++ [second])
      | None => None
      end
  | None => Some st
  end.

Fixpoint freeVoxels (newly_free : list K) (st : OccupancyMeshDetail * list Z)
    : option (OccupancyMeshDetail * list Z) :=
  match newly_free with
  | [] => Some st
  | key :: rest =>
      match freeVoxel key st with
      | Some st' => freeVoxels rest st'
      | None => None
      end
  end.

(** The [while] loop that gives unused vertices to newly occupied voxels. It
    returns the mesh, the modified vertices, what is left of [newly_occupied]
    from [occupied_iter] on, and [processed_occupied_count]. *)
Fixpoint reuseVertices (initial_unused_vertex_count : Z) (occupied : list K)
    (processed_occupied_count : Z) (imp : OccupancyMeshDetail)
    (modified_vertices : list Z)
    : option (OccupancyMeshDetail * list Z * list K * Z) :=
  match occupied with
  | [] => Some (imp, modified_vertices, [], processed_occupied_count)
  | key :: rest =>
      match pop_back (unused_vertex_list imp) with
      | None => Some (imp, modified_vertices, occupied, processed_occupied_count)
      | Some (unused', vertex_index) =>
          let mark_as_modified :=
            Z.of_nat (length (unused_vertex_list imp)) <=? initial_unused_vertex_count in
          match store (vertices imp) vertex_index (voxelCentreGlobal key),
                store (colours imp) vertex_index (voxelColour key) with
          | Some vertices', Some colours' =>
              reuseVertices initial_unused_vertex_count rest
                (processed_occupied_count + 1)
                (MeshDetail vertices' (normals imp) colours' unused'
                   (map_insert (voxel_index_map imp) key vertex_index))
                (if mark_as_modified then modified_vertices ++ [vertex_index]
                 else modified_vertices)
          | _, _ => None
          end
      end
  end.

(** The [for] loop that appends a vertex for each remaining newly occupied
    voxel. *)
Fixpoint addVertices (occupied : list K) (imp : OccupancyMeshDetail)
    : OccupancyMeshDetail :=
  match occupied with
  | [] => imp
  | key :: rest =>
      let vertex_index := uint32 (Z.of_nat (length (vertices imp))) in
      addVertices rest
        (MeshDetail (vertices imp ++ [voxelCentreGlobal key])
           (normals imp ++ [halfExtents])
           (colours imp ++ [white])
           (unused_vertex_list imp)
           (map_insert (voxel_index_map imp) key vertex_index))
  end.

(** The loop over [touched_occupied], with the colour packets it sends. *)
Fixpoint touchVoxels (touched_occupied : list K)
    (st : OccupancyMeshDetail * list Packet)
    : option (OccupancyMeshDetail * list Packet) :=
  match touched_occupied with
  | [] => Some st
  | key :: rest =>
      let '(imp, sent) := st in
      match voxel_index_map imp !! key with
      | Some voxel_index =>
          match store (colours imp) voxel_index (voxelColour key) with
          | Some colours' =>
              touchVoxels rest
                (MeshDetail (vertices imp) (normals imp) colours'
                   (unused_vertex_list imp) (voxel_index_map imp),
                 sent ++ [VertexColour voxel_index])
          | None => None
          end
      | None => touchVoxels rest st
      end
  end.

(** The packets of the loop over [modified_vertices]; reading a vertex out of
    range is undefined. *)
Fixpoint sendModified (imp : OccupancyMeshDetail) (modified_vertices : list Z)
    : option (list Packet) :=
  match modified_vertices with
  | [] => Some []
  | vertex_index :: rest =>
      if inRange (vertices imp) vertex_index && inRange (colours imp) vertex_index
      then match sendModified imp rest with
           | Some sent => Some (VertexPosition vertex_index :: VertexColour vertex_index :: sent)
           | None => None
           end
      else None
  end.

(** [OccupancyMesh::update] past its two early returns, from the removal of
    the freed voxels on: the mesh it leaves and the packets it sends, or
    [None] when it reads or writes a vector out of range. *)
Definition updateConnected (newly_occupied newly_free touched_occupied : list K)
    (imp : OccupancyMeshDetail) : option (OccupancyMeshDetail * list Packet) :=
  let initial_unused_vertex_count := Z.of_nat (length (unused_vertex_list imp)) in
  match freeVoxels newly_free (imp, []) with
  | None => None
  | Some (imp, modified_vertices) =>
  match reuseVertices initial_unused_vertex_count newly_occupied 0 imp
          modified_vertices with
  | None => None
  | Some (imp, modified_vertices, occupied_iter, processed_occupied_count) =>
  let old_vertex_count := Z.of_nat (length (vertices imp)) in
  let size := Z.of_nat (length newly_occupied) in
  let unused := Z.of_nat (length (unused_vertex_list imp)) in
  let new_vertex_count :=
    if size - processed_occupied_count >? unused
    then old_vertex_count + (size - processed_occupied_count - unused)
    else old_vertex_count in
  match sendModified imp modified_vertices with
  | None => None
  | Some sent =>
  let imp := addVertices occupied_iter imp in
  let bulk :=
    if negb (old_vertex_count =? new_vertex_count)
    then [BulkPositions (uint32 old_vertex_count) new_vertex_count;
          BulkNormals (uint32 old_vertex_count) new_vertex_count;
          BulkColours (uint32 old_vertex_count) new_vertex_count]
    else [] in
  match touchVoxels touched_occupied (imp, []) with
  | None => None
  | Some (imp, touched) =>
      Some (imp,
            [MeshRedefine (uint32 new_vertex_count)]
              ++ sent ++ bulk ++ touched ++ [MeshFinalise])
  end end end end.

(** [OccupancyMesh::update], with the key sets as the lists their iteration
    gives and the connection count of the server: nothing changes when the
    three sets are empty, and the mesh is cleared when no client is
    connected. *)
Definition update (connectionCount : Z)
    (newly_occupied newly_free touched_occupied : list K)
    (imp : OccupancyMeshDetail) : option (OccupancyMeshDetail * list Packet) :=
  match newly_occupied, newly_free, touched_occupied with
  | [], [], [] => Some (imp, [])
  | _, _, _ =>
      if connectionCount =? 0 then Some (MeshDetail [] [] [] [] ∅, [])
      else updateConnected newly_occupied newly_free touched_occupied imp
  end.

(** The vertex indices of the mesh are consistent: the three vertex arrays
    have one length; every index of the key map and of the unused list is a
    vertex; no vertex is held twice, by two keys, twice in the unused list, or
    by a key and the unused list; every vertex is held; and unused vertices
    have colour 0. *)
Definition meshInv (imp : OccupancyMeshDetail) : Prop :=
  let n := Z.of_nat (length (vertices imp)) in
  length (normals imp) = length (vertices imp)
  /\ length (colours imp) = length (vertices imp)
  /\ (forall key i, voxel_index_map imp !! key = Some i -> 0 <= i < n)
  /\ (forall k1 k2 i, voxel_index_map imp !! k1 = Some i ->
        voxel_index_map imp !! k2 = Some i -> k1 = k2)
  /\ Forall (fun i => 0 <= i < n) (unused_vertex_list imp)
  /\ NoDup (unused_vertex_list imp)
  /\ (forall key i, voxel_index_map imp !! key = Some i ->
        i ∉ unused_vertex_list imp)
  /\ (forall i, 0 <= i < n ->
        i ∈ unused_vertex_list imp \/ exists key, voxel_index_map imp !! key = Some i)
  /\ (forall i, i ∈ unused_vertex_list imp -> colours imp !! Z.to_nat i = Some 0).

End Mesh.

Arguments vertices {K _ _ V} _.
Arguments normals {K _ _ V} _.
Arguments colours {K _ _ V} _.
Arguments unused_vertex_list {K _ _ V} _.
Arguments voxel_index_map {K _ _ V} _.

(** The indices of the vertices a packet list sends a position for, one at
    a time. *)
Definition positionsSent (sent : list Packet) : list Z :=
  omap (fun p => match p with VertexPosition i => Some i | _ => None end) sent.

Definition coloursSent (sent : list Packet) : list Z :=
  omap (fun p => match p with VertexColour i => Some i | _ => None end) sent.

End TraceMesh.

Module TraceMeshExamples.

Import TraceMesh.

(** A mesh of three vertices in one column: the voxels at heights 0 and 2
    are occupied, the vertex between them is unused. Vertices are given as
    the local coordinates of their voxel. *)
Definition meshKey (z : Z) : Key := MkKey (IVec3 0 0 0) (IVec3 0 0 z).

Definition column_mesh : @OccupancyMeshDetail Key _ _ ivec3 :=
  MeshDetail (K:=Key) ivec3
    [IVec3 0 0 0; IVec3 0 0 1; IVec3 0 0 2]
    [IVec3 0 0 0; IVec3 0 0 0; IVec3 0 0 0]
    [255; 0; 255]
    [1]
    (<[meshKey 0 := 0]> (<[meshKey 2 := 2]> ∅)).

Definition column_update (connectionCount : Z)
    (newly_occupied newly_free touched_occupied : list Key) :=
  update ivec3 localKey (IVec3 0 0 0) (fun _ => 128) 16777215 connectionCount
    newly_occupied newly_free touched_occupied column_mesh.

End TraceMeshExamples.

(** ** Concrete inputs

    The voxels, rays, keys, columns and streams the kernels are evaluated
    on. *)

Module NdtExamples.

Import Ndt.

Definition v3 (a b c : Z) : vec3 := Vec3 (F64.of_Z a) (F64.of_Z b) (F64.of_Z c).

(** The unobserved sentinel of the examples: positive infinity. *)
Definition unobserved : f32 := Ieee.pinf.

(** A never-touched covariance voxel (all zero). *)
Definition cov_zero : CovarianceVoxel := scaledIdentity F32.zero.
(** The unit square-root covariance. *)
Definition cov_unit : CovarianceVoxel := scaledIdentity F32.one.
(** Twice the unit square-root covariance. *)
Definition cov_two : CovarianceVoxel := scaledIdentity (F32.of_Z 2).

(** A ray along +x from (-2,0,0) whose sample is the origin. *)
Definition sensor0 : vec3 := v3 (-2) 0 0.
Definition sample0 : vec3 := v3 0 0 0.
(** A sample further along the same ray. *)
Definition sample2 : vec3 := v3 2 0 0.
Definition mean_origin : vec3 := v3 0 0 0.
Definition mean_y1 : vec3 := v3 0 1 0.

(** -0.5, the miss adjustment of the examples. *)
Definition miss_half : f32 := F32.of_dyadic (-1) (-1).
(** 2^-100: positive, and its square underflows binary32. *)
Definition tiny_noise : f32 := F32.of_dyadic 1 (-100).

End NdtExamples.

Module KeyExamples.

Definition dims8 : ivec3 := IVec3 8 8 8.
Definition key0 : Key := MkKey (IVec3 0 0 0) (IVec3 0 0 0).
Definition key_235 : Key := MkKey (IVec3 0 (-1) 7) (IVec3 2 3 5).

End KeyExamples.

(** Single columns of eight voxels along z (regions of 1 x 1 x 8 voxels). *)
Module HmExamples.

Import Hm.

Definition dims118 : ivec3 := IVec3 1 1 8.
Definition zkey (z : Z) : Key := MkKey (IVec3 0 0 0) (IVec3 0 0 z).

Definition u : f32 := unobservedOccupancyValue.
Definition free : f32 := F32.of_Z (-1).
Definition occ : f32 := F32.of_Z 1.

(** z = 0, 1 unobserved; z = 2 .. 5 free; z = 6 occupied; z = 7 unobserved. *)
Definition column_map : OccupancyMap :=
  {| region_voxel_dimensions := dims118;
     occupancy_threshold_value := F32.zero;
     chunks := {[ (0, 0, 0) := [u; u; free; free; free; free; occ; u] ]} |}.

(** z = 1 occupied, z = 2 free, z = 3 occupied, z = 6 occupied. *)
Definition ground_map : OccupancyMap :=
  {| region_voxel_dimensions := dims118;
     occupancy_threshold_value := F32.zero;
     chunks := {[ (0, 0, 0) := [u; occ; free; occ; u; u; occ; u] ]} |}.

(** z = 1 free above the unobserved z = 0, nothing else observed. *)
Definition virtual_map : OccupancyMap :=
  {| region_voxel_dimensions := dims118;
     occupancy_threshold_value := F32.zero;
     chunks := {[ (0, 0, 0) := [u; free; u; u; u; u; u; u] ]} |}.

(** Heights of a map of unit resolution: the voxel centre [z + 0.5]. *)
Definition zheight (key : Key) : f64 :=
  F64.add (F64.of_Z (iz (localKey key))) F64.half.

Definition imp_z (clearance : Z) (virtual_surface promote : bool) : HeightmapDetail :=
  {| up_axis_id := 2; vertical_axis_index := 2;
     min_clearance := F64.of_Z clearance;
     generate_virtual_surface := virtual_surface;
     promote_virtual_below := promote |}.

(** A heightmap of 1 x 1 x 1 regions. *)
Definition empty_heightmap : OccupancyMap :=
  {| region_voxel_dimensions := IVec3 1 1 1;
     occupancy_threshold_value := F32.zero;
     chunks := ∅ |}.

End HmExamples.

Module SerialiseExamples.

Import SerialiseV0.

(** A region of 1 x 1 x 2 voxels: a 44-byte header of zeros and four floats
    whose first bytes are 1, 2, 3 and 4. *)
Definition dims112 : ivec3 := IVec3 1 1 2.
Definition float_bytes (b : byte) : list byte := [b; Byte.x00; Byte.x00; Byte.x00].
Definition stream2 : list byte :=
  replicate 44 Byte.x00
    ++ float_bytes Byte.x01 ++ float_bytes Byte.x02
    ++ float_bytes Byte.x03 ++ float_bytes Byte.x04.
Definition chunk2 : MapChunk :=
  {| region_coord := IVec3 0 0 0; region_centre := IVec3 0 0 0; touched_time := 0;
     occupancy := [0; 0]; clearance := [0; 0]; coarse_clearance := None |}.

End SerialiseExamples.

(** ** VoxelBuffer.cpp: buffers that retain a voxel block *)

Module VoxelBuf.

Section Buffers.

(** [ohm::VoxelBlock *], without the null pointer. *)
Context {B : Type} `{EqDecision B}.

(** [VoxelBlock::uncompressedByteSize()] and [VoxelBlock::voxelBytes()] (the
    address of the bytes), and the defaults VoxelBuffer.h gives the members
    [voxel_memory_] and [voxel_memory_size_]; the header and VoxelBlock are
    not among the sources. *)
Variable uncompressedByteSize : B -> Z.
Variable voxelBytes : B -> Z.
Variable default_memory : Z.
Variable default_size : Z.

(** The members of a [VoxelBuffer]; a null [voxel_block_] is [None], a null
    [voxel_memory_] is 0. *)
Record VoxelBuffer := Buffer {
  voxel_memory_ : Z;
  voxel_memory_size_ : Z;
  voxel_block_ : option B }.

(** The buffer objects alive, by address, and for every block the number of
    [retain()] calls not yet matched by a [release()].
    Modelled from the spec: retain and release are reference counting, so
    [VoxelBlock::retain] adds one to the count of its block and
    [VoxelBlock::release] takes one away. *)
Record Heap := MkHeap {
  objects : gmap nat VoxelBuffer;
  retained : B -> Z }.

Definition retain (block : B) (h : Heap) : Heap :=
  MkHeap (objects h)
    (fun b => if decide (b = block) then retained h b + 1 else retained h b).

Definition releaseBlock (block : B) (h : Heap) : Heap :=
  MkHeap (objects h)
    (fun b => if decide (b = block) then retained h b - 1 else retained h b).

Definition setObject (self : nat) (buffer : VoxelBuffer) (h : Heap) : Heap :=
  MkHeap (<[self := buffer]> (objects h)) (retained h).

(** [VoxelBuffer::release]. *)
Definition release (self : nat) (h : Heap) : option Heap :=
  match objects h !! self with
  | None => None
  | Some this =>
      match voxel_block_ this with
      | Some block => Some (setObject self (Buffer 0 0 None) (releaseBlock block h))
      | None => Some h
      end
  end.

(** [VoxelBuffer(ohm::VoxelBlock *block)], constructing at a free address. *)
Definition construct (self : nat) (block : option B) (h : Heap) : option Heap :=
  match objects h !! self with
  | Some _ => None
  | None =>
      match block with
      | Some b =>
          Some (setObject self (Buffer (voxelBytes b) (uncompressedByteSize b) (Some b))
                  (retain b h))
      | None => Some (setObject self (Buffer default_memory default_size None) h)
      end
  end.

(** [VoxelBuffer(VoxelBuffer &&other)]: each member is exchanged with null. *)
Definition moveConstruct (self other : nat) (h : Heap) : option Heap :=
  match objects h !! self, objects h !! other with
  | None, Some that =>
      Some (setObject self
              (Buffer (voxel_memory_ that) (voxel_memory_size_ that) (voxel_block_ that))
              (setObject other (Buffer 0 0 None) h))
  | _, _ => None
  end.

(** [VoxelBuffer(const VoxelBuffer &other)]. *)
Definition copyConstruct (self other : nat) (h : Heap) : option Heap :=
  match objects h !! self, objects h !! other with
  | None, Some that =>
      let h := setObject self
                 (Buffer (voxel_memory_ that) (voxel_memory_size_ that) (voxel_block_ that))
                 h in
      match voxel_block_ that with
      | Some b => Some (retain b h)
      | None => Some h
      end
  | _, _ => None
  end.

(** [~VoxelBuffer()]: release, and the object is gone. *)
Definition destroy (self : nat) (h : Heap) : option Heap :=
  match release self h with
  | Some h => Some (MkHeap (delete self (objects h)) (retained h))
  | None => None
  end.

(** [operator=(VoxelBuffer &&other)]: the three members are swapped. *)
Definition moveAssign (self other : nat) (h : Heap) : option Heap :=
  match objects h !! self, objects h !! other with
  | Some this, Some that =>
      Some (setObject other
              (Buffer (voxel_memory_ this) (voxel_memory_size_ this) (voxel_block_ this))
              (setObject self
                 (Buffer (voxel_memory_ that) (voxel_memory_size_ that) (voxel_block_ that))
                 h))
  | _, _ => None
  end.

(** [operator=(const VoxelBuffer &other)]. *)
Definition copyAssign (self other : nat) (h : Heap) : option Heap :=
  match objects h !! self, objects h !! other with
  | Some _, Some that =>
      if bool_decide (self <> other) then
        match release self h with
        | None => None
        | Some h =>
            match objects h !! self with
            | None => None
            | Some this =>
                match voxel_block_ that with
                | Some b =>
                    Some (setObject self
                            (Buffer (voxelBytes b) (uncompressedByteSize b) (Some b))
                            (retain b h))
                | None =>
                    Some (setObject self
                            (Buffer (voxel_memory_ this) (voxel_memory_size_ this) None)
                            h)
                end
            end
        end
      else Some h
  | _, _ => None
  end.

(** What a program does with its buffers, one call at a time. A call on an
    object that is not alive, or a construction at an address in use, has no
    meaning and gives [None]. *)
Inductive Call :=
| Construct (self : nat) (block : option B)
| MoveConstruct (self other : nat)
| CopyConstruct (self other : nat)
| Destroy (self : nat)
| MoveAssign (self other : nat)
| CopyAssign (self other : nat)
| Release (self : nat).

Definition call (c : Call) (h : Heap) : option Heap :=
  match c with
  | Construct self block => construct self block h
  | MoveConstruct self other => moveConstruct self other h
  | CopyConstruct self other => copyConstruct self other h
  | Destroy self => destroy self h
  | MoveAssign self other => moveAssign self other h
  | CopyAssign self other => copyAssign self other h
  | Release self => release self h
  end.

Fixpoint calls (cs : list Call) (h : Heap) : option Heap :=
  match cs with
  | [] => Some h
  | c :: rest =>
      match call c h with
      | Some h => calls rest h
      | None => None
      end
  end.

(** The number of buffers alive that hold a block. *)
Definition holders (block : B) (objs : gmap nat VoxelBuffer) : nat :=
  size (filter (fun entry => voxel_block_ (snd entry) = Some block) objs).

(** What a buffer adds to the holders of a block. *)
Definition weight (block : B) (buffer : VoxelBuffer) : nat :=
  if decide (voxel_block_ buffer = Some block) then 1%nat else 0%nat.

(** Every block is retained once for each buffer holding it, on top of what
    others retain ([base]). *)
Definition balanced (base : B -> Z) (h : Heap) : Prop :=
  forall block, retained h block = base block + Z.of_nat (holders block (objects h)).

End Buffers.

End VoxelBuf.

Module VoxelBufExamples.

Import VoxelBuf.

(** Two blocks, 7 and 8, and three buffer objects: constructed, copied,
    moved, assigned both ways, released and destroyed. *)
Definition no_buffers : @Heap nat := MkHeap ∅ (fun _ => 0).

Definition buffer_calls : list (@Call nat) :=
  [Construct 1 (Some 7%nat); CopyConstruct 2 1; Construct 3 (Some 8%nat);
   CopyAssign 3 1; MoveConstruct 4 2; MoveAssign 1 4; Release 2;
   Destroy 1; Destroy 3; Destroy 4; Destroy 2].

Definition run_buffer_calls (cs : list (@Call nat)) : option (@Heap nat) :=
  calls (fun _ => 4096) (fun block => 65536 * Z.of_nat block) 0 0 cs no_buffers.

End VoxelBufExamples.

(** ** RayMapperTrace.cpp: the sectors of a region *)

Module TraceSectors.

Import KeyMath.

(** [glm::i16vec4]: a region key and the sector index in [w]. *)
Record i16vec4 := I16Vec4 { sector_region : ivec3; sector_w : Z }.

(** [!!c] for a condition [c]. *)
Definition flag (c : bool) : Z := if c then 1 else 0.

(** [RayMapperTrace::sectorKey]: each local coordinate becomes 0 or 1, by
    the half of the region it lies in, and the three are linearised into
    [w]. [/] is the division of [int]. *)
Definition sectorKey (key : Key) (regionVoxelDimensions : ivec3) : i16vec4 :=
  let local := localKey key in
  let local :=
    vset local 0 (flag (Z.quot (vget regionVoxelDimensions 0) 2 <=? vget local 0)) in
  let local :=
    vset local 1 (flag (Z.quot (vget regionVoxelDimensions 1) 2 <=? vget local 1)) in
  let local :=
    vset local 2 (flag (Z.quot (vget regionVoxelDimensions 2) 2 <=? vget local 2)) in
  I16Vec4 (regionKey key) (int16 (ix local + iy local * 2 + iz local * 4)).

(** The sector indexing range of [drawNdt] and [drawNdtTm] on one axis:
    [start_index[i]] and [end_index[i]]. *)
Definition sectorRange (sector_key : i16vec4) (dim : ivec3) (i : nat) : Z * Z :=
  let start_index :=
    flag (negb (Z.land (sector_w sector_key) (Z.shiftl 1 (Z.of_nat i)) =? 0)) in
  let end_index :=
    if negb (start_index =? 0) then vget dim i else Z.quot (vget dim i) 2 in
  let start_index :=
    if negb (start_index =? 0) then Z.quot (vget dim i) 2 else 0 in
  (start_index, end_index).

(** The values a loop [for (int v = first; v < last; ++v)] takes. *)
Definition loop (first last : Z) : list Z :=
  map (fun n => first + Z.of_nat n) (seq 0 (Z.to_nat (last - first))).

(** The keys the three nested loops of [drawNdt] and [drawNdtTm] set the
    voxels to, in the order z, y, x. *)
Definition sectorVoxels (sector_key : i16vec4) (dim : ivec3) : list Key :=
  let region_key := sector_region sector_key in
  let '(start_x, end_x) := sectorRange sector_key dim 0 in
  let '(start_y, end_y) := sectorRange sector_key dim 1 in
  let '(start_z, end_z) := sectorRange sector_key dim 2 in
  flat_map (fun z =>
    flat_map (fun y =>
      map (fun x => makeKey region_key x y z) (loop start_x end_x))
      (loop start_y end_y))
    (loop start_z end_z).

(** The local coordinates of a key lie in the region, and the region
    dimensions in [uint8_t]. *)
Definition localIn (key : Key) (dim : ivec3) : Prop :=
  0 <= ix (localKey key) < ix dim
  /\ 0 <= iy (localKey key) < iy dim
  /\ 0 <= iz (localKey key) < iz dim.

Definition dimU8 (dim : ivec3) : Prop :=
  0 <= ix dim <= 255 /\ 0 <= iy dim <= 255 /\ 0 <= iz dim <= 255.

End TraceSectors.

(** * Properties *)

(** ** IEEE comparison facts *)

Lemma ieee_eqb_refl (x : spec_float) : Ieee.eqb x x = negb (Ieee.is_nan x).
Proof.
  destruct x as [s|s| |s m e]; simpl; try reflexivity.
  - destruct s; reflexivity.
  - unfold Ieee.eqb, SFeqb, SFcompare.
    destruct s; rewrite Z.compare_refl, Pos.compare_cont_refl; reflexivity.
Qed.

Lemma ieee_mul_zero_r (y : f64) (s : bool) :
  (exists s', F64.mul y (S754_zero s) = S754_zero s')
  \/ F64.mul y (S754_zero s) = S754_nan.
Proof.
  destruct y as [s0|s0| |s0 m e]; simpl; eauto.
Qed.

(** ** NDT kernel *)

Module NdtFacts.

Import Ndt NdtExamples.

Lemma initialiseCovariance_eq cov sensor_noise :
  initialiseCovariance cov sensor_noise
  = scaledIdentity (F32.mul sensor_noise sensor_noise).
Proof. destruct cov; reflexivity. Qed.

Lemma reinitialise_true_iff v un thr n cnt :
  reinitialise v un thr n cnt = true <->
  (Ieee.eqb v un = true \/ n = 0 \/ (Ieee.ltb v thr = true /\ cnt <= n)).
Proof.
  unfold reinitialise.
  rewrite !orb_true_iff, andb_true_iff, Z.eqb_eq, Z.leb_le. tauto.
Qed.

(** C1, amended: in [calculateHitWithCovariance] the packed covariance is
    reset exactly when a trigger holds (the occupancy value equals the
    unobserved sentinel, or the sample count is zero, or the value is below
    [reinitialise_threshold] while the count is at least
    [reinitialise_sample_count]); the reset value is the scaled identity
    whose diagonal is [sensor_noise * sensor_noise], the occupancy value
    becomes [hit_value], and the flag returned is true.  In every other case
    the previous covariance enters the Gram-Schmidt update, the value is
    incremented by [hit_value] and the flag is false. *)
Theorem hit_reset_exactly_on_trigger
    cov v sample mean n hit un noise thr cnt :
  let trigger :=
    Ieee.eqb v un = true \/ n = 0 \/ (Ieee.ltb v thr = true /\ cnt <= n) in
  let result := calculateHitWithCovariance cov v sample mean n hit un noise thr cnt in
  (snd result = true <-> trigger) /\
  (trigger ->
     hitInitialise cov v n hit un noise thr cnt
       = (scaledIdentity (F32.mul noise noise), hit, true) /\
     result = (updateCovariance (scaledIdentity (F32.mul noise noise)) n
                 (glm.vsub sample mean), hit, true)) /\
  (~ trigger ->
     hitInitialise cov v n hit un noise thr cnt = (cov, F32.add v hit, false) /\
     result = (updateCovariance cov n (glm.vsub sample mean),
               F32.add v hit, false)).
Proof.
  intros trigger result. subst result.
  unfold calculateHitWithCovariance, hitInitialise.
  pose proof (reinitialise_true_iff v un thr n cnt) as Hiff. fold trigger in Hiff.
  destruct (reinitialise v un thr n cnt) eqn:Hr; simpl.
  - assert (trigger) as Ht by (apply Hiff; reflexivity).
    rewrite initialiseCovariance_eq.
    split; [tauto|]. split; [auto | intros Hn; contradiction].
  - assert (~ trigger) as Ht by (intros Ht; apply Hiff in Ht; discriminate).
    split; [split; [discriminate | intros; contradiction]|].
    split; [intros; contradiction | auto].
Qed.

(** C1 as stated fails on the reset value: with [sensor_noise = 2] and a zero
    sample count the reset fires and the covariance is [4 * I], both before
    and after the Gram-Schmidt update, not [2 * I]. *)
Lemma hit_reset_value_counterexample :
  hitInitialise cov_zero unobserved 0 F32.one unobserved (F32.of_Z 2) F32.zero 4
    = (scaledIdentity (F32.of_Z 4), F32.one, true)
  /\ calculateHitWithCovariance cov_zero unobserved sample0 mean_origin 0
       F32.one unobserved (F32.of_Z 2) F32.zero 4
    = (scaledIdentity (F32.of_Z 4), F32.one, true)
  /\ scaledIdentity (F32.of_Z 4) <> scaledIdentity (F32.of_Z 2).
Proof.
  split; [vm_compute; reflexivity|].
  split; [vm_compute; reflexivity|].
  vm_compute. discriminate.
Qed.

(** *** calculateMissNdt: branch structure *)

Section MissBranches.
Variable L : Libm.
Variables (cov : CovarianceVoxel) (v : f32) (sensor sample mean : vec3).
Variables (n : Z) (un miss noise : f32) (thr : Z).

Lemma miss_unobserved :
  Ieee.eqb v un = true ->
  calculateMissNdt L cov v sensor sample mean n un miss noise thr = (miss, mean).
Proof. intros H. unfold calculateMissNdt. rewrite H. reflexivity. Qed.

Lemma miss_few_samples :
  Ieee.eqb v un = false -> n < thr ->
  calculateMissNdt L cov v sensor sample mean n un miss noise thr
  = (F32.add v miss, mean).
Proof.
  intros H Hn. unfold calculateMissNdt. rewrite H.
  apply Z.ltb_lt in Hn. rewrite Hn. reflexivity.
Qed.

Lemma miss_covariance_branch :
  Ieee.eqb v un = false -> thr <= n ->
  calculateMissNdt L cov v sensor sample mean n un miss noise thr
  = (let pu := probability_update L cov sensor sample mean miss noise in
     if Ieee.is_nan pu then v
     else F32.add v (F32.of_f64 (c_log L (F64.div pu (F64.sub F64.one pu)))),
     voxel_maximum_likelyhood cov sensor sample mean).
Proof.
  intros H Hn. unfold calculateMissNdt. rewrite H.
  apply Z.ltb_ge in Hn. rewrite Hn. cbv zeta.
  rewrite ieee_eqb_refl.
  destruct (Ieee.is_nan _); reflexivity.
Qed.

End MissBranches.

(** C2, amended: in [calculateMissNdt], when the voxel is not unobserved and
    the sample count is below [sample_threshold], the standard miss rule is
    applied ([miss_value] is added to the voxel value).  The function never
    looks at the occupancy threshold: for a sample count of at least
    [sample_threshold] every observed voxel, free or occupied, takes the
    covariance branch (the NDT adjustment when the probability is a number,
    no change when it is NaN). *)
Theorem miss_standard_rule_iff_few_samples
    (L : Libm) cov v sensor sample mean n un miss noise thr :
  Ieee.eqb v un = false ->
  (n < thr ->
     calculateMissNdt L cov v sensor sample mean n un miss noise thr
     = (F32.add v miss, mean)) /\
  (thr <= n ->
     calculateMissNdt L cov v sensor sample mean n un miss noise thr
     = (let pu := probability_update L cov sensor sample mean miss noise in
        if Ieee.is_nan pu then v
        else F32.add v (F32.of_f64 (c_log L (F64.div pu (F64.sub F64.one pu)))),
        voxel_maximum_likelyhood cov sensor sample mean)).
Proof.
  intros H. split; intros Hn.
  - apply miss_few_samples; assumption.
  - apply miss_covariance_branch; assumption.
Qed.

(** The theorem applies to an observed voxel of value -1 with two samples
    against a threshold of four. *)
Lemma miss_standard_rule_witness :
  calculateMissNdt libm_special cov_unit (F32.of_Z (-1)) sensor0 sample0 mean_y1
    2 unobserved miss_half F32.one 4
  = (F32.add (F32.of_Z (-1)) miss_half, mean_y1).
Proof.
  apply (miss_standard_rule_iff_few_samples libm_special cov_unit (F32.of_Z (-1))
           sensor0 sample0 mean_y1 2 unobserved miss_half F32.one 4).
  - reflexivity.
  - lia.
Defined.

(** *** A ray whose maximum-likelihood point is its own sample *)

Lemma ml_sample0 :
  voxel_maximum_likelyhood cov_unit sensor0 sample0 mean_y1 = v3 0 0 0.
Proof. vm_compute. reflexivity. Qed.

Lemma pu_sample0 (L : Libm) :
  let pu := probability_update L cov_unit sensor0 sample0 mean_y1 miss_half F32.one in
  pu = F64.half \/ pu = S754_nan.
Proof.
  cbv zeta. unfold probability_update. rewrite ml_sample0. cbv zeta.
  unfold p_x_ml_given_sample.
  replace (F64.div _ _) with (S754_zero true) by (vm_compute; reflexivity).
  rewrite exp_zero.
  replace (F64.sub F64.one F64.one) with (S754_zero false) by (vm_compute; reflexivity).
  destruct (ieee_mul_zero_r
              (F64.mul (scaling_factor L miss_half)
                 (p_x_ml_given_voxel L cov_unit (v3 0 0 0) mean_y1)) false)
    as [[s' ->] | ->].
  - left. destruct s'; vm_compute; reflexivity.
  - right. reflexivity.
Qed.

Lemma miss_sample0_unchanged (L : Libm) :
  fst (calculateMissNdt L cov_unit (F32.of_Z (-1)) sensor0 sample0 mean_y1
         10 unobserved miss_half F32.one 4) = F32.of_Z (-1).
Proof.
  rewrite miss_covariance_branch by (reflexivity || lia).
  cbv zeta. simpl fst.
  destruct (pu_sample0 L) as [-> | ->].
  - change (Ieee.is_nan F64.half) with false. cbv iota.
    replace (F64.div F64.half (F64.sub F64.one F64.half)) with F64.one
      by (vm_compute; reflexivity).
    rewrite log_one. vm_compute. reflexivity.
  - reflexivity.
Qed.

(** C2 as stated fails on a free voxel with enough samples.  The voxel holds
    -1 (below an occupancy threshold of 0, and not the unobserved sentinel)
    and ten samples against a threshold of four; the ray from (-2,0,0) to the
    sample (0,0,0) has its maximum-likelihood point on the sample.  Whatever
    the math library, the covariance branch leaves the value at -1, while
    the standard rule would give -1.5. *)
Lemma miss_free_voxel_counterexample :
  Ieee.ltb (F32.of_Z (-1)) F32.zero = true /\
  Ieee.eqb (F32.of_Z (-1)) unobserved = false /\
  (forall L : Libm,
     fst (calculateMissNdt L cov_unit (F32.of_Z (-1)) sensor0 sample0 mean_y1
            10 unobserved miss_half F32.one 4) = F32.of_Z (-1)) /\
  F32.add (F32.of_Z (-1)) miss_half <> F32.of_Z (-1).
Proof.
  split; [reflexivity|]. split; [reflexivity|].
  split; [exact miss_sample0_unchanged|].
  vm_compute. discriminate.
Qed.

(** *** The covariance branch against the specification's formula *)

Lemma probability_update_is_delta_p
    (L : Libm) cov sensor sample mean miss noise :
  probability_update L cov sensor sample mean miss noise
  = NdtSpec.delta_p L cov sensor sample mean miss noise.
Proof. reflexivity. Qed.

(** C3, amended: for every NDT miss update that reaches the covariance branch
    (voxel not unobserved, sample count at least [sample_threshold]) and
    whose probability dp is not NaN, the new occupancy value is the old one
    plus [(float) log(dp / (1 - dp))], where dp = 0.5 - scale p1 (1 - p2),
    scale = 1 - 1/(1 + exp(miss_value)),
    p1 = exp(-0.5 |C^-1 (x_ML - mu)|^2) with C^-1 applied by triangular
    solves on the stored square-root covariance,
    x_ML = sensor + t l, t = -(a.b)/(a.a), a = C^-1 l,
    b = C^-1 (sensor - mu), and p2 = exp(-0.5 |x_ML - z|^2 / sigma^2). *)
Theorem miss_increment_is_log_odds
    (L : Libm) cov v sensor sample mean n un miss noise thr :
  Ieee.eqb v un = false ->
  thr <= n ->
  Ieee.is_nan (NdtSpec.delta_p L cov sensor sample mean miss noise) = false ->
  calculateMissNdt L cov v sensor sample mean n un miss noise thr
  = (F32.add v (F32.of_f64 (NdtSpec.log_odds L cov sensor sample mean miss noise)),
     NdtSpec.x_ML cov sensor sample mean).
Proof.
  intros Hv Hn Hnan.
  rewrite miss_covariance_branch by assumption.
  cbv zeta. rewrite probability_update_is_delta_p, Hnan. reflexivity.
Qed.

(** The theorem applies to the ray of [ml_sample0], evaluated with
    [libm_special]. *)
Lemma miss_increment_witness :
  calculateMissNdt libm_special cov_unit (F32.of_Z (-1)) sensor0 sample0 mean_y1
    10 unobserved miss_half F32.one 4
  = (F32.add (F32.of_Z (-1))
       (F32.of_f64 (NdtSpec.log_odds libm_special cov_unit sensor0 sample0 mean_y1
                      miss_half F32.one)),
     NdtSpec.x_ML cov_unit sensor0 sample0 mean_y1).
Proof.
  apply (miss_increment_is_log_odds libm_special cov_unit (F32.of_Z (-1))
           sensor0 sample0 mean_y1 10 unobserved miss_half F32.one 4).
  - reflexivity.
  - lia.
  - vm_compute. reflexivity.
Defined.

(** *** A singular covariance: the probability is NaN *)

Lemma pu_singular (L : Libm) :
  probability_update L cov_zero sensor0 sample0 mean_origin miss_half F32.one
  = S754_nan.
Proof.
  unfold probability_update. cbv zeta. unfold p_x_ml_given_voxel.
  replace (F64.mul (F64.of_dyadic (-1) (-1)) _) with S754_nan
    by (vm_compute; reflexivity).
  rewrite exp_nan.
  destruct (scaling_factor L miss_half); reflexivity.
Qed.

Lemma miss_singular_unchanged (L : Libm) :
  fst (calculateMissNdt L cov_zero (F32.of_Z (-1)) sensor0 sample0 mean_origin
         10 unobserved miss_half F32.one 4) = F32.of_Z (-1).
Proof.
  rewrite miss_covariance_branch by (reflexivity || lia).
  cbv zeta. rewrite pu_singular. reflexivity.
Qed.

Lemma log_odds_singular (L : Libm) :
  NdtSpec.log_odds L cov_zero sensor0 sample0 mean_origin miss_half F32.one
  = S754_nan.
Proof.
  unfold NdtSpec.log_odds.
  rewrite <- probability_update_is_delta_p, pu_singular.
  change (F64.div S754_nan (F64.sub F64.one S754_nan)) with S754_nan.
  apply log_nan.
Qed.

(** C3 as stated fails when dp is NaN.  A voxel whose stored covariance is
    zero (never initialised) with ten samples reaches the covariance branch;
    the triangular solve divides by zero, dp is NaN, and the value stays at
    -1, whereas adding [log(dp / (1 - dp))] would give NaN.  This holds for
    every math library.  The claim also leaves [b] open: with the
    specification's [b = sensor - mu] and the square-root covariance [2 I],
    [x_ML] would be (2,0,0), where the code, which takes [b] through the
    triangular solve, returns (0,0,0). *)
Lemma miss_increment_counterexample :
  Ieee.eqb (F32.of_Z (-1)) unobserved = false /\ 4 <= 10 /\
  (forall L : Libm,
     fst (calculateMissNdt L cov_zero (F32.of_Z (-1)) sensor0 sample0 mean_origin
            10 unobserved miss_half F32.one 4) = F32.of_Z (-1)) /\
  (forall L : Libm,
     F32.add (F32.of_Z (-1))
       (F32.of_f64 (NdtSpec.log_odds L cov_zero sensor0 sample0 mean_origin
                      miss_half F32.one)) = S754_nan) /\
  F32.of_Z (-1) <> S754_nan /\
  voxel_maximum_likelyhood cov_two sensor0 sample0 mean_y1 = v3 0 0 0 /\
  NdtSpec.x_ML_of cov_two sensor0 sample0 (NdtSpec.b_spec sensor0 mean_y1) = v3 2 0 0.
Proof.
  split; [reflexivity|]. split; [lia|].
  split; [exact miss_singular_unchanged|].
  split; [intros L; rewrite log_odds_singular; reflexivity|].
  split; [vm_compute; discriminate|].
  split; vm_compute; reflexivity.
Qed.

(** C4, amended: for every NDT miss update that reaches the covariance branch
    and whose computed probability dp is NaN, the voxel occupancy value is
    left unchanged.  (The guard tests dp only: a dp that is a number is
    always applied, also when [log(dp / (1 - dp))] is not finite.) *)
Theorem miss_nan_probability_discarded
    (L : Libm) cov v sensor sample mean n un miss noise thr :
  Ieee.eqb v un = false ->
  thr <= n ->
  Ieee.is_nan (NdtSpec.delta_p L cov sensor sample mean miss noise) = true ->
  fst (calculateMissNdt L cov v sensor sample mean n un miss noise thr) = v.
Proof.
  intros Hv Hn Hnan.
  rewrite miss_covariance_branch by assumption.
  cbv zeta. rewrite probability_update_is_delta_p, Hnan. reflexivity.
Qed.

(** The theorem applies to the singular covariance above. *)
Lemma miss_nan_probability_witness :
  fst (calculateMissNdt libm_special cov_zero (F32.of_Z (-1)) sensor0 sample0
         mean_origin 10 unobserved miss_half F32.one 4) = F32.of_Z (-1).
Proof.
  apply (miss_nan_probability_discarded libm_special cov_zero (F32.of_Z (-1))
           sensor0 sample0 mean_origin 10 unobserved miss_half F32.one 4).
  - reflexivity.
  - lia.
  - vm_compute. reflexivity.
Defined.

(** *** A probability of exactly zero *)

Lemma pu_zero (L : Libm) :
  probability_update L cov_unit sensor0 sample2 mean_origin F32.zero tiny_noise
  = S754_zero false.
Proof.
  unfold probability_update.
  replace (voxel_maximum_likelyhood cov_unit sensor0 sample2 mean_origin)
    with (v3 0 0 0) by (vm_compute; reflexivity).
  cbv zeta. unfold p_x_ml_given_voxel, p_x_ml_given_sample, scaling_factor.
  replace (F64.mul (F64.of_dyadic (-1) (-1))
             (glm.length2 (solveTriangular cov_unit (glm.vsub (v3 0 0 0) mean_origin))))
    with (S754_zero true) by (vm_compute; reflexivity).
  replace (F64.div _ (F64.of_f32 (F32.mul tiny_noise tiny_noise)))
    with Ieee.ninf by (vm_compute; reflexivity).
  replace (F64.of_f32 F32.zero) with (S754_zero false) by reflexivity.
  rewrite !exp_zero, exp_ninf.
  vm_compute. reflexivity.
Qed.

Lemma miss_zero_probability (L : Libm) :
  fst (calculateMissNdt L cov_unit F32.one sensor0 sample2 mean_origin
         10 unobserved F32.zero tiny_noise 4) = Ieee.ninf.
Proof.
  rewrite miss_covariance_branch by (reflexivity || lia).
  cbv zeta. rewrite pu_zero.
  change (Ieee.is_nan (S754_zero false)) with false. cbv iota.
  replace (F64.div (S754_zero false) (F64.sub F64.one (S754_zero false)))
    with (S754_zero false) by (vm_compute; reflexivity).
  rewrite log_zero. vm_compute. reflexivity.
Qed.

(** C4 as stated fails when dp is a number but its log-odds is not finite.
    An occupied voxel of value 1 with unit covariance, the ray from (-2,0,0)
    to (2,0,0) through the voxel mean, [miss_value = 0] and a sensor noise of
    2^-100 (whose square underflows to 0): p1 = 1, p2 = 0, scale = 0.5, so
    dp = 0, the guard passes, log(0) = -infinity is added and the voxel value
    becomes -infinity.  This holds for every math library. *)
Lemma miss_nonfinite_counterexample :
  (forall L : Libm,
     NdtSpec.delta_p L cov_unit sensor0 sample2 mean_origin F32.zero tiny_noise
     = S754_zero false) /\
  (forall L : Libm,
     Ieee.is_finite
       (NdtSpec.log_odds L cov_unit sensor0 sample2 mean_origin F32.zero tiny_noise)
     = false) /\
  (forall L : Libm,
     fst (calculateMissNdt L cov_unit F32.one sensor0 sample2 mean_origin
            10 unobserved F32.zero tiny_noise 4) = Ieee.ninf) /\
  Ieee.ninf <> F32.one.
Proof.
  split; [intros L; rewrite <- probability_update_is_delta_p; apply pu_zero|].
  split; [|split; [exact miss_zero_probability | vm_compute; discriminate]].
  intros L. unfold NdtSpec.log_odds.
  rewrite <- probability_update_is_delta_p, pu_zero.
  replace (F64.div (S754_zero false) (F64.sub F64.one (S754_zero false)))
    with (S754_zero false) by (vm_compute; reflexivity).
  rewrite log_zero. reflexivity.
Qed.

End NdtFacts.

(** ** Key stepping *)

Module KeyFacts.

Import KeyMath KeyExamples.

Lemma wrap_signed_id bits x :
  0 < bits -> - 2 ^ (bits - 1) <= x < 2 ^ (bits - 1) -> wrap_signed bits x = x.
Proof.
  intros Hb Hx. unfold wrap_signed.
  assert (2 ^ bits = 2 * 2 ^ (bits - 1)) as ->.
  { replace bits with (Z.succ (bits - 1)) at 1 by lia.
    rewrite Z.pow_succ_r by lia. reflexivity. }
  rewrite Z.mod_small by lia. lia.
Qed.

Lemma wrap_signed_range bits x :
  0 < bits -> - 2 ^ (bits - 1) <= wrap_signed bits x < 2 ^ (bits - 1).
Proof.
  intros Hb. unfold wrap_signed.
  assert (2 ^ bits = 2 * 2 ^ (bits - 1)) as Hpow.
  { replace bits with (Z.succ (bits - 1)) at 1 by lia.
    rewrite Z.pow_succ_r by lia. reflexivity. }
  assert (0 < 2 ^ (bits - 1)) as Hpos by (apply Z.pow_pos_nonneg; lia).
  pose proof (Z.mod_pos_bound (x + 2 ^ (bits - 1)) (2 ^ bits) ltac:(lia)). lia.
Qed.

Lemma int16_range x : - 2 ^ 15 <= int16 x < 2 ^ 15.
Proof. apply (wrap_signed_range 16). lia. Qed.

Lemma int16_id x : - 2 ^ 15 <= x < 2 ^ 15 -> int16 x = x.
Proof. intros. apply wrap_signed_id; simpl; lia. Qed.

Lemma int32_id x : - 2 ^ 31 <= x < 2 ^ 31 -> int32 x = x.
Proof. intros. apply wrap_signed_id; simpl; lia. Qed.

Lemma uint8_id x : 0 <= x < 256 -> uint8 x = x.
Proof. intros. apply Z.mod_small. assumption. Qed.

Lemma vget_vset v axis a : vget (vset v axis a) axis = a.
Proof. destruct axis as [|[|?]]; reflexivity. Qed.

(** Truncating division of a non-negative number is the floored one. *)
Lemma quot_rem_nonneg l lim :
  0 <= l -> 0 < lim -> Z.quot l lim = l / lim /\ Z.rem l lim = l mod lim.
Proof.
  intros. split; [apply Z.quot_div_nonneg | apply Z.rem_mod_nonneg]; lia.
Qed.

Lemma rem_bound_nonpos x lim :
  x <= 0 -> 0 < lim -> - lim < Z.rem x lim <= 0.
Proof.
  intros Hx Hlim.
  pose proof (Z.rem_nonpos x lim ltac:(lia) Hx).
  pose proof (Z.rem_bound_abs x lim ltac:(lia)). lia.
Qed.

(** The region step of the negative branch "simulates a floor". *)
Lemma quot_shifted_is_floor l lim :
  0 < lim -> l < lim -> Z.quot (l - (lim - 1)) lim = l / lim.
Proof.
  intros Hlim Hl.
  assert (l - (lim - 1) <= 0) as Hneg by lia.
  pose proof (Z.quot_rem' (l - (lim - 1)) lim) as Hqr.
  pose proof (rem_bound_nonpos (l - (lim - 1)) lim Hneg Hlim) as Hr.
  set (q := Z.quot (l - (lim - 1)) lim) in *.
  set (r := Z.rem (l - (lim - 1)) lim) in *.
  apply (Z.div_unique l lim q (r + (lim - 1))); lia.
Qed.

(** The local coordinate of the negative branch is the floored remainder. *)
Lemma negative_local_is_mod l lim :
  0 < lim -> l < 0 ->
  (if lim + Z.rem l lim =? lim then 0 else lim + Z.rem l lim) = l mod lim.
Proof.
  intros Hlim Hl.
  pose proof (Z.quot_rem' l lim) as Hqr.
  pose proof (rem_bound_nonpos l lim ltac:(lia) Hlim) as Hr.
  set (q := Z.quot l lim) in *. set (r := Z.rem l lim) in *.
  destruct (Z.eqb_spec (lim + r) lim) as [E|E].
  - apply (Z.mod_unique l lim q 0); lia.
  - apply (Z.mod_unique l lim (q - 1) (lim + r)); lia.
Qed.

(** What [moveKeyAlongAxis] computes on the stepped axis for a step that
    keeps the [int] arithmetic exact: the region coordinate moves by the
    floored quotient (and is narrowed to [int16_t]), the local coordinate is
    the floored remainder. *)
Lemma moveKeyAlongAxis_floor key axis step dims :
  (axis < 3)%nat ->
  validAxis dims key axis ->
  - 2 ^ 30 <= step <= 2 ^ 30 ->
  let key' := moveKeyAlongAxis key axis step dims in
  vget (regionKey key') axis
    = int16 (vget (regionKey key) axis
             + (vget (localKey key) axis + step) / vget dims axis)
  /\ vget (localKey key') axis = (vget (localKey key) axis + step) mod vget dims axis.
Proof.
  intros Haxis (Hreg & Hloc & Hdim) Hstep32 key'. subst key'.
  set (lim := vget dims axis) in *.
  set (l0 := vget (localKey key) axis) in *.
  set (r0 := vget (regionKey key) axis) in *.
  assert (0 < lim) as Hlim by lia.
  assert (- 2 ^ 31 <= l0 + step < 2 ^ 31) as Hl32 by (simpl in *; lia).
  unfold moveKeyAlongAxis.
  destruct (Z.eqb_spec step 0) as [-> | Hstep].
  { fold l0 r0. rewrite Z.add_0_r.
    rewrite Z.div_small, Z.mod_small by lia.
    rewrite Z.add_0_r, int16_id by assumption. lia. }
  fold lim l0 r0.
  destruct (Z.ltb_spec 0 step) as [Hpos | Hneg]; cbv zeta.
  - rewrite !vget_vset, int32_id by assumption.
    destruct (quot_rem_nonneg (l0 + step) lim ltac:(lia) Hlim) as [-> ->].
    pose proof (Z.mod_pos_bound (l0 + step) lim Hlim).
    unfold makeKey; simpl.
    destruct axis as [|[|[|?]]]; try lia; simpl;
      rewrite ?vget_vset; split; try reflexivity; apply uint8_id; lia.
  - rewrite !vget_vset, !(int32_id (l0 + step)) by assumption.
    rewrite (int32_id (l0 + step - (lim - 1))) by (simpl in *; lia).
    rewrite quot_shifted_is_floor by lia.
    pose proof (Z.mod_pos_bound (l0 + step) lim Hlim).
    destruct (Z.ltb_spec (l0 + step) 0) as [Hlt | Hge].
    + pose proof (negative_local_is_mod (l0 + step) lim Hlim Hlt) as Hmod.
      destruct (Z.eqb_spec (lim + Z.rem (l0 + step) lim) lim) as [E|E];
        unfold makeKey; simpl;
        destruct axis as [|[|[|?]]]; try lia; simpl;
        rewrite ?vget_vset; split; try reflexivity;
        rewrite <- Hmod; apply uint8_id; lia.
    + assert ((l0 + step) mod lim = l0 + step) as Hsmall
          by (apply Z.mod_small; lia).
      unfold makeKey; simpl;
        destruct axis as [|[|[|?]]]; try lia; simpl;
        rewrite ?vget_vset; split; try reflexivity;
        rewrite Hsmall; apply uint8_id; lia.
Qed.

(** Stepping keeps the stepped axis of a key valid. *)
Lemma moveKeyAlongAxis_validAxis key axis step dims :
  (axis < 3)%nat ->
  validAxis dims key axis ->
  - 2 ^ 30 <= step <= 2 ^ 30 ->
  validAxis dims (moveKeyAlongAxis key axis step dims) axis.
Proof.
  intros Haxis Hvalid Hstep.
  destruct (moveKeyAlongAxis_floor key axis step dims Haxis Hvalid Hstep) as [Hr Hl].
  destruct Hvalid as (Hreg & Hloc & Hdim).
  unfold validAxis. rewrite Hr, Hl.
  split; [apply int16_range|].
  split; [apply Z.mod_pos_bound; lia | assumption].
Qed.

(** What [moveKeyAlongAxis] computes on the stepped axis, as long as the
    region coordinate stays inside [int16_t]. *)
Lemma moveKeyAlongAxis_axis key axis step dims :
  (axis < 3)%nat ->
  validKey dims key ->
  - 2 ^ 15 <= vget (regionKey key) axis
              + (vget (localKey key) axis + step) / vget dims axis < 2 ^ 15 ->
  let key' := moveKeyAlongAxis key axis step dims in
  vget (regionKey key') axis
    = vget (regionKey key) axis + (vget (localKey key) axis + step) / vget dims axis
  /\ vget (localKey key') axis = (vget (localKey key) axis + step) mod vget dims axis.
Proof.
  intros Haxis Hvalid Hrange key'. subst key'.
  destruct (Hvalid axis Haxis) as (Hreg & Hloc & Hdim).
  assert (0 < vget dims axis) as Hlim by lia.
  (* the step is far inside the [int] range *)
  assert (- 2 ^ 30 <= step <= 2 ^ 30) as Hstep.
  { pose proof (Z.div_mod (vget (localKey key) axis + step) (vget dims axis)
                  ltac:(lia)) as Hdm.
    pose proof (Z.mod_pos_bound (vget (localKey key) axis + step) (vget dims axis)
                  Hlim).
    simpl in *. nia. }
  destruct (moveKeyAlongAxis_floor key axis step dims Haxis (Hvalid axis Haxis) Hstep)
    as [Hr Hl].
  rewrite Hr, Hl, int16_id by assumption. split; reflexivity.
Qed.

(** C5, amended: for every valid key [k] (region coordinates in the
    [int16_t] range, local coordinates inside the region), every axis and
    every step [n] for which the stepped region coordinate
    [region + floor((local + n) / dim)] stays in the [int16_t] range,
    stepping [k] by [n] along the axis ([moveKeyAlongAxis]) and taking the
    signed voxel delta from [k] to the result yields exactly [n] on that
    axis; the step carries into the region coordinate with floored division,
    and the resulting local coordinate lies in [[0, region_dim[axis])], also
    for negative steps. *)
Theorem step_consistency key axis n dims :
  (axis < 3)%nat ->
  validKey dims key ->
  - 2 ^ 15 <= vget (regionKey key) axis
              + (vget (localKey key) axis + n) / vget dims axis < 2 ^ 15 ->
  let key' := moveKeyAlongAxis key axis n dims in
  vget (rangeBetween dims key key') axis = n /\
  vget (regionKey key') axis
    = vget (regionKey key) axis + (vget (localKey key) axis + n) / vget dims axis /\
  0 <= vget (localKey key') axis < vget dims axis.
Proof.
  intros Haxis Hvalid Hrange key'.
  destruct (moveKeyAlongAxis_axis key axis n dims Haxis Hvalid Hrange) as [Hr Hl].
  fold key' in Hr, Hl.
  destruct (Hvalid axis Haxis) as (Hreg & Hloc & Hdim).
  assert (0 < vget dims axis) as Hlim by lia.
  pose proof (Z.mod_pos_bound (vget (localKey key) axis + n) (vget dims axis) Hlim)
    as Hb.
  pose proof (Z.div_mod (vget (localKey key) axis + n) (vget dims axis) ltac:(lia))
    as Hdm.
  split; [|split; [exact Hr | rewrite Hl; exact Hb]].
  assert (vget (rangeBetween dims key key') axis
          = (vget (regionKey key') axis - vget (regionKey key) axis) * vget dims axis
            + (vget (localKey key') axis - vget (localKey key) axis)) as ->.
  { unfold rangeBetween. destruct axis as [|[|[|?]]]; try lia; reflexivity. }
  rewrite Hr, Hl. lia.
Qed.

Lemma key_235_valid : validKey dims8 key_235.
Proof.
  intros axis Haxis. unfold validAxis.
  destruct axis as [|[|[|?]]]; try lia; simpl; lia.
Qed.

(** The theorem applies to a step of -13 along z from local coordinate 5 of
    region 7: two regions down, local coordinate 0. *)
Lemma step_consistency_witness :
  vget (rangeBetween dims8 key_235 (moveKeyAlongAxis key_235 2 (-13) dims8)) 2 = -13 /\
  vget (regionKey (moveKeyAlongAxis key_235 2 (-13) dims8)) 2
    = 7 + (5 + -13) / 8 /\
  0 <= vget (localKey (moveKeyAlongAxis key_235 2 (-13) dims8)) 2 < 8.
Proof.
  apply (step_consistency key_235 2 (-13) dims8).
  - lia.
  - exact key_235_valid.
  - vm_compute. split; [discriminate | reflexivity].
Defined.

(** C5 as stated fails for steps that leave the 16-bit region range: on
    8-voxel regions a step of 65536 * 8 wraps the region coordinate and
    returns the key it started from, as a step of 0 does, so no delta
    function of the two keys can return both 524288 and 0. *)
Lemma step_consistency_counterexample :
  moveKeyAlongAxis key0 0 524288 dims8 = key0 /\
  moveKeyAlongAxis key0 0 0 dims8 = key0 /\
  vget (rangeBetween dims8 key0 (moveKeyAlongAxis key0 0 524288 dims8)) 0 = 0 /\
  0 <> 524288.
Proof. vm_compute. repeat split; discriminate. Qed.

End KeyFacts.

(** ** Heightmap column search *)

Module HmFacts.

Import KeyMath Hm HmExamples.

(** The selection rule of [findNearestSupportingVoxel] when both searches
    have a candidate. *)
Lemma selectSupportingVoxel_cases below above off_b off_a vb va clearance promote :
  0 <= off_b -> 0 <= off_a ->
  let r := selectSupportingVoxel below above off_b off_a vb va clearance promote in
  let virtual_b := vb && negb promote in
  (virtual_b = false -> va = true -> r = below) /\
  (virtual_b = true -> va = false -> r = above) /\
  (virtual_b = true -> va = true -> r = below) /\
  (virtual_b = false -> va = false ->
     (clearance <= off_b + off_a -> r = below) /\
     (off_b + off_a < clearance -> off_b <= off_a -> r = below) /\
     (off_b + off_a < clearance -> off_a < off_b -> r = above)).
Proof.
  intros Hb Ha r virtual_b. subst r virtual_b.
  unfold selectSupportingVoxel.
  apply Z.leb_le in Hb, Ha. rewrite Hb, Ha. simpl.
  destruct (vb && negb promote) eqn:Hvb, va; simpl;
    repeat split; intros; try discriminate; try reflexivity.
  - destruct (Z.leb_spec off_b off_a); simpl; [reflexivity|].
    destruct (Z.leb_spec clearance (off_b + off_a)); [reflexivity | lia].
  - destruct (Z.leb_spec off_b off_a); [reflexivity | lia].
  - destruct (Z.leb_spec off_b off_a); simpl; [lia|].
    destruct (Z.leb_spec clearance (off_b + off_a)); [lia | reflexivity].
Qed.

(** C6, amended: in [findNearestSupportingVoxel], when both the downward and
    the upward column search return a candidate, the selection obeys: a real
    (occupied) candidate is preferred over a virtual one; if both candidates
    are virtual the lower one is chosen; if both are real the lower is chosen
    unless the upper lies within [clearance_voxel_count_permissive] of it
    (the two offsets sum to less than it), in which case the candidate that
    required fewer search steps is chosen (the lower one on a tie); and with
    [promote_virtual_below] set, a downward virtual candidate is treated as
    a real one: it is chosen over an upward virtual candidate and competes
    with an upward real candidate under the both-real rule. *)
Theorem supporting_voxel_selection
    map seed up_axis min_key max_key ceiling clearance allow promote
    below above off_b off_a vb va :
  let axis := Z.to_nat (if 0 <=? up_axis then up_axis else - up_axis - 1) in
  let down_to := if 0 <=? up_axis then min_key else max_key in
  let up_to := if 0 <=? up_axis then max_key else min_key in
  findNearestSupportingVoxel2 map seed down_to axis 0 false allow (-1)
    = Some (below, off_b, vb) ->
  findNearestSupportingVoxel2 map seed up_to axis ceiling true allow (-1)
    = Some (above, off_a, va) ->
  0 <= off_b -> 0 <= off_a ->
  let r := findNearestSupportingVoxel map seed up_axis min_key max_key ceiling
             clearance allow promote in
  let treated_virtual_b := vb && negb promote in
  (treated_virtual_b = false -> va = true -> r = Some below) /\
  (treated_virtual_b = true -> va = false -> r = Some above) /\
  (treated_virtual_b = true -> va = true -> r = Some below) /\
  (treated_virtual_b = false -> va = false ->
     (clearance <= off_b + off_a -> r = Some below) /\
     (off_b + off_a < clearance -> off_b <= off_a -> r = Some below) /\
     (off_b + off_a < clearance -> off_a < off_b -> r = Some above)).
Proof.
  intros axis down_to up_to Hdown Hup Hb Ha r tv. subst r tv.
  unfold findNearestSupportingVoxel. fold axis down_to up_to.
  rewrite Hdown, Hup.
  destruct (selectSupportingVoxel_cases below above off_b off_a vb va
              clearance promote Hb Ha) as (H1 & H2 & H3 & H4).
  cbv zeta in H1, H2, H3, H4.
  split; [intros; f_equal; auto|].
  split; [intros; f_equal; auto|].
  split; [intros; f_equal; auto|].
  intros Hv Hva. destruct (H4 Hv Hva) as (H5 & H6 & H7).
  split; [intros; f_equal; auto|].
  split; intros; f_equal; auto.
Qed.

(** The theorem applies to the column of [column_map] searched from z = 5
    without promotion: the candidate below is virtual (z = 2, three steps),
    the one above is real (z = 6, two steps). *)
Lemma supporting_voxel_selection_witness :
  let r := findNearestSupportingVoxel column_map (zkey 5) 2 (zkey 0) (zkey 7) 8 10
             true false in
  let treated_virtual_b := true && negb false in
  (treated_virtual_b = false -> false = true -> r = Some (Some (zkey 2))) /\
  (treated_virtual_b = true -> false = false -> r = Some (Some (zkey 6))) /\
  (treated_virtual_b = true -> false = true -> r = Some (Some (zkey 2))) /\
  (treated_virtual_b = false -> false = false ->
     (10 <= 3 + 2 -> r = Some (Some (zkey 2))) /\
     (3 + 2 < 10 -> 3 <= 2 -> r = Some (Some (zkey 2))) /\
     (3 + 2 < 10 -> 2 < 3 -> r = Some (Some (zkey 6)))).
Proof.
  apply (supporting_voxel_selection column_map (zkey 5) 2 (zkey 0) (zkey 7) 8 10
           true false (Some (zkey 2)) (Some (zkey 6)) 3 2 true false).
  - vm_compute. reflexivity.
  - vm_compute. reflexivity.
  - lia.
  - lia.
Defined.

(** C6 as stated fails on its last clause.  In [column_map], searched from
    z = 5 with virtual surfaces allowed and [promote_virtual_below] set, the
    downward search returns the virtual voxel z = 2 after three steps and
    the upward search the occupied voxel z = 6 after two; the offsets sum to
    5, less than a permissive clearance of 10, and the upward real candidate
    is selected. *)
Lemma promote_virtual_below_counterexample :
  findNearestSupportingVoxel2 column_map (zkey 5) (zkey 0) 2 0 false true (-1)
    = Some (Some (zkey 2), 3, true) /\
  findNearestSupportingVoxel2 column_map (zkey 5) (zkey 7) 2 8 true true (-1)
    = Some (Some (zkey 6), 2, false) /\
  findNearestSupportingVoxel column_map (zkey 5) 2 (zkey 0) (zkey 7) 8 10 true true
    = Some (Some (zkey 6)) /\
  zkey 6 <> zkey 2.
Proof. vm_compute. repeat split; discriminate. Qed.

(** *** The column searches return

    On a key that is valid along the searched axis both searches end: the
    loop counter grows with every pass, also across unallocated regions. *)

Section SearchReturns.
Variable map : OccupancyMap.
Variable axis : nat.
Hypothesis Haxis : (axis < 3)%nat.

Local Abbreviation dims := (region_voxel_dimensions map).

Lemma searchLoop_returns fuel : forall vertical_range step search_up allow i st,
  step = 1 \/ step = -1 ->
  validAxis dims (current_key st) axis ->
  validOn dims axis (best_virtual st) -> validOn dims axis (last_key st) ->
  (Z.to_nat (vertical_range - i) <= fuel)%nat ->
  exists r,
    searchLoop map fuel vertical_range step axis search_up allow i st = Some r
    /\ exitValid dims axis r.
Proof.
  induction fuel as [|fuel IH];
    intros vertical_range step search_up allow i st Hstep Hcur Hbest Hlast Hfuel.
  - simpl. destruct (Z.ltb_spec i vertical_range); [lia|].
    eexists; split; [reflexivity | split; assumption].
  - simpl. destruct (Z.ltb_spec i vertical_range) as [Hlt | Hge].
    2:{ eexists; split; [reflexivity | split; assumption]. }
    match goal with
    | |- context [if ?c then Some (FoundOccupied _ _) else _] => destruct c
    end.
    { eexists; split; [reflexivity | exact Hcur]. }
    pose proof Hcur as (Hreg & Hloc & Hdim).
    apply IH.
    + assumption.
    + simpl. apply KeyFacts.moveKeyAlongAxis_validAxis; [assumption | assumption |].
      destruct (hasChunk map (current_key st)); [simpl; lia|].
      destruct (0 <? step); simpl; lia.
    + simpl.
      repeat match goal with
             | |- context [if ?c then _ else _] => destruct c
             end; assumption.
    + exact Hcur.
    + destruct (hasChunk map (current_key st)); [lia|].
      destruct (Z.ltb_spec 0 step); lia.
Qed.

Lemma findNearestSupportingVoxel2_returns from_key to_key step_limit search_up allow
    offset0 :
  validAxis dims from_key axis ->
  exists key off is_virtual,
    findNearestSupportingVoxel2 map from_key to_key axis step_limit search_up allow
      offset0 = Some (key, off, is_virtual)
    /\ validOn dims axis key.
Proof.
  intros Hfrom. unfold findNearestSupportingVoxel2. cbv zeta.
  match goal with
  | |- context [searchLoop map ?fuel ?range ?step axis search_up allow 0 ?st] =>
      destruct (searchLoop_returns fuel range step search_up allow 0 st)
        as (r & -> & Hr)
  end.
  - destruct (0 <=? _); auto.
  - exact Hfrom.
  - exact I.
  - exact I.
  - lia.
  - destruct r as [key off | st]; simpl in Hr.
    + eexists _, _, _. split; [reflexivity | exact Hr].
    + destruct Hr as [Hbest Hlast].
      destruct (best_virtual st) as [best|] eqn:Hb.
      * eexists _, _, _. split; [reflexivity | exact Hbest].
      * destruct (allow && negb search_up && last_free st);
          eexists _, _, _; (split; [reflexivity|]); [exact Hlast | exact I].
Qed.

Lemma selectSupportingVoxel_either below above off_b off_a vb va clearance promote :
  let r := selectSupportingVoxel below above off_b off_a vb va clearance promote in
  r = below \/ r = above.
Proof.
  cbv zeta. unfold selectSupportingVoxel.
  repeat match goal with
         | |- context [if ?c then _ else _] => destruct c
         end; auto.
Qed.

Lemma findNearestSupportingVoxel_returns seed up_axis min_key max_key ceiling
    clearance allow promote :
  Z.to_nat (if 0 <=? up_axis then up_axis else - up_axis - 1) = axis ->
  validAxis dims seed axis ->
  exists candidate,
    findNearestSupportingVoxel map seed up_axis min_key max_key ceiling clearance
      allow promote = Some candidate
    /\ validOn dims axis candidate.
Proof.
  intros Hup Hseed. unfold findNearestSupportingVoxel. cbv zeta. rewrite Hup.
  destruct (findNearestSupportingVoxel2_returns seed
              (if 0 <=? up_axis then min_key else max_key) 0 false allow (-1) Hseed)
    as (below & off_b & vb & -> & Hbelow).
  destruct (findNearestSupportingVoxel2_returns seed
              (if 0 <=? up_axis then max_key else min_key) ceiling true allow (-1)
              Hseed)
    as (above & off_a & va & -> & Habove).
  eexists. split; [reflexivity|].
  destruct (selectSupportingVoxel_either below above off_b off_a vb va clearance
              promote) as [-> | ->]; assumption.
Qed.

End SearchReturns.

(** *** findGround *)

Section GroundFacts.
Variable map : OccupancyMap.
Variables positionHeight centreHeight : Key -> f64.
Variable imp : HeightmapDetail.
Variables min_key max_key seed : Key.

Local Abbreviation keyAt := (columnKey map imp seed).
Local Abbreviation typeAt i := (occupancyType map (columnKey map imp seed i)).
Local Abbreviation heightAt i :=
  (heightOf map positionHeight centreHeight (columnKey map imp seed i)).
Local Abbreviation bounded i :=
  (isBounded (columnKey map imp seed i) (vertical_axis_index imp) min_key max_key).
Local Abbreviation Inv :=
  (groundInv map positionHeight centreHeight imp seed).
Local Abbreviation Final :=
  (groundFinal map positionHeight centreHeight imp min_key max_key seed).

Lemma columnKey_succ k :
  keyAt (S k)
  = stepKey map (keyAt k) (vertical_axis_index imp)
      (if 0 <=? up_axis_id imp then 1 else -1).
Proof. reflexivity. Qed.

(** Leaving the loop through its condition. *)
Lemma groundInv_bounds k st : Inv k st -> bounded k = false -> Final st.
Proof.
  intros [Hnull | (g & Hg & Hkey & Hcand & Hty & Hh & Hc & Hnone)] Hb.
  - left; assumption.
  - right. exists g. repeat split; try assumption.
    left. exists k. repeat split; assumption.
Qed.

(** The loop invariant is kept by the body and yields the final state,
    whichever way the loop is left. *)
Lemma groundLoop_final fuel : forall k st,
  Inv k st ->
  forall st',
  groundLoop map positionHeight centreHeight fuel imp min_key max_key (keyAt k) st
    = Some st' ->
  Final st'.
Proof.
  induction fuel as [|fuel IH]; intros k st Hinv st' Hloop; simpl in Hloop.
  - destruct (bounded k) eqn:Hb; [discriminate|].
    injection Hloop as <-. eapply groundInv_bounds; eassumption.
  - destruct (bounded k) eqn:Hb.
    2:{ injection Hloop as <-. eapply groundInv_bounds; eassumption. }
    unfold groundBody in Hloop.
    assert (sourceVoxelHeight map positionHeight centreHeight (keyAt k)
            = (typeAt k, heightAt k)) as Hsv by reflexivity.
    rewrite Hsv in Hloop.
    destruct (bool_decide (typeAt k = kOccupied)
              || generate_virtual_surface imp
                 && (bool_decide (last_voxel_type st = kUnobserved)
                     || bool_decide (last_voxel_type st = kNull))
                 && bool_decide (typeAt k = kFree)
                 && bool_decide (candidate_voxel_type st = kNull)) eqn:Hcond.
    + (* the voxel is occupied, or the first virtual surface voxel *)
      destruct (bool_decide (candidate_voxel_type st = kNull)) eqn:Hcn;
        simpl in Hloop.
      * (* first candidate of the column *)
        rewrite <- columnKey_succ in Hloop.
        apply (IH (S k) _) in Hloop; [assumption|].
        right. exists k. simpl.
        assert (groundType imp (typeAt k)) as Hty.
        { apply orb_true_iff in Hcond as [Ho | Hv].
          - left. apply bool_decide_eq_true in Ho. assumption.
          - right. rewrite !andb_true_iff in Hv.
            destruct Hv as [[[Hgen _] Hfree] _].
            apply bool_decide_eq_true in Hfree. split; assumption. }
        repeat split; try reflexivity; try assumption; try lia.
        intros j Hj. lia.
      * (* a candidate exists: the voxel is occupied *)
        apply bool_decide_eq_false in Hcn.
        assert (typeAt k = kOccupied) as Hocc.
        { apply orb_true_iff in Hcond as [Ho | Hv].
          - apply bool_decide_eq_true in Ho. assumption.
          - rewrite !andb_true_iff in Hv. destruct Hv as [_ Hn]. discriminate. }
        destruct Hinv as [Hnull | (g & Hg & Hkey & Hcand & Hty & Hh & Hc & Hnone)];
          [contradiction|].
        destruct (Ieee.geb (F64.sub (heightAt k) (column_height st))
                           (min_clearance imp)) eqn:Hclear.
        -- (* sufficient clearance: break *)
           injection Hloop as <-. right. exists g. simpl.
           repeat split; try assumption.
           right. exists k. rewrite Hh in Hclear.
           repeat split; try assumption; reflexivity.
        -- (* insufficient clearance: the voxel becomes the base *)
           rewrite <- columnKey_succ in Hloop.
           apply (IH (S k) _) in Hloop; [assumption|].
           right. exists k. simpl.
           repeat split; try reflexivity; try lia.
           ++ left. assumption.
           ++ intros j Hj. lia.
    + (* the voxel changes nothing but [last_voxel_type] *)
      rewrite <- columnKey_succ in Hloop.
      apply (IH (S k) _) in Hloop; [assumption|].
      destruct Hinv as [Hnull | (g & Hg & Hkey & Hcand & Hty & Hh & Hc & Hnone)].
      * left. assumption.
      * right. exists g. simpl. repeat split; try assumption; try lia.
        intros j Hj.
        destruct (Nat.eq_dec j k) as [-> | Hne]; [|apply Hnone; lia].
        apply orb_false_iff in Hcond as [Ho _].
        apply bool_decide_eq_false in Ho. assumption.
Qed.

(** C7: for every ground voxel [findGround] emits for a column, either no
    voxel of the walked column strictly above it is occupied (the walk
    reached the column bounds), so no occupied voxel lies above it within
    [min_clearance]; or the clearance written out is the measured height gap
    between the ground voxel and the first occupied voxel above it
    ([column_clearance_height - column_height]), a gap of at least
    [min_clearance].  In both cases the clearance written out is
    [clearance_height] minus the height of the ground voxel. *)
Theorem ground_clearance fuel ground height_out clearance_out :
  findGround map positionHeight centreHeight fuel seed min_key max_key imp
    = Some (Some (ground, height_out, clearance_out)) ->
  exists g clearance_height,
    ground = keyAt g /\ groundType imp (typeAt g) /\
    clearance_out = F64.sub clearance_height (heightAt g) /\
    (reachedBounds map positionHeight centreHeight imp min_key max_key seed
       g clearance_height
     \/ obstructedAt map positionHeight centreHeight imp min_key max_key seed
          g clearance_height).
Proof.
  unfold findGround. intros Hfind.
  destruct (groundLoop map positionHeight centreHeight fuel imp min_key max_key
              seed groundInit) as [st|] eqn:Hloop; [|discriminate].
  assert (Final st) as Hfinal.
  { apply (groundLoop_final fuel 0 groundInit); [left; reflexivity | exact Hloop]. }
  destruct (bool_decide (candidate_voxel_type st = kNull)) eqn:Hcn; simpl in Hfind;
    [discriminate|].
  apply bool_decide_eq_false in Hcn.
  destruct Hfinal as [Hnull | (g & Hkey & Hty & Hh & Hcases)]; [contradiction|].
  rewrite Hkey in Hfind. injection Hfind as <- <- <-.
  exists g, (column_clearance_height st).
  rewrite Hh. repeat split; assumption.
Qed.

End GroundFacts.

(** The theorem applies to [ground_map] walked from z = 1 with a minimum
    clearance of 3: the ground is the voxel z = 3 and the clearance 3, the
    gap to the occupied voxel z = 6. *)
Lemma ground_clearance_witness :
  exists g clearance_height,
    zkey 3 = columnKey ground_map (imp_z 3 false false) (zkey 1) g /\
    groundType (imp_z 3 false false)
      (occupancyType ground_map
         (columnKey ground_map (imp_z 3 false false) (zkey 1) g)) /\
    F64.of_Z 3
    = F64.sub clearance_height
        (heightOf ground_map zheight zheight
           (columnKey ground_map (imp_z 3 false false) (zkey 1) g)) /\
    (reachedBounds ground_map zheight zheight (imp_z 3 false false)
       (zkey 0) (zkey 7) (zkey 1) g clearance_height
     \/ obstructedAt ground_map zheight zheight (imp_z 3 false false)
          (zkey 0) (zkey 7) (zkey 1) g clearance_height).
Proof.
  apply (ground_clearance ground_map zheight zheight (imp_z 3 false false)
           (zkey 0) (zkey 7) (zkey 1) 20 (zkey 3)
           (F64.add (F64.of_Z 6) F64.half) (F64.of_Z 3)).
  vm_compute. reflexivity.
Defined.

(** *** findGround returns

    Between extents that stay clear of the two ends of the 16-bit region
    range the walk moves one voxel per pass and leaves the bounds. *)

Section GroundReturns.
Variable map : OccupancyMap.
Variables positionHeight centreHeight : Key -> f64.
Variable imp : HeightmapDetail.
Variables min_key max_key : Key.

Local Abbreviation dims := (region_voxel_dimensions map).
Local Abbreviation axis := (vertical_axis_index imp).
Local Abbreviation pos key :=
  (axisPosition (region_voxel_dimensions map) key (vertical_axis_index imp)).
Local Abbreviation step_dir := (if 0 <=? up_axis_id imp then 1 else -1).

Hypothesis Haxis : (axis < 3)%nat.
Hypothesis Hmin : validAxis dims min_key axis.
Hypothesis Hmax : validAxis dims max_key axis.
Hypothesis Hmin_region : - 2 ^ 15 < vget (regionKey min_key) axis.
Hypothesis Hmax_region : vget (regionKey max_key) axis < 2 ^ 15 - 1.

Lemma isBounded_position key :
  validAxis dims key axis ->
  isBounded key axis min_key max_key = true ->
  pos min_key <= pos key <= pos max_key.
Proof.
  intros (Hreg & Hloc & Hdim) Hb.
  destruct Hmin as (_ & Hlmin & _), Hmax as (_ & Hlmax & _).
  unfold isBounded in Hb. cbv zeta in Hb.
  rewrite !andb_true_iff, !negb_true_iff, !orb_false_iff, !andb_false_iff in Hb.
  rewrite !Z.ltb_ge, !Z.eqb_neq in Hb.
  unfold axisPosition. nia.
Qed.

Lemma isBounded_region key :
  isBounded key axis min_key max_key = true ->
  vget (regionKey min_key) axis <= vget (regionKey key) axis
    <= vget (regionKey max_key) axis.
Proof.
  unfold isBounded. cbv zeta.
  rewrite !andb_true_iff, !negb_true_iff, !orb_false_iff, !Z.ltb_ge. lia.
Qed.

Lemma stepKey_position key dir :
  validAxis dims key axis ->
  dir = 1 \/ dir = -1 ->
  - 2 ^ 15 <= vget (regionKey key) axis + dir < 2 ^ 15 ->
  pos (stepKey map key axis dir) = pos key + dir.
Proof.
  intros Hvalid Hdir Hrange.
  destruct (KeyFacts.moveKeyAlongAxis_floor key axis dir dims Haxis Hvalid
              ltac:(simpl; lia)) as [Hr Hl].
  destruct Hvalid as (Hreg & Hloc & Hdim).
  unfold axisPosition, stepKey. rewrite Hr, Hl.
  assert (0 < vget dims axis) as Hlim by lia.
  pose proof (Z.div_mod (vget (localKey key) axis + dir) (vget dims axis) ltac:(lia))
    as Hdm.
  pose proof (Z.mod_pos_bound (vget (localKey key) axis + dir) (vget dims axis) Hlim)
    as Hmod.
  assert (-1 <= (vget (localKey key) axis + dir) / vget dims axis <= 1) as Hq by nia.
  rewrite KeyFacts.int16_id by (destruct Hdir; subst dir; simpl in *; nia).
  lia.
Qed.

Lemma groundLoop_returns fuel : forall key st,
  validAxis dims key axis ->
  (Z.to_nat (remaining dims imp min_key max_key key) <= fuel)%nat ->
  exists st',
    groundLoop map positionHeight centreHeight fuel imp min_key max_key key st
    = Some st'.
Proof.
  induction fuel as [|fuel IH]; intros key st Hvalid Hfuel; simpl;
    destruct (isBounded key axis min_key max_key) eqn:Hb; eauto.
  - pose proof (isBounded_position key Hvalid Hb). unfold remaining in Hfuel.
    destruct (0 <=? up_axis_id imp); lia.
  - destruct (groundBody map positionHeight centreHeight imp key st) as [st'|st'];
      eauto.
    pose proof (isBounded_position key Hvalid Hb) as Hpos.
    pose proof (isBounded_region key Hb) as Hreg.
    assert (step_dir = 1 \/ step_dir = -1) as Hdir
        by (destruct (0 <=? up_axis_id imp); auto).
    apply IH.
    + apply KeyFacts.moveKeyAlongAxis_validAxis; [assumption | assumption |].
      destruct (0 <=? up_axis_id imp); simpl; lia.
    + unfold remaining in *.
      rewrite stepKey_position; [| assumption | assumption |
        destruct (0 <=? up_axis_id imp); lia].
      destruct (0 <=? up_axis_id imp); lia.
Qed.

(** With fuel for the whole 16-bit column [findGround] returns. *)
Lemma findGround_returns fuel seed :
  validAxis dims seed axis ->
  (Z.to_nat (2 ^ 16 * vget dims axis) <= fuel)%nat ->
  exists r,
    findGround map positionHeight centreHeight fuel seed min_key max_key imp = Some r.
Proof.
  intros Hseed Hfuel. unfold findGround.
  destruct (groundLoop_returns fuel seed groundInit Hseed) as (st & ->).
  - destruct Hseed as (Hreg & Hloc & Hdim).
    destruct Hmin as (Hrmin & Hlmin & _), Hmax as (Hrmax & Hlmax & _).
    assert (remaining dims imp min_key max_key seed <= 2 ^ 16 * vget dims axis)
      as Hle.
    { unfold remaining, axisPosition.
      change (2 ^ 16) with 65536. change (2 ^ 15) with 32768 in *.
      destruct (0 <=? up_axis_id imp); nia. }
    lia.
  - destruct (negb _); [destruct (ground_key st)|]; eauto.
Qed.

End GroundReturns.

(** *** buildHeightmapT *)



Lemma occupancyForall_reads (P : f32 -> Prop) hm :
  P unobservedOccupancyValue -> occupancyForall P hm -> readsForall P hm.
Proof.
  intros Hun H key. unfold readOccupancy, chunk.
  destruct (chunks hm !! regionIndex key) as [voxels|] eqn:Hc; [|assumption].
  specialize (H _ _ Hc). simpl in H.
  destruct (voxels !! voxelIndex (region_voxel_dimensions hm) key) as [v|] eqn:Hv;
    simpl; [|assumption].
  eapply Forall_lookup_1; eassumption.
Qed.

Lemma occupancyForall_clear P hm : occupancyForall P (clear hm).
Proof. unfold occupancyForall, clear; simpl. apply map_Forall_empty. Qed.

Lemma occupancyForall_write (P : f32 -> Prop) hm key v :
  P unobservedOccupancyValue -> P v ->
  occupancyForall P hm -> occupancyForall P (writeOccupancy hm key v).
Proof.
  intros Hun Hv H. unfold occupancyForall, writeOccupancy; simpl.
  apply map_Forall_insert_2; [|exact H].
  apply Forall_insert; [|exact Hv].
  unfold chunk. destruct (chunks hm !! regionIndex key) as [voxels|] eqn:Hc; simpl.
  - exact (H _ _ Hc).
  - apply Forall_replicate. exact Hun.
Qed.

Section BuildFacts.
Variable src_map : OccupancyMap.
Variables positionHeight centreHeight : Key -> f64.
Variable heightmapVoxelKey : Key -> Key.
Variable imp : HeightmapDetail.
Variables min_ext_key max_ext_key : Key.
Variables voxel_ceiling clearance_voxel_count_permissive : Z.

Local Abbreviation visit :=
  (visitColumn src_map positionHeight centreHeight heightmapVoxelKey imp
     min_ext_key max_ext_key voxel_ceiling clearance_voxel_count_permissive).
Local Abbreviation visits :=
  (visitColumns src_map positionHeight centreHeight heightmapVoxelKey imp
     min_ext_key max_ext_key voxel_ceiling clearance_voxel_count_permissive).

Lemma visitColumn_write fuel hm count walk_key hm' count' :
  visit fuel hm count walk_key = Some (hm', count') ->
  columnWrite src_map heightmapVoxelKey imp hm hm'.
Proof.
  unfold visitColumn, columnWrite. intros H.
  destruct (findNearestSupportingVoxel _ _ _ _ _ _ _ _ _) as [candidate|];
    [|discriminate].
  match type of H with
  | match ?g with _ => _ end = _ => destruct g as [ground_key|]; [|discriminate]
  end.
  destruct ground_key as [key|]; simpl in H.
  2:{ destruct (generate_virtual_surface imp); injection H as <- <-;
      left; reflexivity. }
  destruct (occupancyType src_map key) eqn:Hty; simpl in H;
    try (destruct (generate_virtual_surface imp) eqn:Hgen; simpl in H);
    injection H as <- <-;
    first [ left; reflexivity | right; exists key; cbv zeta; rewrite Hty; auto ].
Qed.

Lemma visitColumn_built fuel hm count walk_key hm' count' :
  visit fuel hm count walk_key = Some (hm', count') ->
  occupancyForall builtValue hm -> occupancyForall builtValue hm'.
Proof.
  intros H Hinv.
  destruct (visitColumn_write _ _ _ _ _ _ H)
    as [-> | (key & [[_ ->] | (_ & _ & ->)])].
  - assumption.
  - apply occupancyForall_write; unfold builtValue; auto.
  - apply occupancyForall_write; unfold builtValue; auto.
Qed.

Lemma visitColumns_built fuel walk : forall hm count hm' count',
  visits fuel hm count walk = Some (hm', count') ->
  occupancyForall builtValue hm -> occupancyForall builtValue hm'.
Proof.
  induction walk as [|walk_key walk IH]; intros hm count hm' count' H Hinv;
    simpl in H.
  - injection H as <- <-. assumption.
  - destruct (visit fuel hm count walk_key) as [[hm1 count1]|] eqn:Hv;
      [|discriminate].
    eapply IH; [exact H|]. eapply visitColumn_built; eassumption.
Qed.


End BuildFacts.


(** Scenarios S4 and S5 of the specification on single columns: an occupied
    ground voxel is written as +1.0, a virtual surface as -1.0. *)
Example build_real_surface :
  option_map (fun r => readOccupancy (fst r) (zkey 0))
    (buildHeightmapT ground_map zheight zheight (fun key => key)
       (imp_z 3 false false) (zkey 0) (zkey 7) 8 2 20 empty_heightmap [zkey 1])
  = Some kHeightmapSurfaceValue.
Proof. vm_compute. reflexivity. Qed.

Example build_virtual_surface :
  option_map (fun r => readOccupancy (fst r) (zkey 0))
    (buildHeightmapT virtual_map zheight zheight (fun key => key)
       (imp_z 3 true false) (zkey 0) (zkey 7) 8 2 20 empty_heightmap [zkey 1])
  = Some kHeightmapVirtualSurfaceValue.
Proof. vm_compute. reflexivity. Qed.

(** *** buildHeightmapT returns *)

Section BuildReturns.
Variable src_map : OccupancyMap.
Variables positionHeight centreHeight : Key -> f64.
Variable heightmapVoxelKey : Key -> Key.
Variable imp : HeightmapDetail.
Variables min_ext_key max_ext_key : Key.
Variables voxel_ceiling clearance_voxel_count_permissive : Z.

Local Abbreviation dims := (region_voxel_dimensions src_map).
Local Abbreviation axis := (vertical_axis_index imp).

Hypothesis Haxis : (axis < 3)%nat.
Hypothesis Hup :
  Z.to_nat (if 0 <=? up_axis_id imp then up_axis_id imp else - up_axis_id imp - 1)
  = axis.
Hypothesis Hmin : validAxis dims min_ext_key axis.
Hypothesis Hmax : validAxis dims max_ext_key axis.
Hypothesis Hmin_region : - 2 ^ 15 < vget (regionKey min_ext_key) axis.
Hypothesis Hmax_region : vget (regionKey max_ext_key) axis < 2 ^ 15 - 1.

Variable fuel : nat.
Hypothesis Hfuel : (Z.to_nat (2 ^ 16 * vget dims axis) <= fuel)%nat.

Lemma visitColumn_returns heightmap populated_count walk_key :
  validAxis dims walk_key axis ->
  exists r,
    visitColumn src_map positionHeight centreHeight heightmapVoxelKey imp
      min_ext_key max_ext_key voxel_ceiling clearance_voxel_count_permissive
      fuel heightmap populated_count walk_key = Some r.
Proof.
  intros Hwalk. unfold visitColumn.
  destruct (findNearestSupportingVoxel_returns src_map axis Haxis walk_key
              (up_axis_id imp) min_ext_key max_ext_key voxel_ceiling
              clearance_voxel_count_permissive (generate_virtual_surface imp)
              (promote_virtual_below imp) Hup Hwalk) as (candidate & -> & Hcand).
  assert (exists ground_key,
            match candidate with
            | Some candidate =>
                match findGround src_map positionHeight centreHeight fuel candidate
                        min_ext_key max_ext_key imp with
                | None => None
                | Some (Some (ground_key, _, _)) => Some (Some ground_key)
                | Some None => Some None
                end
            | None => Some (Some walk_key)
            end = Some ground_key) as (ground_key & ->).
  { destruct candidate as [candidate|]; [|eauto].
    destruct (findGround_returns src_map positionHeight centreHeight imp
                min_ext_key max_ext_key Haxis Hmin Hmax Hmin_region Hmax_region
                fuel candidate Hcand Hfuel) as (r & ->).
    destruct r as [[[ground_key ?] ?]|]; eauto. }
  cbv zeta.
  destruct ground_key as [ground_key|];
    repeat match goal with
           | |- context [if ?c then _ else _] => destruct c
           end; eauto.
Qed.

Lemma visitColumns_returns walk : forall heightmap populated_count,
  Forall (fun walk_key => validAxis dims walk_key axis) walk ->
  exists r,
    visitColumns src_map positionHeight centreHeight heightmapVoxelKey imp
      min_ext_key max_ext_key voxel_ceiling clearance_voxel_count_permissive
      fuel heightmap populated_count walk = Some r.
Proof.
  induction walk as [|walk_key walk IH]; intros heightmap populated_count Hwalk;
    simpl; [eauto|].
  apply Forall_cons in Hwalk as [Hkey Hwalk].
  destruct (visitColumn_returns heightmap populated_count walk_key Hkey)
    as ([hm count] & ->).
  apply IH. assumption.
Qed.

(** On valid keys, between extents that stay clear of the ends of the region
    range and with fuel for a whole column, the build completes. *)
Lemma buildHeightmapT_returns heightmap walk :
  Forall (fun walk_key => validAxis dims walk_key axis) walk ->
  exists built populated,
    buildHeightmapT src_map positionHeight centreHeight heightmapVoxelKey imp
      min_ext_key max_ext_key voxel_ceiling clearance_voxel_count_permissive
      fuel heightmap walk = Some (built, populated).
Proof.
  intros Hwalk. unfold buildHeightmapT.
  destruct (visitColumns_returns walk (clear heightmap) 0 Hwalk) as ([hm count] & ->).
  eauto.
Qed.

End BuildReturns.

End HmFacts.

(** ** The version-0 chunk loader *)

Module SerialiseFacts.

Import SerialiseV0 SerialiseExamples.

Lemma readValue_spec n decode stream old :
  readValue n decode stream old
  = ((n <=? length stream)%nat,
     if (n <=? length stream)%nat then decode (le_unsigned (take n stream)) else old,
     drop n stream).
Proof.
  unfold readValue, streamRead. rewrite length_take.
  destruct (Nat.leb_spec n (length stream)).
  - rewrite Nat.min_l by lia. rewrite Nat.eqb_refl. reflexivity.
  - rewrite Nat.min_r by lia.
    destruct (Nat.eqb_spec (length stream) n); [lia | reflexivity].
Qed.

(** The region header is 44 bytes: the reads succeed together exactly when
    the stream holds them, and the voxel layers are not touched. *)
Lemma readRegion_spec stream chunk :
  fst (fst (readRegion stream chunk)) = (44 <=? length stream)%nat /\
  snd (readRegion stream chunk) = drop 44 stream /\
  occupancy (snd (fst (readRegion stream chunk))) = occupancy chunk /\
  clearance (snd (fst (readRegion stream chunk))) = clearance chunk.
Proof.
  unfold readRegion.
  repeat (rewrite readValue_spec; cbv beta iota zeta).
  rewrite !drop_drop, !length_drop. cbn [fst snd occupancy clearance].
  repeat split; try reflexivity.
  repeat match goal with
         | |- context [(?a <=? ?b)%nat] => destruct (Nat.leb_spec a b)
         end; simpl; try reflexivity; lia.
Qed.

(** The loop stores [f i] at every index below [count]. *)
Lemma deinterleave_lookup node_data count : forall occ clr,
  (count <= length occ)%nat -> (count <= length clr)%nat ->
  let layers := deinterleave node_data count (occ, clr) in
  length (fst layers) = length occ /\ length (snd layers) = length clr /\
  forall i, (i < count)%nat ->
    fst layers !! i = Some (node_data (2 * i)%nat) /\
    snd layers !! i = Some (node_data (2 * i + 1)%nat).
Proof.
  unfold deinterleave.
  induction count as [|count IH]; intros occ clr Hocc Hclr; cbv zeta.
  - simpl. repeat split; intros; lia.
  - rewrite seq_S, foldl_app. simpl.
    destruct (IH occ clr ltac:(lia) ltac:(lia)) as (Hlo & Hlc & Hl).
    destruct (foldl _ (occ, clr) (seq 0 count)) as [occ' clr']; simpl in *.
    rewrite !length_insert. repeat split; try assumption.
    + destruct (Nat.eq_dec i count) as [-> | Hne].
      * apply list_lookup_insert_eq. lia.
      * rewrite list_lookup_insert_ne by lia. apply Hl. lia.
    + destruct (Nat.eq_dec i count) as [-> | Hne].
      * apply list_lookup_insert_eq. lia.
      * rewrite list_lookup_insert_ne by lia. apply Hl. lia.
Qed.

Lemma nodeCount_range dims : 0 <= nodeCount dims < 2 ^ 32.
Proof. unfold nodeCount, uint32. apply Z.mod_pos_bound. reflexivity. Qed.

Lemma nodeByteCount_eq dims : nodeByteCount dims = 8 * nodeCount dims.
Proof.
  unfold nodeByteCount. pose proof (nodeCount_range dims).
  rewrite Z.mod_small; [lia|]. change (2 ^ 32) with 4294967296 in H.
  change (2 ^ 64) with 18446744073709551616. lia.
Qed.

(** The overflow test fires exactly when the byte count needs more than 32
    bits. *)
Lemma overflow_test dims :
  negb (nodeByteCount dims =? uint32 (nodeByteCount dims)) = true
  <-> 2 ^ 32 <= 8 * nodeCount dims.
Proof.
  rewrite nodeByteCount_eq. unfold uint32.
  pose proof (nodeCount_range dims) as Hr.
  rewrite negb_true_iff, Z.eqb_neq.
  change (2 ^ 32) with 4294967296 in *.
  split.
  - intros Hne. destruct (Z_lt_le_dec (8 * nodeCount dims) 4294967296) as [Hlt|]; [|lia].
    rewrite Z.mod_small in Hne by lia. contradiction.
  - intros Hge Heq.
    pose proof (Z.mod_pos_bound (8 * nodeCount dims) 4294967296 ltac:(lia)). lia.
Qed.

(** With 8-bit region dimensions the test cannot fire. *)
Lemma overflow_unreachable dims :
  0 <= ix dims <= 255 -> 0 <= iy dims <= 255 -> 0 <= iz dims <= 255 ->
  8 * nodeCount dims < 2 ^ 32.
Proof.
  intros Hx Hy Hz. unfold nodeCount.
  assert (0 <= ix dims * iy dims <= 65025) by nia.
  rewrite (KeyFacts.int32_id (ix dims * iy dims)) by (simpl; lia).
  assert (0 <= ix dims * iy dims * iz dims <= 16581375) by nia.
  rewrite KeyFacts.int32_id by (simpl; lia).
  unfold uint32. rewrite Z.mod_small by (simpl; lia). simpl. lia.
Qed.

(** A float of the data block, read back from the vector. *)
Lemma nodeData_stored stream n j :
  (44 + 8 * n <= length stream)%nat -> (j < 2 * n)%nat ->
  nodeData (take (8 * n) (drop 44 stream)) (2 * n) j = storedFloat stream j.
Proof.
  intros Hlen Hj. unfold nodeData, storedFloat.
  rewrite length_take_le by (rewrite length_drop; lia).
  replace (4 * (2 * n) - 8 * n)%nat with 0%nat by lia. simpl replicate.
  rewrite app_nil_r.
  replace (8 * n)%nat with (4 * j + (8 * n - 4 * j))%nat by lia.
  rewrite <- take_drop_commute, take_take, drop_drop.
  rewrite Nat.min_l by lia. reflexivity.
Qed.

(** With 8-bit region dimensions the node count is the region voxel count,
    the plain product of the three dimensions. *)
Lemma nodeCount_u8 dims :
  isU8Vec3 dims -> nodeCount dims = Z.of_nat (regionVoxelCount dims).
Proof.
  intros (Hx & Hy & Hz). unfold nodeCount, regionVoxelCount.
  assert (0 <= ix dims * iy dims <= 65025) by nia.
  rewrite (KeyFacts.int32_id (ix dims * iy dims)) by (simpl; lia).
  assert (0 <= ix dims * iy dims * iz dims <= 16581375) by nia.
  rewrite KeyFacts.int32_id by (simpl; lia).
  unfold uint32. rewrite Z.mod_small by (simpl; lia). lia.
Qed.

(** C9: loading a version-0 chunk reads, after the 44-byte region header, an
    interleaved block of 2 N floats, N the region voxel count (the product of
    the three region dimensions), and de-interleaves it: for every voxel
    index i below N the occupancy layer receives element 2 i and the
    clearance layer element 2 i + 1 of the stored block, and the stream is
    left after the block.  If the block byte count does not fit the 32-bit
    size the load fails with [kSeValueOverflow], which 8-bit region
    dimensions never reach, and on a short read it fails with
    [kSeFileReadFailure]. *)
Theorem loadChunk_deinterleaves stream chunk dims :
  let N := regionVoxelCount dims in
  let result := loadChunk stream chunk dims in
  let err := fst (fst result) in
  let loaded := snd (fst result) in
  (2 ^ 32 <= nodeByteCount dims -> err = kSeValueOverflow) /\
  (isU8Vec3 dims ->
     nodeByteCount dims = 8 * Z.of_nat N /\
     err <> kSeValueOverflow /\
     ((length stream < 44 + 8 * N)%nat -> err = kSeFileReadFailure) /\
     ((44 + 8 * N <= length stream)%nat ->
        err = kSeOk /\
        snd result = drop (44 + 8 * N) stream /\
        (length (occupancy chunk) = N -> length (clearance chunk) = N ->
         length (occupancy loaded) = N /\ length (clearance loaded) = N /\
         forall i, (i < N)%nat ->
           occupancy loaded !! i = Some (storedFloat stream (2 * i)) /\
           clearance loaded !! i = Some (storedFloat stream (2 * i + 1))))).
Proof.
  intros N result err loaded. subst err loaded result.
  unfold loadChunk.
  match goal with
  | |- context [readRegion stream ?c] => set (chunk0 := c)
  end.
  destruct (readRegion_spec stream chunk0) as (Hok & Hrest & Hocc & Hclr).
  destruct (readRegion stream chunk0) as [[ok chunk1] rest];
    cbn [fst snd] in Hok, Hrest, Hocc, Hclr.
  subst ok rest. subst chunk0. cbn [occupancy clearance] in Hocc, Hclr.
  pose proof (overflow_test dims) as Hover.
  pose proof (nodeCount_range dims) as Hrange.
  pose proof (nodeByteCount_eq dims) as Hbyte.
  destruct (negb (nodeByteCount dims =? uint32 (nodeByteCount dims))) eqn:Htest.
  { assert (2 ^ 32 <= 8 * nodeCount dims) as Hge by (apply Hover; reflexivity).
    cbn [fst snd]. split; [reflexivity|].
    intros Hu8. pose proof (overflow_unreachable dims (proj1 Hu8)
                              (proj1 (proj2 Hu8)) (proj2 (proj2 Hu8))). lia. }
  assert (8 * nodeCount dims < 2 ^ 32) as Hfit.
  { destruct (Z_lt_le_dec (8 * nodeCount dims) (2 ^ 32)) as [|Hge]; [assumption|].
    apply Hover in Hge. discriminate. }
  split; [intros; lia|].
  intros Hu8. pose proof (nodeCount_u8 dims Hu8) as Hcount8. fold N in Hcount8.
  split; [lia|].
  change (2 ^ 32) with 4294967296 in *.
  assert (uint32 (nodeByteCount dims) = 8 * nodeCount dims) as Hbytes.
  { rewrite nodeByteCount_eq. unfold uint32. apply Z.mod_small.
    change (2 ^ 32) with 4294967296. lia. }
  assert (Z.to_nat (uint32 (nodeCount dims * 2)) = (2 * N)%nat) as Hsize.
  { unfold uint32. rewrite Z.mod_small by (change (2 ^ 32) with 4294967296; lia).
    lia. }
  assert (Z.to_nat (uint32 (Z.of_nat (2 * N) / 2)) = N) as Hcount.
  { replace (Z.of_nat (2 * N)) with (Z.of_nat N * 2) by lia.
    rewrite Z.div_mul by lia. unfold uint32.
    rewrite Z.mod_small by (change (2 ^ 32) with 4294967296; lia). lia. }
  destruct (Nat.leb_spec 44 (length stream)) as [Hhdr | Hhdr].
  2:{ cbn [fst snd]. split; [discriminate|]. split; intros; [reflexivity | lia]. }
  unfold streamRead. rewrite Hbytes, Hsize, Hcount, nodeByteCount_eq.
  replace (Z.to_nat (8 * nodeCount dims)) with (8 * N)%nat by lia.
  destruct (deinterleave (nodeData (take (8 * N) (drop 44 stream)) (2 * N)) N
              (occupancy chunk1, clearance chunk1)) as [occ' clr'] eqn:Hde.
  cbn [fst snd occupancy clearance].
  rewrite length_take, length_drop, andb_true_r.
  split.
  { destruct (Z.of_nat (Nat.min (8 * N) (length stream - 44)) =? 8 * nodeCount dims);
      discriminate. }
  split.
  - intros Hshort.
    destruct (Z.eqb_spec (Z.of_nat (Nat.min (8 * N) (length stream - 44)))
                (8 * nodeCount dims)); [lia | reflexivity].
  - intros Hlong.
    destruct (Z.eqb_spec (Z.of_nat (Nat.min (8 * N) (length stream - 44)))
                (8 * nodeCount dims)) as [_ | Hne]; [|lia].
    split; [reflexivity|].
    split; [rewrite drop_drop; f_equal; lia|].
    intros Hlo Hlc.
    pose proof (deinterleave_lookup
                  (nodeData (take (8 * N) (drop 44 stream)) (2 * N)) N
                  (occupancy chunk1) (clearance chunk1)
                  ltac:(rewrite Hocc; cbn [occupancy]; lia)
                  ltac:(rewrite Hclr; cbn [clearance]; lia))
      as Hl.
    cbv zeta in Hl. rewrite Hde in Hl. cbn [fst snd] in Hl.
    destruct Hl as (Hlen1 & Hlen2 & Hl).
    rewrite Hocc in Hlen1. rewrite Hclr in Hlen2. cbn [occupancy clearance] in *.
    split; [lia|]. split; [lia|].
    intros i Hi. destruct (Hl i Hi) as [H1 H2].
    rewrite H1, H2, !nodeData_stored by lia. split; reflexivity.
Qed.

(** The theorem at a region of 1 x 1 x 2 voxels whose four stored floats
    have the bit patterns 1, 2, 3 and 4. *)
Lemma loadChunk_deinterleaves_witness :
  isU8Vec3 dims112 /\ regionVoxelCount dims112 = 2%nat /\
  nodeByteCount dims112 = 16 /\
  fst (fst (loadChunk stream2 chunk2 dims112)) = kSeOk /\
  snd (loadChunk stream2 chunk2 dims112) = [] /\
  occupancy (snd (fst (loadChunk stream2 chunk2 dims112))) !! 0%nat = Some 1 /\
  clearance (snd (fst (loadChunk stream2 chunk2 dims112))) !! 0%nat = Some 2 /\
  occupancy (snd (fst (loadChunk stream2 chunk2 dims112))) !! 1%nat = Some 3 /\
  clearance (snd (fst (loadChunk stream2 chunk2 dims112))) !! 1%nat = Some 4.
Proof.
  assert (isU8Vec3 dims112) as Hu8 by (unfold isU8Vec3, dims112; cbn; lia).
  destruct (loadChunk_deinterleaves stream2 chunk2 dims112) as [_ Hload].
  destruct (Hload Hu8) as (Hbytes & _ & _ & Hlong).
  destruct Hlong as (Herr & Hrest & Hlayers); [vm_compute; lia|].
  destruct Hlayers as (_ & _ & Hl); [reflexivity | reflexivity |].
  destruct (Hl 0%nat) as [Ho0 Hc0]; [vm_compute; lia|].
  destruct (Hl 1%nat) as [Ho1 Hc1]; [vm_compute; lia|].
  split; [exact Hu8|]. split; [reflexivity|].
  split; [exact Hbytes|]. split; [exact Herr|]. split; [exact Hrest|].
  split; [exact Ho0|]. split; [exact Hc0|]. split; [exact Ho1 | exact Hc1].
Defined.

(** A region of two voxels: the four stored floats 1, 2, 3, 4 are loaded as
    occupancy [1; 3] and clearance [2; 4]; a truncated stream is a read
    failure and an oversized region a value overflow. *)
Example loadChunk_two_voxels :
  let result := loadChunk stream2 chunk2 dims112 in
  fst (fst result) = kSeOk /\
  occupancy (snd (fst result)) = [1; 3] /\ clearance (snd (fst result)) = [2; 4] /\
  fst (fst (loadChunk (take 50 stream2) chunk2 dims112)) = kSeFileReadFailure /\
  fst (fst (loadChunk stream2 chunk2 (IVec3 1024 1024 1024))) = kSeValueOverflow.
Proof. vm_compute. repeat split; reflexivity. Qed.

End SerialiseFacts.

(** ** Incident normals *)

Module IncidentFacts.

Import Incident.
Local Open Scope R_scope.

Lemma epsilon_pos : 0 < epsilon.
Proof.
  unfold epsilon. apply Rdiv_lt_0_compat; apply IZR_lt; reflexivity.
Qed.

(** Scaling a vector by [normaliser] of its squared length leaves a unit
    vector or the zero vector. *)
Lemma scale_normaliser (v : Vec3) :
  let r := scale v (normaliser (length2 v)) in
  r = zero3 \/ length2 r = 1.
Proof.
  cbv zeta. unfold normaliser.
  destruct (Rlt_dec epsilon (length2 v)) as [Hgt | Hle].
  - right.
    assert (0 < length2 v) as Hpos by (pose proof epsilon_pos; lra).
    assert (0 < sqrt (length2 v)) as Hs by (apply sqrt_lt_R0; exact Hpos).
    assert (sqrt (length2 v) * sqrt (length2 v) = length2 v) as Hsq
        by (apply sqrt_sqrt; lra).
    unfold scale, length2 at 1; simpl.
    set (s := sqrt (length2 v)) in *.
    transitivity (length2 v / (s * s)).
    + unfold length2. field. lra.
    + rewrite Hsq. field. lra.
  - left. unfold scale, zero3. rewrite !Rmult_0_r. reflexivity.
Qed.

Lemma effectiveCount_range normal point_count :
  (0 <= point_count < 2 ^ 32)%Z ->
  (0 <= effectiveCount normal point_count < 2 ^ 32)%Z /\
  (effectiveCount normal point_count = (2 ^ 32 - 1)%Z ->
   nonzero normal = true /\ point_count = (2 ^ 32 - 1)%Z).
Proof.
  intros Hpc. unfold effectiveCount.
  destruct (nonzero normal); cbn [andb].
  - destruct (Z.eqb_spec point_count 0); cbn [negb].
    + split; [lia | intros Habs; discriminate Habs].
    + split; [assumption | intros ->; split; reflexivity].
  - split; [lia | intros Habs; discriminate Habs].
Qed.

(** C10: for every normal, incident ray and point count for which
    [point_count + 1] does not wrap to 0 (every point count of an [unsigned]
    but 2^32 - 1, and that one too when the normal is zero), the vector
    [updateIncidentNormalV3] returns is the zero vector or has squared
    length 1 in exact real arithmetic: the averaged normal is renormalised
    before it is returned, and a squared length at or below the [1e-6f]
    threshold is mapped to zero. *)
Theorem incident_normal_unit_or_zero (normal incident_ray : Vec3) (point_count : Z) :
  (0 <= point_count < 2 ^ 32)%Z ->
  nonzero normal = false \/ point_count <> (2 ^ 32 - 1)%Z ->
  exists r,
    updateIncidentNormalV3 normal incident_ray point_count = Some r /\
    (r = zero3 \/ length2 r = 1).
Proof.
  intros Hpc Hwrap. unfold updateIncidentNormalV3. cbv zeta.
  destruct (effectiveCount_range normal point_count Hpc) as [Hrange Hmax].
  assert (uint32 (effectiveCount normal point_count + 1) <> 0%Z) as Hne.
  { unfold uint32. intros Hzero.
    assert (effectiveCount normal point_count = (2 ^ 32 - 1)%Z) as Heq.
    { destruct (Z.eq_dec (effectiveCount normal point_count) (2 ^ 32 - 1)%Z)
        as [|Hlt]; [assumption|].
      rewrite Z.mod_small in Hzero by lia. lia. }
    destruct (Hmax Heq) as [Hnz Hpc']. destruct Hwrap; congruence. }
  apply Z.eqb_neq in Hne. rewrite Hne.
  eexists. split; [reflexivity|]. apply scale_normaliser.
Qed.

Lemma incident_normal_unit_or_zero_witness :
  exists r,
    updateIncidentNormalV3 (MkVec3 1 0 0) (MkVec3 0 1 0) 1 = Some r /\
    (r = zero3 \/ length2 r = 1).
Proof.
  apply (incident_normal_unit_or_zero (MkVec3 1 0 0) (MkVec3 0 1 0) 1).
  - split; [lia | reflexivity].
  - right. discriminate.
Defined.

(** At [point_count = 2^32 - 1] with a normal that is not zero the sum
    [point_count + 1] wraps to 0.  In real arithmetic the function then has
    no value; in [float] arithmetic [1.0f / 0.0f] is infinite, the averaged
    normal is (-inf, +inf, NaN) and the vector returned is (NaN, NaN, NaN),
    neither zero nor of length 1. *)
Lemma incident_normal_wrap_counterexample :
  updateIncidentNormalV3 (MkVec3 1 0 0) (MkVec3 0 1 0) (2 ^ 32 - 1) = None /\
  NormalPack.updateIncidentNormalV3
    (NormalPack.MkVec3f F32.one F32.zero F32.zero)
    (NormalPack.MkVec3f F32.zero F32.one F32.zero) (2 ^ 32 - 1)
  = NormalPack.MkVec3f S754_nan S754_nan S754_nan.
Proof.
  split.
  - unfold updateIncidentNormalV3. cbv zeta.
    assert (effectiveCount (MkVec3 1 0 0) (2 ^ 32 - 1) = (2 ^ 32 - 1)%Z) as ->.
    { unfold effectiveCount, nonzero, neq0. cbn [nx ny nz].
      destruct (Req_dec_T 1 0) as [Habs | _]; [lra | reflexivity]. }
    reflexivity.
  - vm_compute. reflexivity.
Qed.

End IncidentFacts.

(** ** Key stepping: validity, frame and composition *)

Module KeySteps.

Import KeyMath KeyExamples KeyFacts.

(** Two keys with the same coordinates on the three axes are the same key. *)
Lemma key_ext (a b : Key) :
  (forall axis, (axis < 3)%nat ->
     vget (regionKey a) axis = vget (regionKey b) axis /\
     vget (localKey a) axis = vget (localKey b) axis) ->
  a = b.
Proof.
  intros H.
  destruct (H 0%nat ltac:(lia)) as [Hr0 Hl0].
  destruct (H 1%nat ltac:(lia)) as [Hr1 Hl1].
  destruct (H 2%nat ltac:(lia)) as [Hr2 Hl2].
  destruct a as [[? ? ?] [? ? ?]], b as [[? ? ?] [? ? ?]]; simpl in *.
  congruence.
Qed.

Lemma vget_vset_ne v axis other a :
  (axis < 3)%nat -> (other < 3)%nat -> other <> axis ->
  vget (vset v axis a) other = vget v other.
Proof.
  intros Ha Ho Hne.
  destruct axis as [|[|[|?]]], other as [|[|[|?]]]; try lia; reflexivity.
Qed.

(** The axes that are not stepped keep their coordinates. *)
Lemma moveKeyAlongAxis_frame key axis step dims other :
  (axis < 3)%nat -> (other < 3)%nat -> other <> axis ->
  validAxis dims key other ->
  let key' := moveKeyAlongAxis key axis step dims in
  vget (regionKey key') other = vget (regionKey key) other /\
  vget (localKey key') other = vget (localKey key) other.
Proof.
  intros Ha Ho Hne (Hreg & Hloc & Hdim) key'. subst key'.
  unfold moveKeyAlongAxis.
  destruct (step =? 0); [split; reflexivity|].
  assert (forall r l : ivec3,
            vget l other = vget (localKey key) other ->
            vget (localKey (makeKey r (ix l) (iy l) (iz l))) other
            = vget (localKey key) other) as Hmk.
  { intros r l Hl. unfold makeKey; simpl.
    destruct other as [|[|[|?]]]; try lia; simpl in *;
      rewrite uint8_id; lia. }
  destruct (0 <? step); cbv zeta.
  - split.
    + unfold makeKey; simpl. apply vget_vset_ne; assumption.
    + apply Hmk. rewrite !vget_vset_ne by assumption. reflexivity.
  - split.
    + unfold makeKey; simpl. apply vget_vset_ne; assumption.
    + apply Hmk.
      repeat match goal with
             | |- context [if ?c then _ else _] => destruct c
             end; rewrite ?vget_vset_ne by assumption; reflexivity.
Qed.

Lemma moveKeyAlongAxis_validKey key axis step dims :
  (axis < 3)%nat ->
  validKey dims key ->
  - 2 ^ 30 <= step <= 2 ^ 30 ->
  validKey dims (moveKeyAlongAxis key axis step dims).
Proof.
  intros Haxis Hvalid Hstep other Ho.
  destruct (Nat.eq_dec other axis) as [-> | Hne].
  - apply moveKeyAlongAxis_validAxis; auto.
  - destruct (moveKeyAlongAxis_frame key axis step dims other Haxis Ho Hne
                (Hvalid other Ho)) as [Hr Hl].
    unfold validAxis. rewrite Hr, Hl. apply Hvalid. assumption.
Qed.

(** X1: [moveKeyAlongAxis] keeps a valid key valid for every step of
    magnitude up to 2^30, also when the region coordinate wraps: the stepped
    axis ends with a local coordinate inside the region and a region
    coordinate in the [int16_t] range, and the two other axes keep their
    region and local coordinates. *)
Theorem step_keeps_key_valid key axis step dims :
  (axis < 3)%nat ->
  validKey dims key ->
  - 2 ^ 30 <= step <= 2 ^ 30 ->
  let key' := moveKeyAlongAxis key axis step dims in
  validKey dims key' /\
  forall other, (other < 3)%nat -> other <> axis ->
    vget (regionKey key') other = vget (regionKey key) other /\
    vget (localKey key') other = vget (localKey key) other.
Proof.
  intros Haxis Hvalid Hstep key'. split.
  - apply moveKeyAlongAxis_validKey; assumption.
  - intros other Ho Hne. apply moveKeyAlongAxis_frame; auto.
Qed.

(** The theorem applies to a step of 70000 regions' worth of voxels, which
    wraps the region coordinate. *)
Lemma step_keeps_key_valid_witness :
  validKey dims8 (moveKeyAlongAxis key_235 0 560000 dims8) /\
  forall other, (other < 3)%nat -> other <> 0%nat ->
    vget (regionKey (moveKeyAlongAxis key_235 0 560000 dims8)) other
      = vget (regionKey key_235) other /\
    vget (localKey (moveKeyAlongAxis key_235 0 560000 dims8)) other
      = vget (localKey key_235) other.
Proof.
  apply (step_keeps_key_valid key_235 0 560000 dims8).
  - lia.
  - exact key_235_valid.
  - simpl. lia.
Defined.

(** X2: steps along an axis add up.  For a valid key, as long as the region
    coordinate stays in the [int16_t] range after the first step and after
    both, stepping by [n] and then by [m] gives the key that one step of
    [n + m] gives; in particular stepping back by [-n] returns the key the
    walk started from. *)
Theorem steps_add_up key axis n m dims :
  (axis < 3)%nat ->
  validKey dims key ->
  - 2 ^ 15 <= vget (regionKey key) axis
              + (vget (localKey key) axis + n) / vget dims axis < 2 ^ 15 ->
  - 2 ^ 15 <= vget (regionKey key) axis
              + (vget (localKey key) axis + (n + m)) / vget dims axis < 2 ^ 15 ->
  moveKeyAlongAxis (moveKeyAlongAxis key axis n dims) axis m dims
    = moveKeyAlongAxis key axis (n + m) dims
  /\ moveKeyAlongAxis (moveKeyAlongAxis key axis n dims) axis (- n) dims = key.
Proof.
  intros Haxis Hvalid Hn Hnm.
  destruct (Hvalid axis Haxis) as (Hreg & Hloc & Hdim).
  set (lim := vget dims axis) in *.
  set (l0 := vget (localKey key) axis) in *.
  set (r0 := vget (regionKey key) axis) in *.
  assert (0 < lim) as Hlim by lia.
  (* the steps are far inside the [int] range *)
  assert (forall s, - 2 ^ 15 <= r0 + (l0 + s) / lim < 2 ^ 15 ->
                    - 2 ^ 29 <= s <= 2 ^ 29) as Hsmall.
  { intros s Hs.
    pose proof (Z.div_mod (l0 + s) lim ltac:(lia)) as Hdm.
    pose proof (Z.mod_pos_bound (l0 + s) lim Hlim).
    change (2 ^ 15) with 32768 in *. change (2 ^ 29) with 536870912. nia. }
  pose proof (Hsmall n Hn) as Hn30.
  pose proof (Hsmall (n + m) Hnm) as Hnm30.
  change (2 ^ 29) with 536870912 in *.
  assert (- 2 ^ 30 <= n <= 2 ^ 30) as Hn' by (simpl; lia).
  assert (- 2 ^ 30 <= m <= 2 ^ 30) as Hm' by (simpl; lia).
  assert (- 2 ^ 30 <= n + m <= 2 ^ 30) as Hnm' by (simpl; lia).
  pose proof (moveKeyAlongAxis_validKey key axis n dims Haxis Hvalid Hn') as Hvalid1.
  assert (forall other, (other < 3)%nat -> other <> axis ->
            vget (regionKey (moveKeyAlongAxis key axis n dims)) other
              = vget (regionKey key) other /\
            vget (localKey (moveKeyAlongAxis key axis n dims)) other
              = vget (localKey key) other) as Hframe1.
  { intros other Ho Hne. apply moveKeyAlongAxis_frame; auto. }
  destruct (moveKeyAlongAxis_axis key axis n dims Haxis Hvalid Hn) as [Hr1 Hl1].
  destruct (moveKeyAlongAxis_axis key axis (n + m) dims Haxis Hvalid Hnm)
    as [Hr2 Hl2].
  set (key1 := moveKeyAlongAxis key axis n dims) in *.
  fold lim l0 r0 in Hr1, Hl1, Hr2, Hl2.
  assert (forall s, - 2 ^ 30 <= s <= 2 ^ 30 ->
            vget (regionKey key) axis + (vget (localKey key) axis + (n + s)) / lim
              = vget (regionKey key1) axis + (vget (localKey key1) axis + s) / lim
            /\ (vget (localKey key) axis + (n + s)) mod lim
              = (vget (localKey key1) axis + s) mod lim) as Hsplit.
  { intros s Hs. fold l0 r0. rewrite Hr1, Hl1.
    pose proof (Z.div_mod (l0 + n) lim ltac:(lia)) as Hdm.
    replace (l0 + (n + s)) with ((l0 + n) / lim * lim + ((l0 + n) mod lim + s)) by lia.
    rewrite Z.div_add_l by lia.
    rewrite (Z.add_comm ((l0 + n) / lim * lim)), Z_mod_plus_full.
    split; [lia | reflexivity]. }
  assert (forall s key2, - 2 ^ 30 <= s <= 2 ^ 30 ->
            validKey dims key2 ->
            (forall other, (other < 3)%nat -> other <> axis ->
               vget (regionKey key2) other = vget (regionKey key) other /\
               vget (localKey key2) other = vget (localKey key) other) ->
            - 2 ^ 15 <= r0 + (l0 + (n + s)) / lim < 2 ^ 15 ->
            vget (regionKey key2) axis = r0 + (l0 + (n + s)) / lim ->
            vget (localKey key2) axis = (l0 + (n + s)) mod lim ->
            moveKeyAlongAxis key1 axis s dims = key2) as Hsame.
  { intros s key2 Hs Hvalid2 Hframe2 Hrange Hr Hl.
    destruct (Hsplit s Hs) as [Hq Hmod]. fold l0 r0 in Hq, Hmod.
    assert (forall other, (other < 3)%nat -> other <> axis ->
              vget (regionKey (moveKeyAlongAxis key1 axis s dims)) other
                = vget (regionKey key1) other /\
              vget (localKey (moveKeyAlongAxis key1 axis s dims)) other
                = vget (localKey key1) other) as Hframe.
    { intros other Ho Hne. apply moveKeyAlongAxis_frame; auto. }
    destruct (moveKeyAlongAxis_axis key1 axis s dims Haxis Hvalid1) as [Hr' Hl'].
    { fold lim. rewrite <- Hq. exact Hrange. }
    fold lim in Hr', Hl'.
    apply key_ext. intros other Ho.
    destruct (Nat.eq_dec other axis) as [-> | Hne].
    - rewrite Hr', Hl', Hr, Hl, <- Hq, <- Hmod. split; reflexivity.
    - destruct (Hframe other Ho Hne) as [-> ->].
      destruct (Hframe1 other Ho Hne) as [-> ->].
      destruct (Hframe2 other Ho Hne) as [-> ->]. split; reflexivity. }
  split.
  - apply Hsame; auto.
    + apply moveKeyAlongAxis_validKey; assumption.
    + intros other Ho Hne. apply moveKeyAlongAxis_frame; auto.
  - apply Hsame.
    + simpl in *; lia.
    + exact Hvalid.
    + intros; split; reflexivity.
    + replace (n + - n) with 0 by lia. rewrite Z.add_0_r, Z.div_small by lia. lia.
    + replace (n + - n) with 0 by lia. rewrite Z.add_0_r, Z.div_small by lia. lia.
    + replace (n + - n) with 0 by lia. rewrite Z.add_0_r, Z.mod_small by lia.
      reflexivity.
Qed.

Lemma steps_add_up_witness :
  moveKeyAlongAxis (moveKeyAlongAxis key_235 2 (-13) dims8) 2 30 dims8
    = moveKeyAlongAxis key_235 2 (-13 + 30) dims8
  /\ moveKeyAlongAxis (moveKeyAlongAxis key_235 2 (-13) dims8) 2 (- -13) dims8
      = key_235.
Proof.
  apply (steps_add_up key_235 2 (-13) 30 dims8).
  - lia.
  - exact key_235_valid.
  - vm_compute. split; [discriminate | reflexivity].
  - vm_compute. split; [discriminate | reflexivity].
Defined.

End KeySteps.

(** ** Heightmap column code: results of the searches *)

Module HmInfoFacts.

Import KeyMath Hm HmExamples HmInfo.

(** Comparison of two floats, read from the other side. *)
Lemma SFcompare_antisym (a b : spec_float) :
  SFcompare b a = option_map CompOpp (SFcompare a b).
Proof.
  destruct a as [sa|sa| |sa ma ea], b as [sb|sb| |sb mb eb]; simpl;
    try reflexivity; try (destruct sa; reflexivity); try (destruct sb; reflexivity);
    try (destruct sa, sb; reflexivity).
  destruct sa, sb; simpl; try reflexivity;
    rewrite (Z.compare_antisym ea eb);
    destruct (ea ?= eb) eqn:He; simpl; try reflexivity;
    rewrite (Pos.compare_cont_antisym ma mb Eq); simpl;
    destruct (Pos.compare_cont Eq ma mb); reflexivity.
Qed.

Lemma ltb_not_geb (a b : spec_float) : Ieee.ltb a b = true -> Ieee.geb a b = false.
Proof.
  unfold Ieee.ltb, Ieee.geb, SFltb, SFleb. rewrite (SFcompare_antisym a b).
  destruct (SFcompare a b) as [[| |]|]; simpl; congruence.
Qed.

Lemma not_geb_ltb (a b : spec_float) :
  Ieee.is_nan a = false -> Ieee.is_nan b = false ->
  Ieee.geb a b = false -> Ieee.ltb a b = true.
Proof.
  unfold Ieee.ltb, Ieee.geb, SFltb, SFleb. rewrite (SFcompare_antisym a b).
  intros Ha Hb.
  assert (SFcompare a b <> None) as Hsome.
  { destruct a as [sa|sa| |sa ma ea], b as [sb|sb| |sb mb eb];
      simpl in *; congruence. }
  destruct (SFcompare a b) as [[| |]|]; simpl; congruence.
Qed.

Lemma geb_nan_l (b : spec_float) : Ieee.geb S754_nan b = false.
Proof. destruct b; reflexivity. Qed.

Lemma ltb_nan_l (b : spec_float) : Ieee.ltb S754_nan b = false.
Proof. destruct b; reflexivity. Qed.

(** Nothing lies above positive infinity, the unobserved value. *)
Lemma unobserved_not_below (b : spec_float) :
  Ieee.ltb unobservedOccupancyValue b = false.
Proof. destruct b as [sb|sb| |sb mb eb]; try destruct sb; reflexivity. Qed.

Lemma ltb_not_unobserved (a b : spec_float) :
  Ieee.ltb a b = true -> Ieee.eqb a unobservedOccupancyValue = false.
Proof.
  intros H.
  destruct a as [sa|sa| |sa ma ea]; try destruct sa; try reflexivity.
  pose proof (unobserved_not_below b) as Hb.
  unfold unobservedOccupancyValue, Ieee.pinf in Hb. congruence.
Qed.

Lemma readOccupancy_no_chunk map key :
  hasChunk map key = false -> readOccupancy map key = unobservedOccupancyValue.
Proof.
  unfold hasChunk, readOccupancy. intros H. apply bool_decide_eq_false in H.
  destruct (chunk map key) as [voxels|]; [|reflexivity].
  contradiction H. eexists; reflexivity.
Qed.

(** X9: the column search and [occupancyType] classify a voxel alike,
    except for NaN.  The search takes a voxel for occupied exactly when
    [occupancyType] says [kOccupied]; a voxel the search takes for free is
    [kFree]; and a [kFree] voxel is free for the search unless its value or
    the threshold is NaN.  A stored NaN is [kFree] for [occupancyType], and
    so a possible virtual ground for [findGround], while the search takes
    it for neither free nor occupied. *)
Theorem search_and_occupancyType_agree map key :
  (isOccupied map key = true <-> occupancyType map key = kOccupied) /\
  (isFree map key = true -> occupancyType map key = kFree) /\
  (occupancyType map key = kFree ->
   Ieee.is_nan (readOccupancy map key) = false ->
   Ieee.is_nan (occupancy_threshold_value map) = false ->
   isFree map key = true) /\
  (hasChunk map key = true -> Ieee.is_nan (readOccupancy map key) = true ->
   occupancyType map key = kFree /\ isFree map key = false
   /\ isOccupied map key = false).
Proof.
  unfold isOccupied, isFree, occupancyType. cbv zeta.
  set (value := readOccupancy map key).
  set (threshold := occupancy_threshold_value map).
  destruct (hasChunk map key) eqn:Hchunk.
  - repeat split.
    + intros H. apply andb_true_iff in H as [-> ->]. reflexivity.
    + destruct (Ieee.geb value threshold), (Ieee.eqb value unobservedOccupancyValue);
        simpl; congruence.
    + intros H. rewrite (ltb_not_geb _ _ H), (ltb_not_unobserved _ _ H). reflexivity.
    + intros H Hv Ht. apply not_geb_ltb; [assumption | assumption |].
      destruct (Ieee.geb value threshold); [|reflexivity].
      destruct (Ieee.eqb value unobservedOccupancyValue); discriminate.
    + destruct value; try discriminate. rewrite geb_nan_l. reflexivity.
    + destruct value; try discriminate. apply ltb_nan_l.
    + destruct value; try discriminate. rewrite geb_nan_l. reflexivity.
  - pose proof (readOccupancy_no_chunk map key Hchunk) as Hread. fold value in Hread.
    rewrite Hread. repeat split; try discriminate.
    + rewrite andb_false_r. discriminate.
    + rewrite unobserved_not_below. discriminate.
Qed.

Section SearchResults.
Variable map : OccupancyMap.

(** The loop keeps [searchInv]; a voxel it returns from inside is
    occupied. *)
Lemma searchLoop_result fuel :
  forall vertical_range step axis (search_up allow : bool) i st offset0 r,
  0 <= i ->
  searchInv map allow offset0 (vertical_range + (if search_up then 1 else 0)) st ->
  searchLoop map fuel vertical_range step axis search_up allow i st = Some r ->
  match r with
  | FoundOccupied key off =>
      isOccupied map key = true
      /\ 0 <= off < vertical_range + (if search_up then 1 else 0)
  | Exhausted st' =>
      searchInv map allow offset0 (vertical_range + (if search_up then 1 else 0)) st'
  end.
Proof.
  induction fuel as [|fuel IH];
    intros vertical_range step axis search_up allow i st offset0 r Hi Hinv Hloop;
    simpl in Hloop;
    destruct (Z.ltb_spec i vertical_range) as [Hlt | Hge];
    try discriminate; try (injection Hloop as <-; exact Hinv).
  fold (isOccupied map (current_key st)) in Hloop.
  destruct (isOccupied map (current_key st)) eqn:Hocc.
  { injection Hloop as <-. split; [exact Hocc|]. destruct search_up; lia. }
  fold (isFree map (current_key st)) in Hloop.
  apply IH with (offset0 := offset0) in Hloop; [exact Hloop | |].
  { destruct (hasChunk map (current_key st)); lia. }
  destruct Hinv as (Hnone & Hlast & Hbest).
  repeat split; simpl.
  - discriminate.
  - destruct search_up; lia.
  - destruct search_up; lia.
  - intros Hfree. injection H as <-. exact Hfree.
  - destruct (allow && negb search_up && last_free st
              && negb (isFree map (current_key st))) eqn:Hdown; simpl in H.
    + rewrite !andb_true_iff in Hdown. tauto.
    + destruct (allow && search_up && isFree map (current_key st)
                && last_unknown st && bool_decide (best_virtual st = None)) eqn:Hup;
        simpl in H.
      * rewrite !andb_true_iff in Hup. tauto.
      * apply (Hbest key H).
  - destruct (allow && negb search_up && last_free st
              && negb (isFree map (current_key st))) eqn:Hdown; simpl in H.
    + rewrite !andb_true_iff in Hdown. destruct Hdown as [[_ Hlf] _].
      apply (Hlast key H). exact Hlf.
    + destruct (allow && search_up && isFree map (current_key st)
                && last_unknown st && bool_decide (best_virtual st = None)) eqn:Hup;
        simpl in H.
      * rewrite !andb_true_iff in Hup. injection H as <-. tauto.
      * apply (Hbest key H).
  - discriminate.
Qed.

(** The number of voxels a search may pass. *)
Local Abbreviation searchRange from_key to_key axis step_limit :=
  (let range :=
     vget (rangeBetween (region_voxel_dimensions map) from_key to_key) axis + 1 in
   let range := if 0 <=? range then range else - range in
   if 0 <? step_limit then Z.min range step_limit else range).

Lemma findNearestSupportingVoxel2_searchResult from_key to_key axis step_limit
    (search_up allow : bool) key off is_virtual :
  findNearestSupportingVoxel2 map from_key to_key axis step_limit search_up allow (-1)
    = Some (key, off, is_virtual) ->
  searchResult map allow
    (searchRange from_key to_key axis step_limit + (if search_up then 1 else 0))
    key off is_virtual.
Proof.
  unfold findNearestSupportingVoxel2. cbv zeta. intros Hfind.
  match type of Hfind with
  | context [searchLoop map ?fuel ?range ?step axis search_up allow 0 ?st] =>
      destruct (searchLoop map fuel range step axis search_up allow 0 st)
        as [r|] eqn:Hloop; [|discriminate];
      apply (searchLoop_result fuel range step axis search_up allow 0 st (-1)) in Hloop
  end.
  - destruct r as [found off' | st].
    + injection Hfind as <- <- <-. destruct Hloop as [Hocc Hoff].
      split; assumption.
    + destruct Hloop as (Hnone & Hlast & Hbest).
      destruct (best_virtual st) as [best|] eqn:Hb.
      * injection Hfind as <- <- <-.
        destruct (Hbest best eq_refl) as (Hallow & Hfree & Hsome).
        destruct (last_key st) as [last|] eqn:Hl; [|contradiction].
        destruct (Hlast last eq_refl) as [Hoff _].
        simpl. rewrite ?bool_decide_eq_true_2 by discriminate. auto.
      * destruct (allow && negb search_up && last_free st) eqn:Hend.
        -- injection Hfind as <- <- <-.
           rewrite !andb_true_iff in Hend. destruct Hend as [[Hallow _] Hlf].
           destruct (last_key st) as [last|] eqn:Hl; simpl.
           ++ destruct (Hlast last eq_refl) as [Hoff Hfree].
              rewrite ?bool_decide_eq_true_2 by discriminate. auto.
           ++ rewrite ?bool_decide_eq_false_2 by (intros H; apply H; reflexivity).
              auto.
        -- injection Hfind as <- <- <-. simpl.
           rewrite ?bool_decide_eq_false_2 by (intros H; apply H; reflexivity).
           auto.
  - lia.
  - repeat split; simpl; intros; discriminate.
Qed.

End SearchResults.

(** X3: what [findNearestSupportingVoxel2] hands back when the caller has
    preset the offset to -1.  A null key comes with offset -1 and is not
    flagged virtual.  A key comes with an offset that is non-negative and
    below the number of voxels the search may pass (the column range, cut
    to [step_limit] when that is positive; one more for an upward search);
    when it is not flagged virtual its voxel is occupied, and when it is
    flagged virtual, virtual surfaces are allowed and its voxel is free. *)
Theorem supporting_voxel_candidate map from_key to_key axis step_limit
    (search_up allow : bool) key off is_virtual :
  findNearestSupportingVoxel2 map from_key to_key axis step_limit search_up allow (-1)
    = Some (key, off, is_virtual) ->
  let range :=
    vget (rangeBetween (region_voxel_dimensions map) from_key to_key) axis + 1 in
  let range := if 0 <=? range then range else - range in
  let range := if 0 <? step_limit then Z.min range step_limit else range in
  match key with
  | None => off = -1 /\ is_virtual = false
  | Some key =>
      0 <= off < range + (if search_up then 1 else 0) /\
      if is_virtual then allow = true /\ isFree map key = true
      else isOccupied map key = true
  end.
Proof.
  intros Hfind. cbv zeta.
  exact (findNearestSupportingVoxel2_searchResult map from_key to_key axis step_limit
           search_up allow key off is_virtual Hfind).
Qed.

(** The theorem applies to the downward search of [column_map] from z = 5,
    which returns the free voxel z = 2 as a virtual candidate. *)
Lemma supporting_voxel_candidate_witness :
  0 <= 3 < 4 + 0 /\ true = true /\ isFree column_map (zkey 2) = true.
Proof.
  apply (supporting_voxel_candidate column_map (zkey 5) (zkey 0) 2 0 false true
           (Some (zkey 2)) 3 true).
  vm_compute. reflexivity.
Defined.

(** X4: [findNearestSupportingVoxel] never discards a lone candidate.  Its
    result is the key of one of the two searches, and it is the null key
    only when neither search has found a voxel. *)
Theorem supporting_voxel_lone_candidate
    map seed up_axis min_key max_key ceiling clearance allow promote
    below above off_b off_a vb va :
  let axis := Z.to_nat (if 0 <=? up_axis then up_axis else - up_axis - 1) in
  let down_to := if 0 <=? up_axis then min_key else max_key in
  let up_to := if 0 <=? up_axis then max_key else min_key in
  findNearestSupportingVoxel2 map seed down_to axis 0 false allow (-1)
    = Some (below, off_b, vb) ->
  findNearestSupportingVoxel2 map seed up_to axis ceiling true allow (-1)
    = Some (above, off_a, va) ->
  let r := findNearestSupportingVoxel map seed up_axis min_key max_key ceiling
             clearance allow promote in
  (r = Some below \/ r = Some above) /\
  (r = Some None <-> below = None /\ above = None).
Proof.
  intros axis down_to up_to Hdown Hup r. subst r.
  unfold findNearestSupportingVoxel. fold axis down_to up_to.
  rewrite Hdown, Hup.
  apply findNearestSupportingVoxel2_searchResult in Hdown, Hup.
  unfold selectSupportingVoxel.
  destruct below as [below|], above as [above|]; simpl in Hdown, Hup.
  - (* both searches have a candidate *)
    destruct Hdown as [Hb _], Hup as [Ha _].
    destruct (Z.leb_spec 0 off_b); [|lia]. destruct (Z.leb_spec 0 off_a); [|lia].
    repeat match goal with
           | |- context [if ?c then _ else _] => destruct c
           end; (split; [auto | split; [discriminate | intros [? ?]; discriminate]]).
  - destruct Hdown as [Hb _], Hup as [-> ->].
    destruct (Z.leb_spec 0 off_b); [|lia]. simpl.
    destruct (vb && negb promote); simpl;
      (split; [auto | split; [discriminate | intros [? ?]; discriminate]]).
  - destruct Hdown as [-> ->], Hup as [Ha _]. simpl.
    destruct (Z.leb_spec 0 off_a); [|lia].
    destruct va; simpl;
      (split; [auto | split; [discriminate | intros [? ?]; discriminate]]).
  - destruct Hdown as [-> ->], Hup as [-> ->]. simpl.
    split; [auto | split; auto].
Qed.

(** The theorem applies to [column_map] searched from z = 5. *)
Lemma supporting_voxel_lone_candidate_witness :
  let r := findNearestSupportingVoxel column_map (zkey 5) 2 (zkey 0) (zkey 7) 8 10
             true false in
  (r = Some (Some (zkey 2)) \/ r = Some (Some (zkey 6))) /\
  (r = Some None <-> Some (zkey 2) = None /\ Some (zkey 6) = None).
Proof.
  apply (supporting_voxel_lone_candidate column_map (zkey 5) 2 (zkey 0) (zkey 7) 8 10
           true false (Some (zkey 2)) (Some (zkey 6)) 3 2 true false).
  - vm_compute. reflexivity.
  - vm_compute. reflexivity.
Defined.

(** *** findGround *)

Section GroundTraceFacts.
Variable map : OccupancyMap.
Variables positionHeight centreHeight : Key -> f64.
Variable imp : HeightmapDetail.
Variables min_key max_key seed : Key.

Local Abbreviation keyAt := (columnKey map imp seed).
Local Abbreviation typeAt i := (occupancyType map (columnKey map imp seed i)).
Local Abbreviation heightAt i :=
  (heightOf map positionHeight centreHeight (columnKey map imp seed i)).
Local Abbreviation bounded i :=
  (isBounded (columnKey map imp seed i) (vertical_axis_index imp) min_key max_key).
Local Abbreviation Inv :=
  (traceInv map positionHeight centreHeight imp min_key max_key seed).
Local Abbreviation Exit :=
  (traceExit map positionHeight centreHeight imp min_key max_key seed).

Lemma walked_succ k :
  walked map imp min_key max_key seed k -> bounded k = true ->
  walked map imp min_key max_key seed (S k).
Proof.
  intros Hw Hb j Hj.
  destruct (Nat.eq_dec j k) as [-> | Hne]; [exact Hb | apply Hw; lia].
Qed.

Lemma groundLoop_trace fuel : forall k st st',
  Inv k st ->
  groundLoop map positionHeight centreHeight fuel imp min_key max_key (keyAt k) st
    = Some st' ->
  Exit st'.
Proof.
  induction fuel as [|fuel IH]; intros k st st' Hinv Hloop; simpl in Hloop.
  - destruct (bounded k) eqn:Hb; [discriminate|].
    injection Hloop as <-. left. exists k. split; assumption.
  - destruct (bounded k) eqn:Hb.
    2:{ injection Hloop as <-. left. exists k. split; assumption. }
    destruct Hinv as (Hwalk & Hheight & Hnull & Hcand).
    pose proof (walked_succ k Hwalk Hb) as Hwalk'.
    unfold groundBody in Hloop.
    assert (sourceVoxelHeight map positionHeight centreHeight (keyAt k)
            = (typeAt k, heightAt k)) as Hsv by reflexivity.
    rewrite Hsv in Hloop.
    destruct (bool_decide (typeAt k = kOccupied)
              || generate_virtual_surface imp
                 && (bool_decide (last_voxel_type st = kUnobserved)
                     || bool_decide (last_voxel_type st = kNull))
                 && bool_decide (typeAt k = kFree)
                 && bool_decide (candidate_voxel_type st = kNull)) eqn:Hcond.
    + assert (typeAt k <> kNull) as Htype.
      { apply orb_true_iff in Hcond as [Ho | Hv].
        - apply bool_decide_eq_true in Ho. congruence.
        - rewrite !andb_true_iff in Hv. destruct Hv as [[_ Hfree] _].
          apply bool_decide_eq_true in Hfree. congruence. }
      destruct (bool_decide (candidate_voxel_type st = kNull)) eqn:Hcn;
        simpl in Hloop.
      * (* first candidate *)
        apply (IH (S k) _) in Hloop; [assumption|].
        repeat split; simpl.
        -- exact Hwalk'.
        -- intros n Hn. injection Hn as <-. reflexivity.
        -- intros Hc. contradiction.
        -- intros _. exists k. split; [lia | split; reflexivity].
      * apply bool_decide_eq_false in Hcn.
        assert (typeAt k = kOccupied) as Hocc.
        { apply orb_true_iff in Hcond as [Ho | Hv].
          - apply bool_decide_eq_true in Ho. assumption.
          - rewrite !andb_true_iff in Hv. destruct Hv as [_ Hn]. discriminate. }
        destruct (Ieee.geb (F64.sub (heightAt k) (column_height st))
                           (min_clearance imp)).
        -- (* break *)
           injection Hloop as <-. right. exists k.
           destruct (Hcand Hcn) as (g & Hg & Hkey & Hh).
           split; [exact Hwalk'|]. split; [exact Hocc|]. split; [exact Hcn|].
           split; [reflexivity|]. split; [reflexivity|].
           exists g. split; [exact Hg | split; assumption].
        -- apply (IH (S k) _) in Hloop; [assumption|].
           repeat split; simpl.
           ++ exact Hwalk'.
           ++ intros n Hn. injection Hn as <-. reflexivity.
           ++ intros Hc. congruence.
           ++ intros _. exists k. split; [lia | split; reflexivity].
    + apply (IH (S k) _) in Hloop; [assumption|].
      repeat split; simpl.
      * exact Hwalk'.
      * intros n Hn. injection Hn as <-. reflexivity.
      * intros Hc j Hj.
        destruct (Nat.eq_dec j k) as [-> | Hne]; [|apply Hnull; [assumption | lia]].
        apply orb_false_iff in Hcond as [Ho _].
        apply bool_decide_eq_false in Ho. assumption.
      * intros Hc. destruct (Hcand Hc) as (g & Hg & Hkey & Hh).
        exists g. split; [lia | split; assumption].
Qed.

Lemma traceInv_init : Inv 0 groundInit.
Proof.
  repeat split.
  - intros j Hj. lia.
  - intros n Hn. discriminate.
  - intros _ j Hj. lia.
  - intros Hc. contradiction Hc. reflexivity.
Qed.

(** X5: [findGround] returns the null key only for a column in which it
    has met no occupied voxel: the walk then reached the first key outside
    the bounds, and no voxel of the walk, from the seed to the last key
    inside the bounds, is occupied. *)
Theorem ground_null_only_without_occupied fuel :
  findGround map positionHeight centreHeight fuel seed min_key max_key imp
    = Some None ->
  exists e,
    bounded e = false /\
    forall j, (j < e)%nat -> bounded j = true /\ typeAt j <> kOccupied.
Proof.
  unfold findGround. intros Hfind.
  destruct (groundLoop map positionHeight centreHeight fuel imp min_key max_key
              seed groundInit) as [st|] eqn:Hloop; [|discriminate].
  apply (groundLoop_trace fuel 0 groundInit st traceInv_init) in Hloop.
  destruct (bool_decide (candidate_voxel_type st = kNull)) eqn:Hcn; simpl in Hfind.
  - apply bool_decide_eq_true in Hcn.
    destruct Hloop as [(e & Hb & Hwalk & _ & Hnull & _) | (n & _ & _ & Hc & _)];
      [|contradiction].
    exists e. split; [exact Hb|]. intros j Hj. split; [apply Hwalk | apply Hnull]; auto.
  - apply bool_decide_eq_false in Hcn.
    destruct Hloop as [(e & Hb & _ & _ & _ & Hcand) | (n & _ & _ & _ & _ & _ & Hcand)].
    + destruct (Hcand Hcn) as (g & _ & Hkey & _). rewrite Hkey in Hfind. discriminate.
    + destruct Hcand as (g & _ & Hkey & _). rewrite Hkey in Hfind. discriminate.
Qed.

(** X6: the height [findGround] writes to [height_out] is the height of
    the last voxel the walk looked at, not of the ground voxel: when the
    walk stops on an occupied voxel above the ground it is that voxel's
    height (the ground's height plus the clearance written out), and when
    the walk runs to the bounds it is the height of the last voxel inside
    them. *)
Theorem ground_height_out_is_last_visited fuel ground height_out clearance_out :
  findGround map positionHeight centreHeight fuel seed min_key max_key imp
    = Some (Some (ground, height_out, clearance_out)) ->
  exists g n,
    ground = keyAt g /\ (g <= n)%nat /\
    height_out = heightAt n /\
    (forall j, (j <= n)%nat -> bounded j = true) /\
    (bounded (S n) = false
     \/ ((g < n)%nat /\ typeAt n = kOccupied /\
         clearance_out = F64.sub height_out (heightAt g))).
Proof.
  unfold findGround. intros Hfind.
  destruct (groundLoop map positionHeight centreHeight fuel imp min_key max_key
              seed groundInit) as [st|] eqn:Hloop; [|discriminate].
  apply (groundLoop_trace fuel 0 groundInit st traceInv_init) in Hloop.
  destruct (bool_decide (candidate_voxel_type st = kNull)) eqn:Hcn; simpl in Hfind;
    [discriminate|].
  apply bool_decide_eq_false in Hcn.
  destruct Hloop as [(e & Hb & Hwalk & Hheight & _ & Hcand)
                    | (n & Hwalk & Hocc & _ & Hheight & Hclear & Hcand)].
  - destruct (Hcand Hcn) as (g & Hg & Hkey & Hh).
    rewrite Hkey in Hfind. injection Hfind as <- <- <-.
    destruct e as [|n]; [lia|].
    exists g, n. repeat split; [lia | apply Hheight; reflexivity | | left; exact Hb].
    intros j Hj. apply Hwalk. lia.
  - destruct Hcand as (g & Hg & Hkey & Hh).
    rewrite Hkey in Hfind. injection Hfind as <- <- <-.
    exists g, n. repeat split; [lia | exact Hheight | |].
    + intros j Hj. apply Hwalk. lia.
    + right. repeat split; [assumption | assumption |].
      rewrite Hclear, Hheight, Hh. reflexivity.
Qed.

End GroundTraceFacts.

(** The theorem applies to the empty column [virtual_map] walked without
    virtual surfaces. *)
Lemma ground_null_only_without_occupied_witness :
  exists e,
    isBounded (columnKey virtual_map (imp_z 3 false false) (zkey 0) e) 2
      (zkey 0) (zkey 7) = false /\
    forall j, (j < e)%nat ->
      isBounded (columnKey virtual_map (imp_z 3 false false) (zkey 0) j) 2
        (zkey 0) (zkey 7) = true /\
      occupancyType virtual_map (columnKey virtual_map (imp_z 3 false false) (zkey 0) j)
      <> kOccupied.
Proof.
  apply (ground_null_only_without_occupied virtual_map zheight zheight
           (imp_z 3 false false) (zkey 0) (zkey 7) (zkey 0) 20).
  vm_compute. reflexivity.
Defined.

(** The theorem applies to [ground_map] walked from z = 1: the ground is
    z = 3, whose height is 3.5, and the height written out is 6.5, that of
    the occupied voxel z = 6. *)
Lemma ground_height_out_is_last_visited_witness :
  exists g n,
    zkey 3 = columnKey ground_map (imp_z 3 false false) (zkey 1) g /\ (g <= n)%nat /\
    F64.add (F64.of_Z 6) F64.half
    = heightOf ground_map zheight zheight
        (columnKey ground_map (imp_z 3 false false) (zkey 1) n) /\
    (forall j, (j <= n)%nat ->
       isBounded (columnKey ground_map (imp_z 3 false false) (zkey 1) j) 2
         (zkey 0) (zkey 7) = true) /\
    (isBounded (columnKey ground_map (imp_z 3 false false) (zkey 1) (S n)) 2
       (zkey 0) (zkey 7) = false
     \/ ((g < n)%nat /\
         occupancyType ground_map
           (columnKey ground_map (imp_z 3 false false) (zkey 1) n) = kOccupied /\
         F64.of_Z 3
         = F64.sub (F64.add (F64.of_Z 6) F64.half)
             (heightOf ground_map zheight zheight
                (columnKey ground_map (imp_z 3 false false) (zkey 1) g)))).
Proof.
  apply (ground_height_out_is_last_visited ground_map zheight zheight
           (imp_z 3 false false) (zkey 0) (zkey 7) (zkey 1) 20 (zkey 3)
           (F64.add (F64.of_Z 6) F64.half) (F64.of_Z 3)).
  vm_compute. reflexivity.
Defined.

(** *** The built heightmap *)

Section BuiltHeightmap.
Variable src_map : OccupancyMap.
Variables positionHeight centreHeight : Key -> f64.
Variable heightmapVoxelKey : Key -> Key.
Variable imp : HeightmapDetail.
Variables min_ext_key max_ext_key : Key.
Variables voxel_ceiling clearance_voxel_count_permissive : Z.

Local Abbreviation visit :=
  (visitColumn src_map positionHeight centreHeight heightmapVoxelKey imp
     min_ext_key max_ext_key voxel_ceiling clearance_voxel_count_permissive).
Local Abbreviation visits :=
  (visitColumns src_map positionHeight centreHeight heightmapVoxelKey imp
     min_ext_key max_ext_key voxel_ceiling clearance_voxel_count_permissive).
Local Abbreviation build :=
  (buildHeightmapT src_map positionHeight centreHeight heightmapVoxelKey imp
     min_ext_key max_ext_key voxel_ceiling clearance_voxel_count_permissive).

(** X7: reading a built heightmap back with [getHeightmapVoxelInfo].  After
    [buildHeightmapT], a voxel is reported as a surface exactly where the
    build wrote +1 and as a virtual surface exactly where it wrote -1, every
    other voxel is reported unknown, and no voxel is reported vacant. *)
Theorem built_heightmap_voxel_types fuel heightmap walk built populated :
  build fuel heightmap walk = Some (built, populated) ->
  forall key,
    match heightmapVoxelType built true (Some key) with
    | kSurface => readOccupancy built key = kHeightmapSurfaceValue
    | kVirtualSurface => readOccupancy built key = kHeightmapVirtualSurfaceValue
    | kUnknown => readOccupancy built key = unobservedOccupancyValue
    | kVacant => False
    end.
Proof.
  unfold buildHeightmapT. intros Hbuild key.
  destruct (visits fuel (clear heightmap) 0 walk) as [[hm count]|] eqn:Hv;
    [|discriminate].
  injection Hbuild as <- _.
  assert (builtValue (readOccupancy hm key)) as Hvalue.
  { apply (HmFacts.occupancyForall_reads builtValue hm).
    - unfold builtValue; auto.
    - eapply HmFacts.visitColumns_built;
        [exact Hv | apply HmFacts.occupancyForall_clear]. }
  unfold heightmapVoxelType.
  destruct (hasChunk hm key) eqn:Hchunk.
  - cbv zeta. destruct Hvalue as [-> | [-> | ->]]; vm_compute; reflexivity.
  - unfold hasChunk in Hchunk. apply bool_decide_eq_false in Hchunk.
    unfold readOccupancy. destruct (chunk hm key) as [voxels|]; [|reflexivity].
    contradiction Hchunk. eexists; reflexivity.
Qed.

(** What one column visit does to the heightmap and to the count. *)
Lemma visitColumn_count fuel hm count walk_key hm' count' :
  visit fuel hm count walk_key = Some (hm', count') ->
  (hm' = hm /\ count' = count) \/
  (exists key value,
     hm' = writeOccupancy hm (project (vertical_axis_index imp) key) value /\
     count' = count + 1).
Proof.
  unfold visitColumn. intros H.
  destruct (findNearestSupportingVoxel _ _ _ _ _ _ _ _ _) as [candidate|];
    [|discriminate].
  match type of H with
  | match ?g with _ => _ end = _ => destruct g as [ground_key|]; [|discriminate]
  end.
  destruct ground_key as [key|]; simpl in H.
  2:{ destruct (generate_virtual_surface imp); injection H as <- <-; auto. }
  repeat match type of H with
         | context [if ?c then _ else _] => destruct c
         end; injection H as <- <-; eauto.
Qed.

Lemma visitColumns_count fuel walk : forall hm count hm' count',
  visits fuel hm count walk = Some (hm', count') ->
  0 <= count ->
  (count = 0 <-> chunks hm = ∅) ->
  map_Forall (fun index _ => regionCoord index (vertical_axis_index imp) = 0)
    (chunks hm) ->
  count <= count' <= count + Z.of_nat (length walk) /\
  (count' = 0 <-> chunks hm' = ∅) /\
  map_Forall (fun index _ => regionCoord index (vertical_axis_index imp) = 0)
    (chunks hm').
Proof.
  induction walk as [|walk_key walk IH]; intros hm count hm' count' H Hpos Hiff Hflat;
    simpl in H.
  - injection H as <- <-. simpl. split; [lia | split; assumption].
  - destruct (visit fuel hm count walk_key) as [[hm1 count1]|] eqn:Hv;
      [|discriminate].
    apply visitColumn_count in Hv as [[-> ->] | (key & value & -> & ->)].
    + destruct (IH _ _ _ _ H Hpos Hiff Hflat) as (Hle & Hiff' & Hflat').
      split; [simpl length; lia | split; assumption].
    + destruct (IH _ _ _ _ H) as (Hle & Hiff' & Hflat').
      * lia.
      * simpl. split; [lia|]. intros Hempty.
        apply (f_equal (fun m => m !! regionIndex (project (vertical_axis_index imp) key)))
          in Hempty.
        rewrite lookup_insert_eq, lookup_empty in Hempty. discriminate.
      * simpl. apply map_Forall_insert_2; [|exact Hflat].
        unfold regionIndex, project, regionCoord; simpl.
        destruct (vertical_axis_index imp) as [|[|?]]; reflexivity.
      * split; [simpl length; lia | split; assumption].
Qed.

(** X8: the build reports whether it wrote anything, and what it writes is
    flat.  For a walk of fewer than 2^32 columns (below which the unsigned
    column count cannot wrap), [buildHeightmapT] returns true exactly when
    the heightmap it leaves has a region, and every region of that
    heightmap has coordinate 0 along the vertical axis. *)
Theorem build_reports_population fuel heightmap walk built populated :
  build fuel heightmap walk = Some (built, populated) ->
  Z.of_nat (length walk) < 2 ^ 32 ->
  (populated = true <-> chunks built <> ∅) /\
  map_Forall (fun index _ => regionCoord index (vertical_axis_index imp) = 0)
    (chunks built).
Proof.
  unfold buildHeightmapT. intros Hbuild Hlen.
  destruct (visits fuel (clear heightmap) 0 walk) as [[hm count]|] eqn:Hv;
    [|discriminate].
  injection Hbuild as <- <-.
  destruct (visitColumns_count fuel walk (clear heightmap) 0 hm count Hv)
    as (Hle & Hiff & Hflat).
  - lia.
  - simpl. tauto.
  - simpl. apply map_Forall_empty.
  - split; [|exact Hflat].
    rewrite negb_true_iff, Z.eqb_neq. tauto.
Qed.

End BuiltHeightmap.

(** The theorems apply to the heightmap built from [ground_map]. *)
Lemma built_heightmap_voxel_types_witness :
  match heightmapVoxelType
          (writeOccupancy (clear empty_heightmap) (zkey 0) kHeightmapSurfaceValue)
          true (Some (zkey 0)) with
  | kSurface =>
      readOccupancy
        (writeOccupancy (clear empty_heightmap) (zkey 0) kHeightmapSurfaceValue)
        (zkey 0)
      = kHeightmapSurfaceValue
  | kVirtualSurface =>
      readOccupancy
        (writeOccupancy (clear empty_heightmap) (zkey 0) kHeightmapSurfaceValue)
        (zkey 0)
      = kHeightmapVirtualSurfaceValue
  | kUnknown =>
      readOccupancy
        (writeOccupancy (clear empty_heightmap) (zkey 0) kHeightmapSurfaceValue)
        (zkey 0)
      = unobservedOccupancyValue
  | kVacant => False
  end.
Proof.
  apply (built_heightmap_voxel_types ground_map zheight zheight (fun key => key)
           (imp_z 3 false false) (zkey 0) (zkey 7) 8 2 20 empty_heightmap [zkey 1]
           _ true).
  vm_compute. reflexivity.
Defined.

Lemma build_reports_population_witness :
  (true = true
   <-> chunks (writeOccupancy (clear empty_heightmap) (zkey 0) kHeightmapSurfaceValue)
       <> ∅) /\
  map_Forall (fun index _ => regionCoord index 2 = 0)
    (chunks (writeOccupancy (clear empty_heightmap) (zkey 0) kHeightmapSurfaceValue)).
Proof.
  apply (build_reports_population ground_map zheight zheight (fun key => key)
           (imp_z 3 false false) (zkey 0) (zkey 7) 8 2 20 empty_heightmap [zkey 1]
           _ true).
  - vm_compute. reflexivity.
  - simpl. lia.
Defined.

End HmInfoFacts.

(** ** Loading version-0 maps *)

Module SerialiseLoadFacts.

Import SerialiseV0 SerialiseLoad SerialiseExamples SerialiseFacts.

(** The error code and the stream [loadChunk] leaves, for a region whose
    byte count fits 32 bits. *)
Lemma loadChunk_outcome stream chunk dims :
  8 * nodeCount dims < 2 ^ 32 ->
  fst (fst (loadChunk stream chunk dims))
  = (if (regionBytes dims <=? length stream)%nat then kSeOk else kSeFileReadFailure)
  /\ snd (loadChunk stream chunk dims) = drop (regionBytes dims) stream.
Proof.
  intros Hfit. unfold regionBytes.
  set (N := Z.to_nat (nodeCount dims)).
  unfold loadChunk.
  match goal with
  | |- context [readRegion stream ?c] => set (chunk0 := c)
  end.
  destruct (readRegion_spec stream chunk0) as (Hok & Hrest & _ & _).
  destruct (readRegion stream chunk0) as [[ok chunk1] rest];
    cbn [fst snd] in Hok, Hrest. subst ok rest.
  pose proof (overflow_test dims) as Hover.
  pose proof (nodeCount_range dims) as Hrange.
  destruct (negb (nodeByteCount dims =? uint32 (nodeByteCount dims))) eqn:Htest.
  { assert (2 ^ 32 <= 8 * nodeCount dims) by (apply Hover; reflexivity). lia. }
  change (2 ^ 32) with 4294967296 in *.
  assert (uint32 (nodeByteCount dims) = 8 * nodeCount dims) as Hbytes.
  { rewrite nodeByteCount_eq. unfold uint32. apply Z.mod_small.
    change (2 ^ 32) with 4294967296. lia. }
  destruct (Nat.leb_spec 44 (length stream)) as [Hhdr | Hhdr].
  2:{ cbn [fst snd].
      destruct (Nat.leb_spec (44 + 8 * N) (length stream)); [lia|].
      split; [reflexivity|]. rewrite !drop_ge by lia. reflexivity. }
  unfold streamRead. rewrite Hbytes, nodeByteCount_eq.
  replace (Z.to_nat (8 * nodeCount dims)) with (8 * N)%nat by (subst N; lia).
  match goal with
  | |- context [deinterleave ?f ?n ?l] => destruct (deinterleave f n l) as [occ' clr']
  end.
  cbn [fst snd]. rewrite length_take, length_drop, andb_true_r, drop_drop.
  split; [|reflexivity].
  destruct (Nat.leb_spec (44 + 8 * N) (length stream));
    destruct (Z.eqb_spec (Z.of_nat (Nat.min (8 * N) (length stream - 44)))
                (8 * nodeCount dims)); subst N; try reflexivity; lia.
Qed.

Lemma regionBytes_pos dims : (0 < regionBytes dims)%nat.
Proof. unfold regionBytes. lia. Qed.

Lemma regionChunk_shift stream fresh dims j :
  regionChunk (drop (regionBytes dims) stream) fresh dims j
  = regionChunk stream fresh dims (S j).
Proof.
  unfold regionChunk. rewrite drop_drop.
  replace (regionBytes dims + j * regionBytes dims)%nat
    with (S j * regionBytes dims)%nat by lia.
  reflexivity.
Qed.

Section Load.
Variable fresh : MapChunk.
Variable dims : ivec3.
Variable quit : option (nat -> bool).
Variable region_count : nat.
(** The pass at which the loop condition fails: [region_count], or the first
    query [quit()] answers with true. *)
Variable stop : nat.

Hypothesis Hfit : 8 * nodeCount dims < 2 ^ 32.
Hypothesis Hcount : Z.of_nat region_count < 2 ^ 32.
Hypothesis Hstop : (stop <= region_count)%nat.
Hypothesis Hgo : forall j, (j < stop)%nat -> quits quit j = false.
Hypothesis Hend : stop = region_count \/ quits quit stop = true.

Lemma loadLoop_go_on i : (i <= stop)%nat ->
  ((Z.of_nat i <? Z.of_nat region_count)
   && match quit with Some quit => negb (quit i) | None => true end)
  = negb (i =? stop)%nat.
Proof.
  intros Hi.
  destruct (Nat.eqb_spec i stop) as [-> | Hne]; simpl.
  - destruct Hend as [-> | Hq].
    + rewrite Z.ltb_irrefl. reflexivity.
    + unfold quits in Hq. destruct quit as [f|]; [|discriminate].
      rewrite Hq. apply andb_false_r.
  - assert ((Z.of_nat i <? Z.of_nat region_count) = true) as ->
        by (apply Z.ltb_lt; lia).
    pose proof (Hgo i ltac:(lia)) as Hq. unfold quits in Hq.
    destruct quit as [f|]; [rewrite Hq|]; reflexivity.
Qed.

(** The loop from pass [i] on, on a stream that holds [avail] whole
    regions. *)
Lemma loadLoop_spec fuel : forall i st,
  (i <= stop)%nat -> (stop - i <= fuel)%nat ->
  load_error st = kSeOk ->
  let stream := load_stream st in
  let avail := (length stream / regionBytes dims)%nat in
  let k := Nat.min (stop - i) avail in
  exists r,
    loadLoop fuel fresh dims (Z.of_nat region_count) quit (Z.of_nat i) i st = Some r /\
    load_chunks r = load_chunks st ++ map (regionChunk stream fresh dims) (seq 0 k) /\
    load_error r = (if (stop - i <=? avail)%nat then kSeOk else kSeFileReadFailure) /\
    load_stream r
    = drop ((if (stop - i <=? avail)%nat then k else S k) * regionBytes dims) stream /\
    progress_target r = progress_target st /\
    progress_count r
    = (progress_count st + match quit with Some _ => k | None => 0 end)%nat.
Proof.
  induction fuel as [|fuel IH]; intros i st Hi Hfuel Herr stream avail k;
    simpl; rewrite (loadLoop_go_on i Hi).
  - assert (i = stop) as -> by lia. rewrite Nat.eqb_refl. simpl.
    exists st. subst k. rewrite Nat.sub_diag. simpl.
    rewrite app_nil_r. repeat split; auto.
    destruct quit; lia.
  - destruct (Nat.eqb_spec i stop) as [-> | Hne]; simpl.
    { exists st. subst k. rewrite Nat.sub_diag. simpl.
      rewrite app_nil_r. repeat split; auto.
      destruct quit; lia. }
    destruct (loadChunk_outcome (load_stream st) fresh dims Hfit) as [Hcode Hrest].
    fold stream in Hcode, Hrest. fold stream.
    assert (regionChunk stream fresh dims 0
            = snd (fst (loadChunk stream fresh dims))) as Hchunk0.
    { unfold regionChunk. rewrite Nat.mul_0_l. reflexivity. }
    destruct (loadChunk stream fresh dims) as [[err chunk] rest];
      cbn [fst snd] in Hcode, Hrest, Hchunk0. subst rest.
    pose proof (regionBytes_pos dims) as Hpos.
    destruct (Nat.leb_spec (regionBytes dims) (length stream)) as [Hlen | Hlen];
      subst err.
    + (* the region is there *)
      assert (1 <= avail)%nat as Havail.
      { subst avail. apply Nat.div_le_lower_bound; lia. }
      assert ((length (drop (regionBytes dims) stream) / regionBytes dims)%nat
              = (avail - 1)%nat) as Hshift.
      { rewrite length_drop. subst avail.
        replace (length stream) with
          ((length stream - regionBytes dims) + 1 * regionBytes dims)%nat at 2 by lia.
        rewrite Nat.div_add by lia. lia. }
      replace (uint32 (Z.of_nat i + 1)) with (Z.of_nat (S i)).
      2:{ unfold uint32. rewrite Z.mod_small by lia. lia. }
      match goal with
      | |- context [loadLoop fuel fresh dims _ quit _ (S i) ?st1] =>
          destruct (IH (S i) st1 ltac:(lia) ltac:(lia) eq_refl)
            as (r & -> & Hchunks & Herror & Hstream & Htarget & Hprogress)
      end.
      cbn [load_stream load_chunks progress_target progress_count] in *.
      rewrite Hshift in Hchunks, Herror, Hstream, Hprogress.
      exists r. split; [reflexivity|].
      assert (k = S (Nat.min (stop - S i) (avail - 1))) as Hk by (subst k; lia).
      rewrite Hk.
      split.
      { rewrite Hchunks, <- app_assoc. f_equal. simpl. f_equal; [auto|].
        rewrite <- seq_shift, map_map. apply map_ext. intros j.
        apply regionChunk_shift. }
      split.
      { rewrite Herror.
        destruct (Nat.leb_spec (stop - S i) (avail - 1)),
                 (Nat.leb_spec (stop - i) avail); try reflexivity; lia. }
      split.
      { rewrite Hstream, drop_drop. f_equal.
        destruct (Nat.leb_spec (stop - S i) (avail - 1)),
                 (Nat.leb_spec (stop - i) avail); lia. }
      split; [exact Htarget|].
      rewrite Hprogress. destruct quit; lia.
    + (* the stream ends inside the region *)
      assert (avail = 0%nat) as Havail.
      { subst avail. apply Nat.div_small. lia. }
      eexists. split; [reflexivity|].
      cbn [load_stream load_chunks progress_target progress_count].
      assert (k = 0%nat) as -> by (subst k; lia).
      rewrite Havail.
      destruct (Nat.leb_spec (stop - i) 0); [lia|].
      simpl. rewrite app_nil_r, Nat.add_0_r. repeat split; auto.
      destruct quit; lia.
Qed.

End Load.

(** X10: [load] reads the regions of the stream one after the other until
    one does not fit.  For a region size that fits 32 bits, a region count
    below 2^32 and an observer (if any) that never asks to quit, with [avail]
    the number of whole regions the stream holds: the chunks inserted are
    those [loadChunk] makes of the first [min region_count avail] region
    blocks, in order; the result is [kSeOk] when all [region_count] regions
    are there and [kSeFileReadFailure] otherwise, the chunks read before the
    failure staying inserted; and on success the stream is left after the
    last region and the observer has been incremented up to its target. *)
Theorem load_reads_regions fresh dims quit (region_count : nat) stream fuel :
  8 * nodeCount dims < 2 ^ 32 ->
  Z.of_nat region_count < 2 ^ 32 ->
  (forall j, (j < region_count)%nat -> quits quit j = false) ->
  (region_count <= fuel)%nat ->
  let avail := (length stream / regionBytes dims)%nat in
  exists r,
    load fuel stream fresh dims quit (Z.of_nat region_count) = Some r /\
    load_chunks r
    = map (regionChunk stream fresh dims) (seq 0 (Nat.min region_count avail)) /\
    load_error r
    = (if (region_count <=? avail)%nat then kSeOk else kSeFileReadFailure) /\
    (load_error r = kSeOk ->
     load_stream r = drop (region_count * regionBytes dims) stream /\
     (quit <> None -> progress_target r = Some (Z.of_nat (progress_count r)))).
Proof.
  intros Hfit Hcount Hgo Hfuel avail. unfold load.
  assert (forall target count, exists r,
            loadLoop fuel fresh dims (Z.of_nat region_count) quit 0 0
              {| load_error := kSeOk; load_chunks := []; load_stream := stream;
                 progress_target := target; progress_count := count |} = Some r /\
            load_chunks r
            = map (regionChunk stream fresh dims)
                (seq 0 (Nat.min region_count avail)) /\
            load_error r
            = (if (region_count <=? avail)%nat then kSeOk else kSeFileReadFailure) /\
            (load_error r = kSeOk ->
             load_stream r = drop (region_count * regionBytes dims) stream /\
             progress_target r = target /\
             progress_count r
             = (count + match quit with Some _ => region_count | None => 0 end)%nat))
    as Hloop.
  { intros target count.
    match goal with
    | |- context [loadLoop fuel fresh dims _ quit 0 0 ?st0] =>
        destruct (loadLoop_spec fresh dims quit region_count region_count Hfit Hcount
                    (Nat.le_refl _) Hgo (or_introl eq_refl) fuel 0 st0
                    ltac:(lia) ltac:(lia) eq_refl)
          as (r & Hloop & Hchunks & Herror & Hstream & Htarget & Hprogress)
    end.
    change (Z.of_nat 0) with 0 in Hloop.
    cbn [load_stream load_chunks progress_target progress_count] in *.
    rewrite Nat.sub_0_r in Hchunks, Herror, Hstream, Hprogress.
    fold avail in Hchunks, Herror, Hstream, Hprogress.
    exists r. split; [exact Hloop|]. split; [exact Hchunks|]. split; [exact Herror|].
    intros Hok. rewrite Herror in Hok.
    destruct (Nat.leb_spec region_count avail); try discriminate.
    rewrite Nat.min_l in Hstream, Hprogress by assumption. auto. }
  destruct quit as [f|].
  - destruct (Z.eqb_spec (Z.of_nat region_count) 0) as [Hzero | Hpos]; cbn [negb].
    + destruct (Hloop (Some 1) 1%nat) as (r & Hr & Hchunks & Herror & Hok).
      exists r. repeat split; try assumption; try (apply Hok; assumption).
      intros _. destruct (Hok H) as (_ & -> & ->). f_equal. lia.
    + destruct (Hloop (Some (uint32 (Z.of_nat region_count))) 0%nat)
        as (r & Hr & Hchunks & Herror & Hok).
      exists r. repeat split; try assumption; try (apply Hok; assumption).
      intros _. destruct (Hok H) as (_ & -> & ->). f_equal.
      unfold uint32. rewrite Z.mod_small by lia. lia.
  - destruct (Hloop None 0%nat) as (r & Hr & Hchunks & Herror & Hok).
    exists r. repeat split; try assumption; try (apply Hok; assumption).
    intros Hq. contradiction Hq. reflexivity.
Qed.

(** X11: a request to quit ends [load] with [kSeOk].  When the observer
    answers true at the query before region [q], with [q] below the region
    count and the [q] regions before it in the stream, [load] returns
    [kSeOk] after inserting only those [q] chunks, the observer's count
    (which is [q]) short of its target. *)
Theorem load_quit_reports_ok fresh dims (quit : nat -> bool) (region_count q : nat)
    stream fuel :
  8 * nodeCount dims < 2 ^ 32 ->
  Z.of_nat region_count < 2 ^ 32 ->
  (q < region_count)%nat ->
  (forall j, (j < q)%nat -> quit j = false) ->
  quit q = true ->
  (q * regionBytes dims <= length stream)%nat ->
  (q <= fuel)%nat ->
  exists r,
    load fuel stream fresh dims (Some quit) (Z.of_nat region_count) = Some r /\
    load_error r = kSeOk /\
    load_chunks r = map (regionChunk stream fresh dims) (seq 0 q) /\
    load_stream r = drop (q * regionBytes dims) stream /\
    progress_target r = Some (Z.of_nat region_count) /\
    progress_count r = q.
Proof.
  intros Hfit Hcount Hq Hgo Hquit Hlen Hfuel. unfold load.
  assert (negb (Z.of_nat region_count =? 0) = true) as ->.
  { apply negb_true_iff, Z.eqb_neq. lia. }
  match goal with
  | |- context [loadLoop fuel fresh dims _ _ 0 0 ?st0] =>
      destruct (loadLoop_spec fresh dims (Some quit) region_count q Hfit Hcount
                  ltac:(lia) Hgo (or_intror Hquit) fuel 0 st0
                  ltac:(lia) ltac:(lia) eq_refl)
        as (r & Hloop & Hchunks & Herror & Hstream & Htarget & Hprogress)
  end.
  change (Z.of_nat 0) with 0 in Hloop.
  exists r. split; [exact Hloop|].
  cbn [load_stream load_chunks progress_target progress_count] in *.
  rewrite Nat.sub_0_r in Hchunks, Herror, Hstream, Hprogress.
  pose proof (regionBytes_pos dims) as Hpos.
  assert (q <= length stream / regionBytes dims)%nat as Havail
      by (apply Nat.div_le_lower_bound; lia).
  destruct (Nat.leb_spec q (length stream / regionBytes dims)); [|lia].
  rewrite Nat.min_l in Hchunks, Hstream, Hprogress by assumption.
  repeat split; try assumption.
  rewrite Htarget. f_equal. unfold uint32. apply Z.mod_small. lia.
Qed.

(** The theorems apply to a stream of two regions of two voxels. *)
Lemma load_reads_regions_witness :
  exists r,
    load 3 (stream2 ++ stream2) chunk2 dims112 None (Z.of_nat 3) = Some r /\
    load_chunks r
    = map (regionChunk (stream2 ++ stream2) chunk2 dims112)
        (seq 0 (Nat.min 3 (length (stream2 ++ stream2) / regionBytes dims112))) /\
    load_error r
    = (if (3 <=? length (stream2 ++ stream2) / regionBytes dims112)%nat
       then kSeOk else kSeFileReadFailure) /\
    (load_error r = kSeOk ->
     load_stream r = drop (3 * regionBytes dims112) (stream2 ++ stream2) /\
     (@None (nat -> bool) <> None ->
      progress_target r = Some (Z.of_nat (progress_count r)))).
Proof.
  apply (load_reads_regions chunk2 dims112 None 3 (stream2 ++ stream2) 3).
  - vm_compute. reflexivity.
  - vm_compute. reflexivity.
  - reflexivity.
  - lia.
Defined.

Lemma load_quit_reports_ok_witness :
  exists r,
    load 1 (stream2 ++ stream2) chunk2 dims112 (Some (Nat.eqb 1)) (Z.of_nat 2)
      = Some r /\
    load_error r = kSeOk /\
    load_chunks r = map (regionChunk (stream2 ++ stream2) chunk2 dims112) (seq 0 1) /\
    load_stream r = drop (1 * regionBytes dims112) (stream2 ++ stream2) /\
    progress_target r = Some (Z.of_nat 2) /\
    progress_count r = 1%nat.
Proof.
  apply (load_quit_reports_ok chunk2 dims112 (Nat.eqb 1) 2 1 (stream2 ++ stream2) 1).
  - vm_compute. reflexivity.
  - vm_compute. reflexivity.
  - lia.
  - intros j Hj. assert (j = 0%nat) as -> by lia. reflexivity.
  - reflexivity.
  - vm_compute. lia.
  - lia.
Defined.

End SerialiseLoadFacts.

(** ** The packed incident normal *)

Module NormalPackFacts.

Import NormalPack.

Lemma mask_ones : OHM_NORMAL_MASK = Z.ones 14.
Proof. reflexivity. Qed.

Lemma testbit_uint32 x i : 0 <= i -> Z.testbit (uint32 x) i = (i <? 32) && Z.testbit x i.
Proof. intros Hi. unfold uint32. apply Z.testbit_mod_pow2. lia. Qed.

Lemma testbit_mask q j :
  Z.testbit (Z.land q OHM_NORMAL_MASK) j = Z.testbit q j && (0 <=? j) && (j <? 14).
Proof.
  rewrite Z.land_spec, mask_ones, Z.testbit_ones by lia.
  rewrite andb_assoc. reflexivity.
Qed.

Lemma testbit_pow2 n i : 0 <= n -> Z.testbit (Z.shiftl 1 n) i = (n =? i).
Proof.
  intros Hn. rewrite Z.shiftl_1_l. rewrite Z.pow2_bits_eqb by assumption.
  reflexivity.
Qed.

(** The bits of an encoded normal. *)
Lemma encodeNormal_testbit normal i :
  0 <= i ->
  Z.testbit (encodeNormal normal) i
  = ((i <? 14) && Z.testbit (quantise (remap (fx normal))) i)
    || ((15 <=? i) && (i <? 29) && Z.testbit (quantise (remap (fy normal))) (i - 15))
    || ((i =? 31) && Ieee.ltb (fz normal) F32.zero)
    || ((i =? 30)
        && (fnonzero (remap (fx normal)) || fnonzero (remap (fy normal))
            || fnonzero (fz normal))).
Proof.
  intros Hi. unfold encodeNormal. cbv zeta.
  set (qx := quantise (remap (fx normal))).
  set (qy := quantise (remap (fy normal))).
  set (s := Ieee.ltb (fz normal) F32.zero).
  set (v := fnonzero (remap (fx normal)) || fnonzero (remap (fy normal))
            || fnonzero (fz normal)).
  rewrite !Z.lor_spec, Z.land_spec, !Z.lor_spec, Z.testbit_0_l, orb_false_l.
  unfold not32. rewrite !testbit_uint32 by assumption.
  unfold OHM_NORMAL_SHIFT_X, OHM_NORMAL_SHIFT_Y.
  rewrite !Z.shiftl_spec by assumption. rewrite !testbit_mask.
  rewrite Z.lnot_spec, Z.lor_spec by assumption.
  unfold OHM_NORMAL_SET_BIT, OHM_NORMAL_SIGN_BIT_Z.
  assert (Z.testbit (if s then Z.shiftl 1 31 else 0) i = (i =? 31) && s) as ->.
  { destruct s; [rewrite testbit_pow2 by lia; rewrite Z.eqb_sym, andb_true_r
                | rewrite Z.testbit_0_l, andb_false_r]; reflexivity. }
  assert (Z.testbit (if v then Z.shiftl 1 30 else 0) i = (i =? 30) && v) as ->.
  { destruct v; [rewrite testbit_pow2 by lia; rewrite Z.eqb_sym, andb_true_r
                | rewrite Z.testbit_0_l, andb_false_r]; reflexivity. }
  rewrite !testbit_pow2 by lia. rewrite Z.sub_0_r.
  destruct (Z.ltb_spec i 14), (Z.ltb_spec i 29), (Z.ltb_spec i 32),
           (Z.leb_spec 15 i), (Z.leb_spec 0 i), (Z.leb_spec 0 (i - 15)),
           (Z.ltb_spec (i - 15) 14), (Z.eqb_spec 30 i), (Z.eqb_spec 31 i),
           (Z.eqb_spec i 30), (Z.eqb_spec i 31); try lia;
    simpl; rewrite ?andb_true_r, ?andb_false_r, ?orb_false_r; try reflexivity.
Qed.

(** Testing a bit through [x & (1u << k)]. *)
Lemma hasBit_testbit x k : 0 <= k -> hasBit x (Z.shiftl 1 k) = Z.testbit x k.
Proof.
  intros Hk. unfold hasBit.
  assert (Z.land x (Z.shiftl 1 k) = if Z.testbit x k then Z.shiftl 1 k else 0) as ->.
  { apply Z.bits_inj'. intros i Hi.
    rewrite Z.land_spec, testbit_pow2 by assumption.
    destruct (Z.eqb_spec k i) as [-> | Hne].
    - destruct (Z.testbit x i); [rewrite testbit_pow2, Z.eqb_refl by assumption
                                | rewrite Z.testbit_0_l]; reflexivity.
    - rewrite andb_false_r.
      destruct (Z.testbit x k); [rewrite testbit_pow2 by assumption;
                                 symmetry; apply Z.eqb_neq; assumption
                                | rewrite Z.testbit_0_l; reflexivity]. }
  destruct (Z.testbit x k); [|reflexivity].
  rewrite Z.shiftl_1_l. apply negb_true_iff, Z.eqb_neq.
  pose proof (Z.pow_pos_nonneg 2 k ltac:(lia) Hk). lia.
Qed.

Lemma channel_range x shift : 0 <= channel x shift < 16384.
Proof.
  unfold channel. rewrite mask_ones, Z.land_ones by lia.
  apply Z.mod_pos_bound. reflexivity.
Qed.

Lemma encodeNormal_channel normal shift (q : Z) :
  0 <= shift ->
  (forall j, 0 <= j < 14 ->
     Z.testbit (encodeNormal normal) (j + shift) = Z.testbit q j) ->
  channel (encodeNormal normal) shift = Z.land q OHM_NORMAL_MASK.
Proof.
  intros Hs Hbits. unfold channel. apply Z.bits_inj'. intros j Hj.
  rewrite !testbit_mask, Z.shiftr_spec by assumption.
  destruct (Z.leb_spec 0 j); [|lia].
  destruct (Z.ltb_spec j 14); [|rewrite !andb_false_r; reflexivity].
  rewrite Hbits by lia. reflexivity.
Qed.

Lemma encodeNormal_channel_x normal :
  channel (encodeNormal normal) OHM_NORMAL_SHIFT_X
  = Z.land (quantise (remap (fx normal))) OHM_NORMAL_MASK.
Proof.
  apply encodeNormal_channel; [unfold OHM_NORMAL_SHIFT_X; lia|].
  intros j Hj. rewrite encodeNormal_testbit by (unfold OHM_NORMAL_SHIFT_X; lia).
  unfold OHM_NORMAL_SHIFT_X. rewrite Z.add_0_r.
  destruct (Z.ltb_spec j 14), (Z.leb_spec 15 j), (Z.eqb_spec j 31),
           (Z.eqb_spec j 30); try lia;
    simpl; rewrite ?orb_false_r; reflexivity.
Qed.

Lemma encodeNormal_channel_y normal :
  channel (encodeNormal normal) OHM_NORMAL_SHIFT_Y
  = Z.land (quantise (remap (fy normal))) OHM_NORMAL_MASK.
Proof.
  apply encodeNormal_channel; [unfold OHM_NORMAL_SHIFT_Y; lia|].
  intros j Hj. rewrite encodeNormal_testbit by (unfold OHM_NORMAL_SHIFT_Y; lia).
  unfold OHM_NORMAL_SHIFT_Y. replace (j + 15 - 15) with j by lia.
  destruct (Z.ltb_spec (j + 15) 14), (Z.leb_spec 15 (j + 15)),
           (Z.ltb_spec (j + 15) 29), (Z.eqb_spec (j + 15) 31),
           (Z.eqb_spec (j + 15) 30); try lia;
    simpl; rewrite ?orb_false_r; reflexivity.
Qed.

(** X12: the layout of an encoded normal.  [encodeNormal] returns a 32-bit
    value whose bits 0-13 are the low 14 bits of the quantised X channel and
    whose bits 15-28 those of the quantised Y channel; bits 14 and 29 are
    never set; bit 31 is set exactly when z is negative; and bit 30, the
    validity bit, is set exactly when z or one of the channels, after it has
    been moved from [-1, 1] to [0, 1], is not zero. *)
Theorem encodeNormal_layout normal :
  let n := encodeNormal normal in
  0 <= n < 2 ^ 32 /\
  channel n OHM_NORMAL_SHIFT_X
  = Z.land (quantise (remap (fx normal))) OHM_NORMAL_MASK /\
  channel n OHM_NORMAL_SHIFT_Y
  = Z.land (quantise (remap (fy normal))) OHM_NORMAL_MASK /\
  Z.testbit n 14 = false /\ Z.testbit n 29 = false /\
  hasBit n OHM_NORMAL_SIGN_BIT_Z = Ieee.ltb (fz normal) F32.zero /\
  hasBit n OHM_NORMAL_SET_BIT
  = (fnonzero (remap (fx normal)) || fnonzero (remap (fy normal))
     || fnonzero (fz normal)).
Proof.
  cbv zeta.
  assert (0 <= encodeNormal normal) as Hpos.
  { unfold encodeNormal, not32, uint32. cbv zeta.
    repeat (apply Z.lor_nonneg; split);
      try (apply Z.land_nonneg; left; apply Z.lor_nonneg; split);
      try (apply Z.mod_pos_bound; reflexivity); try lia.
    - destruct (Ieee.ltb _ _); [discriminate | lia].
    - destruct (_ || _); [discriminate | lia]. }
  split; [split; [exact Hpos|]|].
  { replace (encodeNormal normal) with (encodeNormal normal mod 2 ^ 32);
      [apply Z.mod_pos_bound; reflexivity|].
    apply Z.bits_inj'. intros i Hi.
    rewrite Z.testbit_mod_pow2 by lia.
    destruct (Z.ltb_spec i 32); [reflexivity|].
    rewrite encodeNormal_testbit by assumption.
    destruct (Z.ltb_spec i 14), (Z.ltb_spec i 29), (Z.eqb_spec i 31),
             (Z.eqb_spec i 30); try lia;
      simpl; rewrite ?andb_false_r; reflexivity. }
  split; [apply encodeNormal_channel_x|].
  split; [apply encodeNormal_channel_y|].
  split; [rewrite encodeNormal_testbit by lia; reflexivity|].
  split; [rewrite encodeNormal_testbit by lia; reflexivity|].
  unfold OHM_NORMAL_SIGN_BIT_Z, OHM_NORMAL_SET_BIT.
  rewrite !hasBit_testbit, !encodeNormal_testbit by lia.
  split; simpl; rewrite ?orb_false_r; reflexivity.
Qed.

Lemma allChannels_spec bits : forall base q,
  allChannels bits base = true ->
  base <= q < base + 2 ^ Z.of_nat bits -> channelOk q = true.
Proof.
  induction bits as [|bits IH]; intros base q Hall Hq.
  - cbn [allChannels] in Hall. change (2 ^ Z.of_nat 0) with 1 in Hq.
    replace q with base by lia. exact Hall.
  - cbn [allChannels] in Hall. apply andb_true_iff in Hall as [Hlow Hhigh].
    rewrite Nat2Z.inj_succ, Z.pow_succ_r in Hq by lia.
    destruct (Z.lt_ge_cases q (base + 2 ^ Z.of_nat bits)).
    + apply (IH base); [assumption | lia].
    + apply (IH (base + 2 ^ Z.of_nat bits)); [assumption | lia].
Qed.

(** Every channel value, checked by evaluation. *)
Lemma channel_table : allChannels 14 0 = true.
Proof. vm_compute. reflexivity. Qed.

Lemma channelOk_all q : 0 <= q < 16384 -> channelOk q = true.
Proof.
  intros Hq. apply (allChannels_spec 14 0 q channel_table).
  change (2 ^ Z.of_nat 14) with 16384. lia.
Qed.

Lemma decodeChannel_facts x shift :
  let v := decodeChannel (channel x shift) in
  fnonzero v = true /\ Ieee.leb (F32.of_Z (-1)) v = true /\ Ieee.leb v F32.one = true /\
  (quantise (remap v) = channel x shift \/ quantise (remap v) = channel x shift - 1) /\
  0 <= quantise (remap v).
Proof.
  cbv zeta. pose proof (channelOk_all _ (channel_range x shift)) as Hok.
  unfold channelOk in Hok. cbv zeta in Hok.
  rewrite !andb_true_iff, orb_true_iff, !Z.eqb_eq, Z.leb_le in Hok. tauto.
Qed.

(** X13: what [decodeNormal] returns.  For every packed value the decoded
    x and y lie in [-1, 1], and the decoded vector has a component that is
    not zero exactly when the validity bit (bit 30) of the packed value is
    set: a packed value without it decodes to the zero vector, and one with
    it never does. *)
Theorem decodeNormal_valid_iff_nonzero packed :
  let n := decodeNormal packed in
  Ieee.leb (F32.of_Z (-1)) (fx n) = true /\ Ieee.leb (fx n) F32.one = true /\
  Ieee.leb (F32.of_Z (-1)) (fy n) = true /\ Ieee.leb (fy n) F32.one = true /\
  (fnonzero (fx n) || fnonzero (fy n) || fnonzero (fz n))
  = hasBit packed OHM_NORMAL_SET_BIT.
Proof.
  cbv zeta. unfold decodeNormal. cbv zeta.
  destruct (decodeChannel_facts packed OHM_NORMAL_SHIFT_X) as (Hx & Hx1 & Hx2 & _).
  destruct (decodeChannel_facts packed OHM_NORMAL_SHIFT_Y) as (Hy & Hy1 & Hy2 & _).
  destruct (hasBit packed OHM_NORMAL_SET_BIT); cbn [fx fy fz].
  - rewrite Hx. repeat split; assumption.
  - destruct (hasBit packed OHM_NORMAL_SIGN_BIT_Z); repeat split; reflexivity.
Qed.

(** The decoded vector of a packed value without the validity bit. *)
Lemma decodeNormal_invalid packed :
  hasBit packed OHM_NORMAL_SET_BIT = false ->
  fnonzero (fx (decodeNormal packed)) || fnonzero (fy (decodeNormal packed))
  || fnonzero (fz (decodeNormal packed)) = false.
Proof.
  intros Hset. unfold decodeNormal. cbv zeta. rewrite Hset. cbn [fx fy fz].
  destruct (hasBit packed OHM_NORMAL_SIGN_BIT_Z); reflexivity.
Qed.

(** X14: a stored normal without the validity bit restarts the average.
    For such a packed value [updateIncidentNormal] gives the same result
    for every point count: the count is taken as zero. *)
Theorem incident_update_ignores_count_when_invalid packed incident_ray point_count :
  hasBit packed OHM_NORMAL_SET_BIT = false ->
  updateIncidentNormal packed incident_ray point_count
  = updateIncidentNormal packed incident_ray 0.
Proof.
  intros Hset. unfold updateIncidentNormal. cbv zeta. f_equal.
  unfold updateIncidentNormalV3.
  rewrite (decodeNormal_invalid packed Hset). reflexivity.
Qed.

Lemma incident_update_ignores_count_when_invalid_witness :
  updateIncidentNormal 0 (MkVec3f F32.one F32.zero F32.zero) 7
  = updateIncidentNormal 0 (MkVec3f F32.one F32.zero F32.zero) 0.
Proof.
  apply (incident_update_ignores_count_when_invalid 0
           (MkVec3f F32.one F32.zero F32.zero) 7).
  reflexivity.
Defined.

(** X15: decoding a stored normal and encoding it again never raises a
    channel and lowers it by at most one.  For a packed value with the
    validity bit, the X and the Y channel of
    [encodeNormal (decodeNormal packed)] are the stored channel or one
    less. *)
Theorem reencoded_channel_drift packed :
  hasBit packed OHM_NORMAL_SET_BIT = true ->
  let again := encodeNormal (decodeNormal packed) in
  (channel again OHM_NORMAL_SHIFT_X = channel packed OHM_NORMAL_SHIFT_X \/
   channel again OHM_NORMAL_SHIFT_X = channel packed OHM_NORMAL_SHIFT_X - 1) /\
  (channel again OHM_NORMAL_SHIFT_Y = channel packed OHM_NORMAL_SHIFT_Y \/
   channel again OHM_NORMAL_SHIFT_Y = channel packed OHM_NORMAL_SHIFT_Y - 1).
Proof.
  intros Hset again. subst again.
  rewrite encodeNormal_channel_x, encodeNormal_channel_y.
  unfold decodeNormal. cbv zeta. rewrite Hset. cbn [fx fy].
  destruct (decodeChannel_facts packed OHM_NORMAL_SHIFT_X) as (_ & _ & _ & Hqx & Hx0).
  destruct (decodeChannel_facts packed OHM_NORMAL_SHIFT_Y) as (_ & _ & _ & Hqy & Hy0).
  pose proof (channel_range packed OHM_NORMAL_SHIFT_X) as Hrx.
  pose proof (channel_range packed OHM_NORMAL_SHIFT_Y) as Hry.
  cbv zeta in Hqx, Hx0, Hqy, Hy0.
  assert (forall q, 0 <= q < 16384 -> Z.land q OHM_NORMAL_MASK = q) as Hmask.
  { intros q Hq. rewrite mask_ones, Z.land_ones by lia. apply Z.mod_small. lia. }
  rewrite !Hmask by lia. split; assumption.
Qed.

Lemma reencoded_channel_drift_witness :
  let again := encodeNormal (decodeNormal 1073741825) in
  (channel again OHM_NORMAL_SHIFT_X = channel 1073741825 OHM_NORMAL_SHIFT_X \/
   channel again OHM_NORMAL_SHIFT_X = channel 1073741825 OHM_NORMAL_SHIFT_X - 1) /\
  (channel again OHM_NORMAL_SHIFT_Y = channel 1073741825 OHM_NORMAL_SHIFT_Y \/
   channel again OHM_NORMAL_SHIFT_Y = channel 1073741825 OHM_NORMAL_SHIFT_Y - 1).
Proof.
  apply (reencoded_channel_drift 1073741825). reflexivity.
Defined.

End NormalPackFacts.

(** ** Map flags and the default layout *)

Module MapFlagsFacts.

Import MapFlags.

Lemma flag_bit k i : 0 <= k -> Z.testbit (Z.shiftl 1 k) i = (k =? i).
Proof.
  intros Hk. rewrite Z.shiftl_1_l, Z.pow2_bits_eqb by assumption. reflexivity.
Qed.

Lemma flag_test init k :
  0 <= k -> negb (flag_and init (Z.shiftl 1 k) =? kNone) = Z.testbit init k.
Proof.
  intros Hk. unfold flag_and, kNone.
  assert (Z.land init (Z.shiftl 1 k) = if Z.testbit init k then Z.shiftl 1 k else 0)
    as ->.
  { apply Z.bits_inj'. intros i Hi. rewrite Z.land_spec, flag_bit by assumption.
    destruct (Z.eqb_spec k i) as [-> | Hne].
    - destruct (Z.testbit init i);
        [rewrite flag_bit, Z.eqb_refl by assumption | rewrite Z.testbit_0_l];
        reflexivity.
    - rewrite andb_false_r.
      destruct (Z.testbit init k);
        [rewrite flag_bit by assumption; symmetry; apply Z.eqb_neq; assumption
        | rewrite Z.testbit_0_l; reflexivity]. }
  destruct (Z.testbit init k); [|reflexivity].
  rewrite Z.shiftl_1_l. apply negb_true_iff, Z.eqb_neq.
  pose proof (Z.pow_pos_nonneg 2 k ltac:(lia) Hk). lia.
Qed.

Lemma uint32_bits x :
  0 <= x < 2 ^ 32 -> forall i, 32 <= i -> Z.testbit x i = false.
Proof.
  intros Hx i Hi. rewrite <- (Z.mod_small x (2 ^ 32)) by assumption.
  rewrite Z.testbit_mod_pow2 by lia.
  destruct (Z.ltb_spec i 32); [lia | reflexivity].
Qed.

Lemma bits_uint32 x :
  0 <= x -> (forall i, 32 <= i -> Z.testbit x i = false) -> 0 <= x < 2 ^ 32.
Proof.
  intros Hx Hbits. split; [assumption|].
  rewrite <- (Z.mod_small x (2 ^ 32)); [apply Z.mod_pos_bound; reflexivity|].
  split; [assumption|].
  destruct (Z.eq_dec x 0) as [-> | Hne]; [reflexivity|].
  apply Z.log2_lt_pow2; [lia|].
  destruct (Z.lt_ge_cases (Z.log2 x) 32) as [Hlt | Hge]; [assumption|].
  pose proof (Z.bit_log2 x ltac:(lia)) as Htop.
  rewrite Hbits in Htop by assumption. discriminate.
Qed.

(** One statement of [setDefaultLayout] on the bits of the flags. *)
Lemma enableLayer_spec init k layer layout flags :
  0 <= k < 32 -> 0 <= flags < 2 ^ 32 ->
  fst (enableLayer init (Z.shiftl 1 k) layer (layout, flags))
  = layout ++ (if Z.testbit init k then [layer] else [])
  /\ 0 <= snd (enableLayer init (Z.shiftl 1 k) layer (layout, flags)) < 2 ^ 32
  /\ forall i, 0 <= i ->
       Z.testbit (snd (enableLayer init (Z.shiftl 1 k) layer (layout, flags))) i
       = if i =? k then Z.testbit init k else Z.testbit flags i.
Proof.
  intros Hk Hflags.
  assert (forall i, 0 <= i ->
       Z.testbit (snd (enableLayer init (Z.shiftl 1 k) layer (layout, flags))) i
       = if i =? k then Z.testbit init k else Z.testbit flags i) as Hbits.
  { unfold enableLayer. rewrite flag_test by lia.
    destruct (Z.testbit init k) eqn:Hbit; cbn [snd]; intros i Hi.
    - unfold flag_or. rewrite Z.lor_spec, flag_bit by lia.
      rewrite (Z.eqb_sym k i). destruct (i =? k); [apply orb_true_r | apply orb_false_r].
    - unfold flag_and, flag_not, uint32. rewrite Z.land_spec.
      rewrite Z.testbit_mod_pow2, Z.lnot_spec, flag_bit by lia.
      rewrite (Z.eqb_sym k i).
      destruct (Z.eqb_spec i k) as [-> | Hne].
      + rewrite andb_false_r, andb_false_r. reflexivity.
      + simpl. destruct (Z.ltb_spec i 32); simpl.
        * apply andb_true_r.
        * rewrite andb_false_r. symmetry. apply uint32_bits; assumption. }
  split; [|split; [|exact Hbits]].
  - unfold enableLayer. rewrite flag_test by lia.
    destruct (Z.testbit init k); cbn [fst]; [reflexivity | rewrite app_nil_r; reflexivity].
  - apply bits_uint32.
    + unfold enableLayer. rewrite flag_test by lia.
      destruct (Z.testbit init k); cbn [snd]; unfold flag_or, flag_and, flag_not, uint32.
      * apply Z.lor_nonneg. split; [lia | apply Z.shiftl_nonneg; lia].
      * apply Z.land_nonneg. left. lia.
    + intros i Hi. rewrite Hbits by lia.
      assert ((i =? k) = false) as -> by (apply Z.eqb_neq; lia).
      apply uint32_bits; assumption.
Qed.

(** X16. [setDefaultLayout] rewrites the four layer bits of the map's flags
    and nothing else: afterwards the voxel mean, traversal, touch time and
    incident normal bits are those of [init_flags], and every other bit,
    [kCompressed] among them, is as it was; the layout holds the occupancy
    layer followed by the layers whose bit is set in [init_flags], in the
    order voxel mean, traversal, touch time, incident normal. Bits of
    [init_flags] outside the four are ignored. *)
Theorem setDefaultLayout_flags flags init_flags :
  0 <= flags < 2 ^ 32 ->
  let '(layout, flags') := setDefaultLayout flags init_flags in
  flags' = flag_or (flag_and flags (flag_not layerBits)) (flag_and init_flags layerBits)
  /\ 0 <= flags' < 2 ^ 32
  /\ flag_and flags' kCompressed = flag_and flags kCompressed
  /\ layout
     = [OccupancyLayer]
         ++ (if Z.testbit init_flags 0 then [VoxelMeanLayer] else [])
         ++ (if Z.testbit init_flags 2 then [TraversalLayer] else [])
         ++ (if Z.testbit init_flags 3 then [TouchTimeLayer] else [])
         ++ (if Z.testbit init_flags 4 then [IncidentNormalLayer] else []).
Proof.
  intros Hflags. unfold setDefaultLayout.
  set (l0 := [] ++ [OccupancyLayer]).
  destruct (enableLayer_spec init_flags 0 VoxelMeanLayer l0 flags
              ltac:(lia) Hflags) as (Hl1 & Hr1 & Hb1).
  change (Z.shiftl 1 0) with kVoxelMean in *.
  destruct (enableLayer init_flags kVoxelMean VoxelMeanLayer (l0, flags))
    as [l1 f1]. cbn [fst snd] in *.
  destruct (enableLayer_spec init_flags 2 TraversalLayer l1 f1
              ltac:(lia) Hr1) as (Hl2 & Hr2 & Hb2).
  change (Z.shiftl 1 2) with kTraversal in *.
  destruct (enableLayer init_flags kTraversal TraversalLayer (l1, f1))
    as [l2 f2]. cbn [fst snd] in *.
  destruct (enableLayer_spec init_flags 3 TouchTimeLayer l2 f2
              ltac:(lia) Hr2) as (Hl3 & Hr3 & Hb3).
  change (Z.shiftl 1 3) with kTouchTime in *.
  destruct (enableLayer init_flags kTouchTime TouchTimeLayer (l2, f2))
    as [l3 f3]. cbn [fst snd] in *.
  destruct (enableLayer_spec init_flags 4 IncidentNormalLayer l3 f3
              ltac:(lia) Hr3) as (Hl4 & Hr4 & Hb4).
  change (Z.shiftl 1 4) with kIncidentNormal in *.
  destruct (enableLayer init_flags kIncidentNormal IncidentNormalLayer (l3, f3))
    as [l4 f4]. cbn [fst snd] in *.
  assert (forall i, 0 <= i ->
            Z.testbit f4 i
            = if Z.testbit layerBits i then Z.testbit init_flags i
              else Z.testbit flags i) as Hbits.
  { intros i Hi. rewrite Hb4, Hb3, Hb2, Hb1 by assumption.
    change layerBits with 29.
    destruct (Z.eqb_spec i 4) as [-> | H4]; [reflexivity|].
    destruct (Z.eqb_spec i 3) as [-> | H3]; [reflexivity|].
    destruct (Z.eqb_spec i 2) as [-> | H2]; [reflexivity|].
    destruct (Z.eqb_spec i 0) as [-> | H0]; [reflexivity|].
    destruct (Z.eq_dec i 1) as [-> | H1]; [reflexivity|].
    replace (Z.testbit 29 i) with false; [reflexivity|].
    symmetry. apply Z.bits_above_log2; [lia|].
    change (Z.log2 29) with 4. lia. }
  split; [|split; [exact Hr4 | split]].
  - apply Z.bits_inj'. intros i Hi. rewrite Hbits by assumption.
    unfold flag_or, flag_and, flag_not, uint32.
    rewrite Z.lor_spec, !Z.land_spec, Z.testbit_mod_pow2, Z.lnot_spec by lia.
    destruct (Z.testbit layerBits i) eqn:Hl.
    + simpl. rewrite !andb_false_r, andb_true_r. reflexivity.
    + simpl. rewrite andb_false_r, orb_false_r.
      destruct (Z.ltb_spec i 32); simpl.
      * symmetry. apply andb_true_r.
      * rewrite andb_false_r. apply uint32_bits; assumption.
  - apply Z.bits_inj'. intros i Hi. unfold flag_and.
    rewrite !Z.land_spec, Hbits by assumption.
    change kCompressed with (Z.shiftl 1 1). rewrite flag_bit by lia.
    destruct (Z.eqb_spec 1 i) as [<- | Hne]; [reflexivity|].
    rewrite !andb_false_r. reflexivity.
  - rewrite Hl4, Hl3, Hl2, Hl1. unfold l0. rewrite <- !app_assoc. reflexivity.
Qed.

Lemma setDefaultLayout_flags_witness :
  0 <= 2 < 2 ^ 32 /\
  let '(layout, flags') := setDefaultLayout 2 (flag_or kVoxelMean kTouchTime) in
  flags' = flag_or (flag_and 2 (flag_not layerBits))
             (flag_and (flag_or kVoxelMean kTouchTime) layerBits)
  /\ 0 <= flags' < 2 ^ 32
  /\ flag_and flags' kCompressed = flag_and 2 kCompressed
  /\ layout
     = [OccupancyLayer]
         ++ (if Z.testbit (flag_or kVoxelMean kTouchTime) 0 then [VoxelMeanLayer] else [])
         ++ (if Z.testbit (flag_or kVoxelMean kTouchTime) 2 then [TraversalLayer] else [])
         ++ (if Z.testbit (flag_or kVoxelMean kTouchTime) 3 then [TouchTimeLayer] else [])
         ++ (if Z.testbit (flag_or kVoxelMean kTouchTime) 4 then [IncidentNormalLayer] else []).
Proof.
  assert (0 <= 2 < 2 ^ 32) as H by (split; [lia | reflexivity]).
  split; [exact H|].
  exact (setDefaultLayout_flags 2 (flag_or kVoxelMean kTouchTime) H).
Defined.

End MapFlagsFacts.

(** ** The mesh of occupied voxels *)

Module TraceMeshFacts.

Import TraceMesh.

Lemma pop_back_app {A} (l : list A) x : pop_back (l ++ [x]) = Some (l, x).
Proof.
  induction l as [|y l IH]; [reflexivity|].
  simpl. rewrite IH. reflexivity.
Qed.

Lemma pop_back_spec {A} (l : list A) :
  match pop_back l with
  | None => l = []
  | Some (init, x) => l = init ++ [x]
  end.
Proof.
  induction l as [|y l IH]; [reflexivity|].
  simpl. destruct (pop_back l) as [[init x]|]; subst; reflexivity.
Qed.

Lemma store_Some {A} (a : list A) i v :
  0 <= i < Z.of_nat (length a) -> store a i v = Some (<[Z.to_nat i := v]> a).
Proof. intros Hi. unfold store. rewrite bool_decide_eq_true_2 by assumption. reflexivity. Qed.

Lemma store_inv {A} (a a' : list A) i v :
  store a i v = Some a' ->
  0 <= i < Z.of_nat (length a) /\ a' = <[Z.to_nat i := v]> a.
Proof.
  unfold store. destruct (bool_decide _) eqn:Hd; [|discriminate].
  apply bool_decide_eq_true in Hd. intros [= <-]. split; [assumption | reflexivity].
Qed.

Lemma store_length {A} (a a' : list A) i v :
  store a i v = Some a' -> length a' = length a.
Proof. intros Hs. apply store_inv in Hs as [_ ->]. apply length_insert. Qed.

Lemma store_lookup_ne {A} (a a' : list A) i j v :
  store a i v = Some a' -> 0 <= j -> j <> i ->
  a' !! Z.to_nat j = a !! Z.to_nat j.
Proof.
  intros Hs Hj Hne. apply store_inv in Hs as [Hi ->].
  apply list_lookup_insert_ne. lia.
Qed.

Lemma store_lookup_eq {A} (a a' : list A) i v :
  store a i v = Some a' -> a' !! Z.to_nat i = Some v.
Proof.
  intros Hs. apply store_inv in Hs as [Hi ->].
  apply list_lookup_insert_eq. lia.
Qed.

Section MeshFacts.

Context {K : Type} `{Countable K}.
Variable V : Type.
Variable voxelCentreGlobal : K -> V.
Variable halfExtents : V.
Variable voxelColour : K -> Z.
Variable white : Z.

Lemma map_insert_lookup (m : gmap K Z) key i k :
  map_insert m key i !! k
  = if decide (k = key) then Some (default i (m !! key)) else m !! k.
Proof.
  unfold map_insert. destruct (m !! key) as [j|] eqn:Hm.
  - destruct (decide (k = key)) as [-> | Hne]; [assumption | reflexivity].
  - destruct (decide (k = key)) as [-> | Hne]; simpl.
    + apply lookup_insert_eq.
    + apply lookup_insert_ne. congruence.
Qed.

(** *** Freeing voxels *)

Lemma freeVoxel_inv key (imp : @OccupancyMeshDetail K _ _ V) modified :
  meshInv V imp ->
  exists imp' freed,
    freeVoxel V key (imp, modified) = Some (imp', modified ++ freed)
    /\ meshInv V imp'
    /\ vertices imp' = vertices imp
    /\ unused_vertex_list imp' = unused_vertex_list imp ++ freed
    /\ (forall k, voxel_index_map imp' !! k
                  = if decide (k = key) then None else voxel_index_map imp !! k)
    /\ (forall j, 0 <= j -> j ∉ freed ->
          colours imp' !! Z.to_nat j = colours imp !! Z.to_nat j).
Proof.
  intros Hinv.
  pose proof Hinv as (Hn & Hc & Hrange & Hinj & Hun & Hnd & Hdisj & Hcover & Hzero).
  unfold freeVoxel.
  destruct (voxel_index_map imp !! key) as [idx|] eqn:Hkey.
  - pose proof (Hrange _ _ Hkey) as Hidx.
    rewrite store_Some by lia.
    eexists _, [idx]. split; [reflexivity|].
    split; [|split; [reflexivity|split; [reflexivity|split]]].
    + unfold meshInv. cbn [vertices normals colours unused_vertex_list voxel_index_map].
      split; [assumption|]. split; [rewrite length_insert; assumption|].
      split; [intros k i Hk; apply lookup_delete_Some in Hk as [_ Hk]; eauto|].
      split.
      { intros k1 k2 i H1 H2. apply lookup_delete_Some in H1 as [_ H1].
        apply lookup_delete_Some in H2 as [_ H2]. eauto. }
      split.
      { apply Forall_app. split; [assumption|]. apply Forall_singleton. assumption. }
      split.
      { apply NoDup_app. split; [assumption|]. split.
        - intros x Hx Hx'. apply list_elem_of_singleton in Hx' as ->.
          exact (Hdisj _ _ Hkey Hx).
        - apply NoDup_singleton. }
      split.
      { intros k i Hk Hin. apply lookup_delete_Some in Hk as [Hne Hk].
        apply elem_of_app in Hin as [Hin | Hin]; [exact (Hdisj _ _ Hk Hin)|].
        apply list_elem_of_singleton in Hin as ->. apply Hne. eauto. }
      split.
      { intros i Hi. destruct (Hcover i Hi) as [Hin | [k Hk]].
        - left. apply elem_of_app. left. assumption.
        - destruct (decide (k = key)) as [-> | Hne].
          + left. apply elem_of_app. right. apply list_elem_of_singleton. congruence.
          + right. exists k. apply lookup_delete_Some. split; [congruence | assumption]. }
      { intros i Hin. apply elem_of_app in Hin as [Hin | Hin].
        - destruct (decide (i = idx)) as [-> | Hne].
          + apply list_lookup_insert_eq. lia.
          + rewrite list_lookup_insert_ne; [apply Hzero; assumption|].
            rewrite Forall_forall in Hun. specialize (Hun _ Hin). lia.
        - apply list_elem_of_singleton in Hin as ->.
          apply list_lookup_insert_eq. lia. }
    + intros k. cbn [voxel_index_map].
      destruct (decide (k = key)) as [-> | Hne].
      * apply lookup_delete_eq.
      * apply lookup_delete_ne. congruence.
    + intros j Hj Hnot. cbn [colours]. apply list_lookup_insert_ne.
      intros Heq. apply Hnot. apply list_elem_of_singleton. lia.
  - exists imp, []. rewrite !app_nil_r. split; [reflexivity|].
    split; [exact Hinv|]. split; [reflexivity|]. split; [reflexivity|].
    split; [|reflexivity].
    intros k. destruct (decide (k = key)) as [-> | Hne]; [assumption | reflexivity].
Qed.

Lemma freeVoxels_inv newly_free : forall (imp : @OccupancyMeshDetail K _ _ V) modified,
  meshInv V imp ->
  exists imp' freed,
    freeVoxels V newly_free (imp, modified) = Some (imp', modified ++ freed)
    /\ meshInv V imp'
    /\ vertices imp' = vertices imp
    /\ unused_vertex_list imp' = unused_vertex_list imp ++ freed
    /\ (forall k, voxel_index_map imp' !! k
                  = if decide (k ∈ newly_free) then None else voxel_index_map imp !! k)
    /\ (forall j, 0 <= j -> j ∉ freed ->
          colours imp' !! Z.to_nat j = colours imp !! Z.to_nat j).
Proof.
  induction newly_free as [|key rest IH]; intros imp modified Hinv.
  - exists imp, []. rewrite !app_nil_r. cbn [freeVoxels].
    split; [reflexivity|]. split; [assumption|]. split; [reflexivity|].
    split; [reflexivity|]. split; [|reflexivity].
    intros k. rewrite decide_False; [reflexivity | apply not_elem_of_nil].
  - destruct (freeVoxel_inv key imp modified Hinv)
      as (imp1 & freed1 & Hstep & Hinv1 & Hv1 & Hu1 & Hm1 & Hc1).
    destruct (IH imp1 (modified ++ freed1) Hinv1)
      as (imp2 & freed2 & Hrest & Hinv2 & Hv2 & Hu2 & Hm2 & Hc2).
    exists imp2, (freed1 ++ freed2). cbn [freeVoxels]. rewrite Hstep, Hrest.
    rewrite <- !app_assoc. split; [reflexivity|]. split; [assumption|].
    split; [congruence|]. split; [rewrite Hu2, Hu1, <- app_assoc; reflexivity|].
    split.
    + intros k. rewrite Hm2, Hm1.
      destruct (decide (k ∈ rest)) as [Hin | Hnin].
      * rewrite decide_True by (right; assumption). reflexivity.
      * destruct (decide (k = key)) as [-> | Hne].
        -- rewrite decide_True by left. reflexivity.
        -- rewrite decide_False; [reflexivity|].
           intros Hin. apply elem_of_cons in Hin as [? | ?]; contradiction.
    + intros j Hj Hnot. rewrite Hc2, Hc1; [reflexivity | assumption | | assumption |].
      * intros Hin. apply Hnot, elem_of_app. left. assumption.
      * intros Hin. apply Hnot, elem_of_app. right. assumption.
Qed.

(** *** Reusing unused vertices *)

Lemma reuseVertices_inv u0 freed occupied :
  forall processed (imp : @OccupancyMeshDetail K _ _ V) modified,
  meshInv V imp ->
  NoDup (u0 ++ freed) ->
  unused_vertex_list imp `prefix_of` u0 ++ freed ->
  NoDup modified ->
  (forall y, y ∈ freed -> y ∈ modified) ->
  (forall y, y ∈ modified ->
     y ∈ freed \/ (y ∈ u0 /\ y ∉ unused_vertex_list imp)) ->
  NoDup occupied ->
  (forall k, k ∈ occupied -> voxel_index_map imp !! k = None) ->
  exists imp' extra taken rest,
    reuseVertices V voxelCentreGlobal voxelColour (Z.of_nat (length u0))
      occupied processed imp modified
    = Some (imp', modified ++ extra, rest, processed + Z.of_nat (length taken))
    /\ meshInv V imp'
    /\ occupied = taken ++ rest
    /\ (rest = [] \/ unused_vertex_list imp' = [])
    /\ NoDup (modified ++ extra)
    /\ length (vertices imp') = length (vertices imp)
    /\ (forall k, k ∉ taken -> voxel_index_map imp' !! k = voxel_index_map imp !! k)
    /\ (forall k, k ∈ taken -> is_Some (voxel_index_map imp' !! k))
    /\ (forall j, 0 <= j -> j ∉ modified ++ extra ->
          vertices imp' !! Z.to_nat j = vertices imp !! Z.to_nat j
          /\ colours imp' !! Z.to_nat j = colours imp !! Z.to_nat j)
    /\ (forall y, y ∈ extra -> y ∈ u0)
    /\ length (unused_vertex_list imp)
       = (length (unused_vertex_list imp') + length taken)%nat.
Proof.
  induction occupied as [|key rest0 IH];
    intros processed imp modified Hinv HndU Hpre Hndm Hfreed Hmod Hndo Hnew.
  - exists imp, [], [], []. rewrite app_nil_r, Z.add_0_r. cbn [reuseVertices].
    split; [reflexivity|]. split; [assumption|]. split; [reflexivity|].
    split; [left; reflexivity|]. split; [assumption|]. split; [reflexivity|].
    split; [reflexivity|]. split; [intros k Hk; apply elem_of_nil in Hk as []|].
    split; [intros j _ _; split; reflexivity|].
    split; [intros y Hy; apply elem_of_nil in Hy as [] | cbn [length]; lia].
  - cbn [reuseVertices].
    pose proof (pop_back_spec (unused_vertex_list imp)) as Hpop.
    destruct (pop_back (unused_vertex_list imp)) as [[init x]|].
    2:{ exists imp, [], [], (key :: rest0). rewrite app_nil_r, Z.add_0_r.
        split; [reflexivity|]. split; [assumption|]. split; [reflexivity|].
        split; [right; assumption|]. split; [assumption|]. split; [reflexivity|].
        split; [reflexivity|]. split; [intros k Hk; apply elem_of_nil in Hk as []|].
        split; [intros j _ _; split; reflexivity|].
        split; [intros y Hy; apply elem_of_nil in Hy as [] | cbn [length]; lia]. }
    pose proof Hinv as (Hn & Hc & Hrange & Hinj & Hun & Hnd & Hdisj & Hcover & Hzero).
    assert (x ∈ unused_vertex_list imp) as Hx
      by (rewrite Hpop; apply elem_of_app; right; apply list_elem_of_singleton; reflexivity).
    assert (0 <= x < Z.of_nat (length (vertices imp))) as Hxr
      by (rewrite Forall_forall in Hun; apply Hun; assumption).
    assert (x ∉ init) as Hxi.
    { rewrite Hpop in Hnd. apply NoDup_app in Hnd as (_ & Hd & _).
      intros Hin. apply (Hd _ Hin). apply list_elem_of_singleton. reflexivity. }
    assert (forall y, y ∈ init -> y ∈ unused_vertex_list imp) as Hsub
      by (intros y Hy; rewrite Hpop; apply elem_of_app; left; assumption).
    rewrite (store_Some (vertices imp)) by lia.
    rewrite (store_Some (colours imp)) by lia.
    assert (voxel_index_map imp !! key = None) as Hkey by (apply Hnew; left).
    set (mark := Z.of_nat (length (unused_vertex_list imp)) <=? Z.of_nat (length u0)).
    set (modified1 := if mark then modified ++ [x] else modified).
    set (imp1 := MeshDetail V (<[Z.to_nat x := voxelCentreGlobal key]> (vertices imp))
                   (normals imp) (<[Z.to_nat x := voxelColour key]> (colours imp))
                   init (map_insert (voxel_index_map imp) key x)).
    assert (forall k, voxel_index_map imp1 !! k
                      = if decide (k = key) then Some x else voxel_index_map imp !! k)
      as Hmap1.
    { intros k. cbn [imp1 voxel_index_map]. rewrite map_insert_lookup, Hkey. reflexivity. }
    (* where the popped vertex came from *)
    assert ((u0 ++ freed) !! length init = Some x) as Hat.
    { destruct Hpre as [tail Htail]. rewrite Htail, Hpop, <- app_assoc.
      rewrite lookup_app_r by lia. rewrite Nat.sub_diag. reflexivity. }
    assert (if mark then x ∈ u0 else x ∈ freed) as Horigin.
    { subst mark. rewrite Hpop, length_app. cbn [length].
      destruct (Z.leb_spec (Z.of_nat (length init + 1)) (Z.of_nat (length u0))).
      - rewrite lookup_app_l in Hat by lia. eapply list_elem_of_lookup_2; eassumption.
      - rewrite lookup_app_r in Hat by lia. eapply list_elem_of_lookup_2; eassumption. }
    assert (modified1 = modified ++ (if mark then [x] else [])) as Hm1
      by (subst modified1; destruct mark; [reflexivity | rewrite app_nil_r; reflexivity]).
    assert (x ∈ modified1) as Hxm.
    { subst modified1. destruct mark.
      - apply elem_of_app. right. apply list_elem_of_singleton. reflexivity.
      - apply Hfreed. assumption. }
    assert (meshInv V imp1) as Hinv1.
    { unfold meshInv. cbn [imp1 vertices normals colours unused_vertex_list].
      rewrite !length_insert.
      split; [assumption|]. split; [assumption|].
      split.
      { intros k i. rewrite Hmap1. destruct (decide (k = key)).
        - intros [= <-]. assumption.
        - apply Hrange. }
      split.
      { intros k1 k2 i. rewrite !Hmap1.
        destruct (decide (k1 = key)) as [-> | H1], (decide (k2 = key)) as [-> | H2];
          try (intros; congruence).
        - intros [= <-] H2'. exfalso. exact (Hdisj _ _ H2' Hx).
        - intros H1' [= <-]. exfalso. exact (Hdisj _ _ H1' Hx).
        - apply Hinj. }
      split.
      { rewrite Hpop in Hun. apply Forall_app in Hun as [Hun _]. exact Hun. }
      split.
      { rewrite Hpop in Hnd. apply NoDup_app in Hnd as (Hndi & _). exact Hndi. }
      split.
      { intros k i. rewrite Hmap1. destruct (decide (k = key)).
        - intros [= <-]. assumption.
        - intros Hk Hin. exact (Hdisj _ _ Hk (Hsub _ Hin)). }
      split.
      { intros i Hi. destruct (Hcover i Hi) as [Hin | [k Hk]].
        - rewrite Hpop in Hin. apply elem_of_app in Hin as [Hin | Hin]; [left; assumption|].
          apply list_elem_of_singleton in Hin as ->.
          right. exists key. rewrite Hmap1, decide_True by reflexivity. reflexivity.
        - right. exists k. rewrite Hmap1, decide_False by congruence. assumption. }
      { intros i Hin. rewrite list_lookup_insert_ne.
        - apply Hzero, Hsub, Hin.
        - intros Heq. apply Hxi.
          assert (0 <= i) by (rewrite Forall_forall in Hun; apply (Hun i), Hsub, Hin).
          replace x with i by lia. assumption. } }
    assert (NoDup modified1) as Hndm1.
    { rewrite Hm1. destruct mark; [|rewrite app_nil_r; assumption].
      apply NoDup_app. split; [assumption|]. split; [|apply NoDup_singleton].
      intros y Hy Hy'. apply list_elem_of_singleton in Hy' as ->.
      destruct (Hmod _ Hy) as [Hf | [_ Hnu]]; [|contradiction].
      apply NoDup_app in HndU as (_ & Hd & _). exact (Hd _ Horigin Hf). }
    destruct (IH (processed + 1) imp1 modified1 Hinv1 HndU)
      as (imp' & extra & taken & rest & Hrun & Hinv' & Hsplit & Hstop & Hnd' & Hlen'
          & Hkeep & Htaken & Hsame & Hextra & Hcount).
    { cbn [imp1 unused_vertex_list]. etransitivity; [|exact Hpre].
      rewrite Hpop. apply prefix_app_r. reflexivity. }
    { assumption. }
    { intros y Hy. rewrite Hm1. apply elem_of_app. left. apply Hfreed. assumption. }
    { intros y. rewrite Hm1. cbn [imp1 unused_vertex_list]. intros Hy.
      apply elem_of_app in Hy as [Hy | Hy].
      - destruct (Hmod _ Hy) as [Hf | [Hu Hnu]]; [left; assumption|].
        right. split; [assumption|]. intros Hin. apply Hnu, Hsub, Hin.
      - destruct mark; [|apply elem_of_nil in Hy as []].
        apply list_elem_of_singleton in Hy as ->. right. split; assumption. }
    { apply NoDup_cons in Hndo as [_ Hndo]. exact Hndo. }
    { intros k Hk. rewrite Hmap1. rewrite decide_False; [apply Hnew; right; assumption|].
      intros ->. apply NoDup_cons in Hndo as [Hnin _]. contradiction. }
    exists imp', ((if mark then [x] else []) ++ extra), (key :: taken), rest.
    rewrite app_assoc, <- Hm1.
    split.
    { replace (processed + Z.of_nat (length (key :: taken)))
        with (processed + 1 + Z.of_nat (length taken)) by (cbn [length]; lia).
      exact Hrun. }
    split; [assumption|]. split; [rewrite Hsplit; reflexivity|].
    split; [assumption|]. split; [assumption|].
    split; [rewrite Hlen'; cbn [imp1 vertices]; apply length_insert|].
    split.
    { intros k Hk. rewrite Hkeep, Hmap1.
      - rewrite decide_False; [reflexivity|]. intros ->. apply Hk. left.
      - intros Hin. apply Hk. right. assumption. }
    split.
    { intros k Hk. apply elem_of_cons in Hk as [-> | Hk]; [|apply Htaken; assumption].
      destruct (decide (key ∈ taken)) as [Hin | Hnin]; [apply Htaken; assumption|].
      rewrite Hkeep, Hmap1, decide_True by (assumption || reflexivity). eauto. }
    split.
    { intros j Hj Hnot. destruct (Hsame j Hj Hnot) as [Hv' Hc']. rewrite Hv', Hc'.
      assert (j <> x) as Hjx.
      { intros ->. apply Hnot. apply elem_of_app. left. assumption. }
      cbn [imp1 vertices colours].
      split; apply list_lookup_insert_ne; lia. }
    split.
    { intros y Hy. apply elem_of_app in Hy as [Hy | Hy]; [|apply Hextra; assumption].
      destruct mark; [|apply elem_of_nil in Hy as []].
      apply list_elem_of_singleton in Hy as ->. assumption. }
    cbn [imp1 unused_vertex_list] in Hcount. rewrite Hpop, length_app.
    cbn [length]. lia.
Qed.

(** *** Sending the modified vertices *)

Lemma positionsSent_app a b : positionsSent (a ++ b) = positionsSent a ++ positionsSent b.
Proof. apply omap_app. Qed.

Lemma coloursSent_app a b : coloursSent (a ++ b) = coloursSent a ++ coloursSent b.
Proof. apply omap_app. Qed.

Lemma sendModified_ok (imp : @OccupancyMeshDetail K _ _ V) modified :
  length (colours imp) = length (vertices imp) ->
  Forall (fun i => 0 <= i < Z.of_nat (length (vertices imp))) modified ->
  exists sent,
    sendModified V imp modified = Some sent
    /\ positionsSent sent = modified /\ coloursSent sent = modified.
Proof.
  intros Hc. induction 1 as [|i rest Hi Hrest (sent & Hs & Hp & Hcs)].
  - exists []. repeat split.
  - cbn [sendModified]. unfold inRange. rewrite Hc.
    rewrite bool_decide_eq_true_2 by assumption. cbn [andb]. rewrite Hs.
    eexists. split; [reflexivity|].
    split; [change (i :: positionsSent sent = i :: rest)
           | change (i :: coloursSent sent = i :: rest)]; congruence.
Qed.

(** *** Appending vertices *)

Lemma addVertices_inv occupied : forall (imp : @OccupancyMeshDetail K _ _ V),
  meshInv V imp ->
  NoDup occupied ->
  (forall k, k ∈ occupied -> voxel_index_map imp !! k = None) ->
  Z.of_nat (length (vertices imp)) + Z.of_nat (length occupied) < 2 ^ 32 ->
  let imp' := addVertices V voxelCentreGlobal halfExtents white occupied imp in
  meshInv V imp'
  /\ length (vertices imp') = (length (vertices imp) + length occupied)%nat
  /\ unused_vertex_list imp' = unused_vertex_list imp
  /\ (forall k, k ∉ occupied -> voxel_index_map imp' !! k = voxel_index_map imp !! k)
  /\ (forall k, k ∈ occupied -> is_Some (voxel_index_map imp' !! k))
  /\ (forall j, (j < length (vertices imp))%nat ->
        vertices imp' !! j = vertices imp !! j
        /\ colours imp' !! j = colours imp !! j).
Proof.
  induction occupied as [|key rest IH]; intros imp Hinv Hndo Hnew Hsize imp'.
  - subst imp'. cbn [addVertices length].
    split; [assumption|]. split; [lia|]. split; [reflexivity|].
    split; [reflexivity|]. split; [intros k Hk; apply elem_of_nil in Hk as []|].
    intros j _. split; reflexivity.
  - pose proof Hinv as (Hn & Hc & Hrange & Hinj & Hun & Hnd & Hdisj & Hcover & Hzero).
    cbn [length] in Hsize.
    set (x := Z.of_nat (length (vertices imp))).
    assert (uint32 (Z.of_nat (length (vertices imp))) = x) as Hx
      by (unfold uint32; apply Z.mod_small; lia).
    assert (voxel_index_map imp !! key = None) as Hkey by (apply Hnew; left).
    set (imp1 := MeshDetail V (vertices imp ++ [voxelCentreGlobal key])
                   (normals imp ++ [halfExtents]) (colours imp ++ [white])
                   (unused_vertex_list imp)
                   (map_insert (voxel_index_map imp) key x)).
    assert (imp' = addVertices V voxelCentreGlobal halfExtents white rest imp1) as ->
      by (subst imp' imp1; cbn [addVertices]; rewrite Hx; reflexivity).
    assert (forall k, voxel_index_map imp1 !! k
                      = if decide (k = key) then Some x else voxel_index_map imp !! k)
      as Hmap1.
    { intros k. cbn [imp1 voxel_index_map]. rewrite map_insert_lookup, Hkey. reflexivity. }
    assert (meshInv V imp1) as Hinv1.
    { unfold meshInv. cbn [imp1 vertices normals colours unused_vertex_list].
      rewrite !length_app. cbn [length].
      split; [lia|]. split; [lia|].
      split.
      { intros k i. rewrite Hmap1. destruct (decide (k = key)).
        - intros [= <-]. lia.
        - intros Hk. specialize (Hrange _ _ Hk). lia. }
      split.
      { intros k1 k2 i. rewrite !Hmap1.
        destruct (decide (k1 = key)) as [-> | H1], (decide (k2 = key)) as [-> | H2];
          try (intros; congruence).
        - intros [= <-] H2'. specialize (Hrange _ _ H2'). lia.
        - intros H1' [= <-]. specialize (Hrange _ _ H1'). lia.
        - apply Hinj. }
      split.
      { eapply Forall_impl; [exact Hun|]. cbn beta. intros i Hi. lia. }
      split; [assumption|].
      split.
      { intros k i. rewrite Hmap1. destruct (decide (k = key)).
        - intros [= <-] Hin. rewrite Forall_forall in Hun. specialize (Hun _ Hin). lia.
        - apply Hdisj. }
      split.
      { intros i Hi. destruct (decide (i = x)) as [-> | Hne].
        - right. exists key. rewrite Hmap1, decide_True by reflexivity. reflexivity.
        - destruct (Hcover i ltac:(lia)) as [Hin | [k Hk]]; [left; assumption|].
          right. exists k. rewrite Hmap1, decide_False by congruence. assumption. }
      { intros i Hin. rewrite lookup_app_l.
        - apply Hzero. assumption.
        - rewrite Forall_forall in Hun. specialize (Hun _ Hin). lia. } }
    destruct (IH imp1 Hinv1) as (Hinv' & Hlen' & Hun' & Hkeep & Hadded & Hsame).
    { apply NoDup_cons in Hndo as [_ Hndo]. exact Hndo. }
    { intros k Hk. rewrite Hmap1, decide_False; [apply Hnew; right; assumption|].
      intros ->. apply NoDup_cons in Hndo as [Hnin _]. contradiction. }
    { cbn [imp1 vertices]. rewrite length_app. cbn [length]. lia. }
    split; [assumption|].
    split; [rewrite Hlen'; cbn [imp1 vertices length]; rewrite length_app; cbn [length]; lia|].
    split; [rewrite Hun'; reflexivity|].
    split.
    { intros k Hk. rewrite Hkeep, Hmap1.
      - rewrite decide_False; [reflexivity|]. intros ->. apply Hk. left.
      - intros Hin. apply Hk. right. assumption. }
    split.
    { intros k Hk. apply elem_of_cons in Hk as [-> | Hk]; [|apply Hadded; assumption].
      destruct (decide (key ∈ rest)) as [Hin | Hnin]; [apply Hadded; assumption|].
      rewrite Hkeep, Hmap1, decide_True by (assumption || reflexivity). eauto. }
    intros j Hj. destruct (Hsame j) as [Hv' Hc'].
    { cbn [imp1 vertices]. rewrite length_app. lia. }
    rewrite Hv', Hc'. cbn [imp1 vertices colours].
    split; apply lookup_app_l; lia.
Qed.

(** *** Touched voxels *)

Lemma touchVoxels_inv touched_occupied :
  forall (imp : @OccupancyMeshDetail K _ _ V) sent,
  meshInv V imp ->
  exists imp' touched,
    touchVoxels V voxelColour touched_occupied (imp, sent) = Some (imp', sent ++ touched)
    /\ meshInv V imp'
    /\ vertices imp' = vertices imp
    /\ unused_vertex_list imp' = unused_vertex_list imp
    /\ voxel_index_map imp' = voxel_index_map imp
    /\ positionsSent touched = []
    /\ (forall j, 0 <= j -> j ∉ coloursSent touched ->
          colours imp' !! Z.to_nat j = colours imp !! Z.to_nat j).
Proof.
  induction touched_occupied as [|key rest IH]; intros imp sent Hinv.
  - exists imp, []. rewrite app_nil_r. cbn [touchVoxels].
    split; [reflexivity|]. split; [assumption|]. repeat (split; [reflexivity|]).
    reflexivity.
  - cbn [touchVoxels].
    destruct (voxel_index_map imp !! key) as [idx|] eqn:Hkey; [|apply IH; assumption].
    pose proof Hinv as (Hn & Hc & Hrange & Hinj & Hun & Hnd & Hdisj & Hcover & Hzero).
    pose proof (Hrange _ _ Hkey) as Hidx.
    rewrite store_Some by lia.
    set (imp1 := MeshDetail V (vertices imp) (normals imp)
                   (<[Z.to_nat idx := voxelColour key]> (colours imp))
                   (unused_vertex_list imp) (voxel_index_map imp)).
    assert (meshInv V imp1) as Hinv1.
    { unfold meshInv. cbn [imp1 vertices normals colours unused_vertex_list voxel_index_map].
      rewrite length_insert. repeat (split; [assumption|]).
      intros i Hin. rewrite list_lookup_insert_ne; [apply Hzero; assumption|].
      intros Heq. apply (Hdisj _ _ Hkey).
      assert (0 <= i) by (rewrite Forall_forall in Hun; apply (Hun i), Hin).
      replace idx with i by lia. assumption. }
    destruct (IH imp1 (sent ++ [VertexColour idx]) Hinv1)
      as (imp' & touched & Hrun & Hinv' & Hv' & Hu' & Hm' & Hp' & Hc').
    exists imp', (VertexColour idx :: touched).
    split; [rewrite Hrun, <- app_assoc; reflexivity|].
    split; [assumption|]. split; [assumption|]. split; [assumption|].
    split; [assumption|]. split; [exact Hp'|].
    intros j Hj Hnot. unfold coloursSent in Hnot. cbn [omap] in Hnot.
    apply not_elem_of_cons in Hnot as [Hne Hnot].
    rewrite Hc' by assumption. cbn [imp1 colours].
    apply list_lookup_insert_ne. lia.
Qed.

(** *** The whole update *)

Lemma updateConnected_spec newly_occupied newly_free touched_occupied
    (imp : @OccupancyMeshDetail K _ _ V) :
  meshInv V imp ->
  NoDup newly_occupied ->
  (forall k, k ∈ newly_occupied ->
     voxel_index_map imp !! k = None \/ k ∈ newly_free) ->
  Z.of_nat (length (vertices imp)) + Z.of_nat (length newly_occupied) < 2 ^ 32 ->
  exists imp' sent,
    updateConnected V voxelCentreGlobal halfExtents voxelColour white
      newly_occupied newly_free touched_occupied imp
    = Some (imp', MeshRedefine (Z.of_nat (length (vertices imp'))) :: sent)
    /\ meshInv V imp'
    /\ (unused_vertex_list imp' = []
        \/ length (vertices imp') = length (vertices imp))
    /\ (length (vertices imp) <= length (vertices imp'))%nat
    /\ (length (vertices imp') <> length (vertices imp) ->
        let old := Z.of_nat (length (vertices imp)) in
        let new := Z.of_nat (length (vertices imp')) in
        BulkPositions old new ∈ sent /\ BulkNormals old new ∈ sent
        /\ BulkColours old new ∈ sent)
    /\ (forall k, k ∈ newly_occupied -> is_Some (voxel_index_map imp' !! k))
    /\ (forall k, k ∉ newly_occupied ->
          voxel_index_map imp' !! k
          = if decide (k ∈ newly_free) then None else voxel_index_map imp !! k)
    /\ NoDup (positionsSent sent)
    /\ (forall j, 0 <= j < Z.of_nat (length (vertices imp)) ->
          j ∉ positionsSent sent ->
          vertices imp' !! Z.to_nat j = vertices imp !! Z.to_nat j)
    /\ (forall j, 0 <= j < Z.of_nat (length (vertices imp)) ->
          j ∉ coloursSent sent ->
          colours imp' !! Z.to_nat j = colours imp !! Z.to_nat j).
Proof.
  intros Hinv Hndo Hnew Hsize. unfold updateConnected.
  destruct (freeVoxels_inv newly_free imp [] Hinv)
    as (imp1 & freed & Hfree & Hinv1 & Hv1 & Hu1 & Hm1 & Hc1).
  rewrite Hfree. cbn [app].
  pose proof Hinv1 as (_ & Hcl1 & _ & _ & Hun1 & Hnd1 & _).
  rewrite Hu1 in Hun1, Hnd1.
  destruct (reuseVertices_inv (unused_vertex_list imp) freed newly_occupied 0 imp1 freed)
    as (imp2 & extra & taken & rest & Hreuse & Hinv2 & Hsplit & Hstop & Hndm & Hlen2
        & Hkeep2 & Htaken2 & Hsame2 & Hextra & Hcount); try assumption.
  { rewrite Hu1. reflexivity. }
  { apply NoDup_app in Hnd1 as (_ & _ & Hndf). exact Hndf. }
  { auto. }
  { auto. }
  { intros k Hk. rewrite Hm1. destruct (decide (k ∈ newly_free)); [reflexivity|].
    destruct (Hnew k Hk); [assumption | contradiction]. }
  rewrite Hreuse.
  destruct (sendModified_ok imp2 (freed ++ extra)) as (pk & Hpk & Hpos & Hcol).
  { destruct Hinv2 as (_ & Hcl2 & _). exact Hcl2. }
  { rewrite Hlen2, Hv1. apply Forall_app. apply Forall_app in Hun1 as [Hu0 Hfr].
    rewrite Hv1 in Hu0, Hfr.
    split; [exact Hfr|]. apply Forall_forall. intros y Hy.
    rewrite Forall_forall in Hu0. apply Hu0, Hextra, Hy. }
  rewrite Hpk.
  assert (NoDup rest /\ forall k, k ∈ rest -> k ∉ taken) as [Hndr Hrt].
  { rewrite Hsplit in Hndo. apply NoDup_app in Hndo as (_ & Hd & Hr).
    split; [exact Hr|]. intros k Hk Hk'. exact (Hd _ Hk' Hk). }
  assert (length newly_occupied = (length taken + length rest)%nat) as Hocc
    by (rewrite Hsplit; apply length_app).
  destruct (addVertices_inv rest imp2 Hinv2 Hndr)
    as (Hinv3 & Hlen3 & Hu3 & Hkeep3 & Hadded3 & Hsame3).
  { intros k Hk. rewrite Hkeep2 by (apply Hrt; assumption).
    rewrite Hm1. destruct (decide (k ∈ newly_free)); [reflexivity|].
    destruct (Hnew k) as [? | ?]; [|assumption | contradiction].
    rewrite Hsplit. apply elem_of_app. right. assumption. }
  { rewrite Hlen2, Hv1. lia. }
  set (imp3 := addVertices V voxelCentreGlobal halfExtents white rest imp2) in *.
  destruct (touchVoxels_inv touched_occupied imp3 [] Hinv3)
    as (imp4 & touched & Htouch & Hinv4 & Hv4 & Hu4 & Hm4 & Hp4 & Hc4).
  rewrite Htouch. cbn [app].
  (* the vertex count announced *)
  set (old := Z.of_nat (length (vertices imp2))).
  assert (old = Z.of_nat (length (vertices imp))) as Hold
    by (subst old; rewrite Hlen2, Hv1; reflexivity).
  assert ((if Z.of_nat (length newly_occupied) - (0 + Z.of_nat (length taken))
              >? Z.of_nat (length (unused_vertex_list imp2))
           then old + (Z.of_nat (length newly_occupied) - (0 + Z.of_nat (length taken))
                       - Z.of_nat (length (unused_vertex_list imp2)))
           else old)
          = Z.of_nat (length (vertices imp4))) as Hnew_count.
  { rewrite Hv4, Hlen3. fold old.
    destruct (Z.gtb_spec (Z.of_nat (length newly_occupied) - (0 + Z.of_nat (length taken)))
                (Z.of_nat (length (unused_vertex_list imp2)))) as [Hgt | Hle].
    - destruct Hstop as [-> | ->]; cbn [length] in *; lia.
    - destruct Hstop as [-> | Hnil]; [cbn [length]; lia|].
      rewrite Hnil in Hle. cbn [length] in Hle. lia. }
  rewrite Hnew_count.
  assert (uint32 (Z.of_nat (length (vertices imp4))) = Z.of_nat (length (vertices imp4)))
    as -> by (unfold uint32; apply Z.mod_small; rewrite Hv4, Hlen3, Hlen2, Hv1; lia).
  assert (uint32 old = old) as ->
    by (unfold uint32; apply Z.mod_small; rewrite Hold; lia).
  set (bulk := if negb (old =? Z.of_nat (length (vertices imp4))) then _ else _).
  assert (positionsSent bulk = [] /\ coloursSent bulk = []) as [Hpb Hcb]
    by (subst bulk; destruct (negb _); split; reflexivity).
  eexists imp4, _. split; [reflexivity|].
  rewrite !positionsSent_app, !coloursSent_app, Hpos, Hcol, Hpb, Hcb, Hp4.
  change (positionsSent [MeshFinalise]) with (@nil Z).
  change (coloursSent [MeshFinalise]) with (@nil Z).
  rewrite !app_nil_r. cbn [app].
  split; [assumption|].
  split.
  { rewrite Hu4, Hu3, Hv4, Hlen3, Hlen2, Hv1.
    destruct Hstop as [-> | Hnil]; [right; cbn [length]; lia | left; assumption]. }
  split; [rewrite Hv4, Hlen3, Hlen2, Hv1; lia|].
  split.
  { intros Hgrow. cbn zeta. rewrite <- Hold. subst bulk.
    destruct (Z.eqb_spec old (Z.of_nat (length (vertices imp4)))) as [Heq | Hne].
    - exfalso. apply Hgrow. rewrite Hold in Heq. lia.
    - cbn [negb].
      repeat split; apply elem_of_app; right; apply elem_of_app; left;
        rewrite !elem_of_cons; auto. }
  split.
  { intros k Hk. rewrite Hm4. rewrite Hsplit in Hk.
    apply elem_of_app in Hk as [Hk | Hk]; [|apply Hadded3; assumption].
    destruct (decide (k ∈ rest)) as [Hin | Hnin]; [apply Hadded3; assumption|].
    rewrite Hkeep3 by assumption. apply Htaken2. assumption. }
  split.
  { intros k Hk. rewrite Hm4.
    assert ((k ∉ taken) /\ (k ∉ rest)) as [Hnt Hnr].
    { rewrite Hsplit in Hk. split; intros Hin; apply Hk, elem_of_app; auto. }
    rewrite Hkeep3, Hkeep2 by assumption. apply Hm1. }
  split; [assumption|].
  split.
  { intros j Hj Hnot. rewrite Hv4.
    destruct (Hsame3 (Z.to_nat j)) as [-> _]; [rewrite Hlen2, Hv1; lia|].
    destruct (Hsame2 j) as [-> _]; [lia | assumption|].
    rewrite Hv1. reflexivity. }
  intros j Hj Hnot.
  apply not_elem_of_app in Hnot as [Hnm Hnt].
  rewrite Hc4 by (assumption || lia).
  destruct (Hsame3 (Z.to_nat j)) as [_ ->]; [rewrite Hlen2, Hv1; lia|].
  destruct (Hsame2 j) as [_ ->]; [lia | assumption|].
  apply Hc1; [lia|]. intros Hin. apply Hnm, elem_of_app. left. assumption.
Qed.

Lemma meshInv_empty : meshInv V (MeshDetail (K:=K) V [] [] [] [] ∅).
Proof.
  unfold meshInv. cbn [vertices normals colours unused_vertex_list voxel_index_map length].
  split; [reflexivity|]. split; [reflexivity|].
  split; [intros k i Hk; rewrite lookup_empty in Hk; discriminate|].
  split; [intros k1 k2 i Hk; rewrite lookup_empty in Hk; discriminate|].
  split; [constructor|]. split; [constructor|].
  split; [intros k i Hk; rewrite lookup_empty in Hk; discriminate|].
  split; [intros i Hi; lia|].
  intros i Hi. apply elem_of_nil in Hi as [].
Qed.

Lemma update_cases connectionCount newly_occupied newly_free touched_occupied
    (imp : @OccupancyMeshDetail K _ _ V) :
  update V voxelCentreGlobal halfExtents voxelColour white connectionCount
    newly_occupied newly_free touched_occupied imp
  = if bool_decide (newly_occupied ++ newly_free ++ touched_occupied = [])
    then Some (imp, [])
    else if connectionCount =? 0 then Some (MeshDetail V [] [] [] [] ∅, [])
    else updateConnected V voxelCentreGlobal halfExtents voxelColour white
           newly_occupied newly_free touched_occupied imp.
Proof.
  unfold update.
  destruct newly_occupied as [|? ?]; [|reflexivity].
  destruct newly_free as [|? ?]; [|reflexivity].
  destruct touched_occupied as [|? ?]; reflexivity.
Qed.

(** X17. [OccupancyMesh::update] keeps the vertex bookkeeping of the mesh
    consistent and never indexes a vector out of range: on a consistent mesh,
    with newly occupied keys that are distinct and not yet in the key map
    (unless they are freed in the same call) and fewer than 2^32 vertices in
    all, it returns a consistent mesh again: every vertex is held by exactly
    one key or once by the unused list, all indices are in range, the three
    vertex arrays have one length, and every unused vertex has colour 0. *)
Theorem update_keeps_mesh_consistent connectionCount
    newly_occupied newly_free touched_occupied (imp : @OccupancyMeshDetail K _ _ V) :
  meshInv V imp ->
  NoDup newly_occupied ->
  (forall k, k ∈ newly_occupied ->
     voxel_index_map imp !! k = None \/ k ∈ newly_free) ->
  Z.of_nat (length (vertices imp)) + Z.of_nat (length newly_occupied) < 2 ^ 32 ->
  exists imp' sent,
    update V voxelCentreGlobal halfExtents voxelColour white connectionCount
      newly_occupied newly_free touched_occupied imp = Some (imp', sent)
    /\ meshInv V imp'.
Proof.
  intros Hinv Hndo Hnew Hsize. rewrite update_cases.
  destruct (bool_decide _); [eauto|].
  destruct (connectionCount =? 0); [eauto using meshInv_empty|].
  destruct (updateConnected_spec newly_occupied newly_free touched_occupied imp
              Hinv Hndo Hnew Hsize) as (imp' & sent & Hrun & Hinv' & _).
  eauto.
Qed.

(** X18. With a client connected and something to do, the first packet of
    [OccupancyMesh::update] redefines the mesh with exactly the number of
    vertices the mesh has when the update is done. The vertex array never
    shrinks, it grows only when the unused list has been used up, and when it
    grows the positions, normals and colours of the range from the old to the
    new count are sent in bulk. *)
Theorem update_announces_vertex_count connectionCount
    newly_occupied newly_free touched_occupied (imp : @OccupancyMeshDetail K _ _ V) :
  meshInv V imp ->
  NoDup newly_occupied ->
  (forall k, k ∈ newly_occupied ->
     voxel_index_map imp !! k = None \/ k ∈ newly_free) ->
  Z.of_nat (length (vertices imp)) + Z.of_nat (length newly_occupied) < 2 ^ 32 ->
  connectionCount <> 0 ->
  newly_occupied ++ newly_free ++ touched_occupied <> [] ->
  exists imp' sent,
    update V voxelCentreGlobal halfExtents voxelColour white connectionCount
      newly_occupied newly_free touched_occupied imp
    = Some (imp', MeshRedefine (Z.of_nat (length (vertices imp'))) :: sent)
    /\ (length (vertices imp) <= length (vertices imp'))%nat
    /\ (unused_vertex_list imp' = []
        \/ length (vertices imp') = length (vertices imp))
    /\ (length (vertices imp') <> length (vertices imp) ->
        let old := Z.of_nat (length (vertices imp)) in
        let new := Z.of_nat (length (vertices imp')) in
        BulkPositions old new ∈ sent /\ BulkNormals old new ∈ sent
        /\ BulkColours old new ∈ sent).
Proof.
  intros Hinv Hndo Hnew Hsize Hconn Hsome. rewrite update_cases.
  rewrite bool_decide_eq_false_2 by assumption.
  apply Z.eqb_neq in Hconn. rewrite Hconn.
  destruct (updateConnected_spec newly_occupied newly_free touched_occupied imp
              Hinv Hndo Hnew Hsize)
    as (imp' & sent & Hrun & _ & Hstop & Hle & Hbulk & _).
  exists imp', sent. auto.
Qed.

(** X19. With a client connected, after [OccupancyMesh::update] the key map
    holds every newly occupied key, no key that was freed and not occupied
    again, and every other key with the vertex index it had. *)
Theorem update_key_map connectionCount
    newly_occupied newly_free touched_occupied (imp : @OccupancyMeshDetail K _ _ V) :
  meshInv V imp ->
  NoDup newly_occupied ->
  (forall k, k ∈ newly_occupied ->
     voxel_index_map imp !! k = None \/ k ∈ newly_free) ->
  Z.of_nat (length (vertices imp)) + Z.of_nat (length newly_occupied) < 2 ^ 32 ->
  connectionCount <> 0 ->
  exists imp' sent,
    update V voxelCentreGlobal halfExtents voxelColour white connectionCount
      newly_occupied newly_free touched_occupied imp = Some (imp', sent)
    /\ (forall k, k ∈ newly_occupied -> is_Some (voxel_index_map imp' !! k))
    /\ (forall k, k ∉ newly_occupied -> k ∈ newly_free ->
          voxel_index_map imp' !! k = None)
    /\ (forall k, k ∉ newly_occupied -> k ∉ newly_free ->
          voxel_index_map imp' !! k = voxel_index_map imp !! k).
Proof.
  intros Hinv Hndo Hnew Hsize Hconn. rewrite update_cases.
  destruct (bool_decide _) eqn:Hempty.
  - apply bool_decide_eq_true in Hempty.
    apply app_eq_nil in Hempty as [-> Hempty].
    apply app_eq_nil in Hempty as [-> ->].
    exists imp, []. split; [reflexivity|].
    split; [intros k Hk; apply elem_of_nil in Hk as []|].
    split; [intros k _ Hk; apply elem_of_nil in Hk as [] | reflexivity].
  - apply Z.eqb_neq in Hconn. rewrite Hconn.
    destruct (updateConnected_spec newly_occupied newly_free touched_occupied imp
                Hinv Hndo Hnew Hsize)
      as (imp' & sent & Hrun & _ & _ & _ & _ & Hocc & Hother & _).
    exists imp', (MeshRedefine (Z.of_nat (length (vertices imp'))) :: sent).
    split; [assumption|]. split; [assumption|].
    split; intros k Hk Hf; rewrite Hother by assumption.
    + rewrite decide_True by assumption. reflexivity.
    + rewrite decide_False by assumption. reflexivity.
Qed.

(** X20. With a client connected, [OccupancyMesh::update] sends every change
    it makes to a vertex the mesh already had: a vertex whose position is not
    sent individually keeps its position, a vertex whose colour is not sent
    individually keeps its colour, and no vertex position is sent twice. *)
Theorem update_sends_every_change connectionCount
    newly_occupied newly_free touched_occupied (imp : @OccupancyMeshDetail K _ _ V) :
  meshInv V imp ->
  NoDup newly_occupied ->
  (forall k, k ∈ newly_occupied ->
     voxel_index_map imp !! k = None \/ k ∈ newly_free) ->
  Z.of_nat (length (vertices imp)) + Z.of_nat (length newly_occupied) < 2 ^ 32 ->
  connectionCount <> 0 ->
  exists imp' sent,
    update V voxelCentreGlobal halfExtents voxelColour white connectionCount
      newly_occupied newly_free touched_occupied imp = Some (imp', sent)
    /\ NoDup (positionsSent sent)
    /\ (forall j, 0 <= j < Z.of_nat (length (vertices imp)) ->
          j ∉ positionsSent sent ->
          vertices imp' !! Z.to_nat j = vertices imp !! Z.to_nat j)
    /\ (forall j, 0 <= j < Z.of_nat (length (vertices imp)) ->
          j ∉ coloursSent sent ->
          colours imp' !! Z.to_nat j = colours imp !! Z.to_nat j).
Proof.
  intros Hinv Hndo Hnew Hsize Hconn. rewrite update_cases.
  destruct (bool_decide _).
  - exists imp, []. split; [reflexivity|]. split; [constructor|].
    split; reflexivity.
  - apply Z.eqb_neq in Hconn. rewrite Hconn.
    destruct (updateConnected_spec newly_occupied newly_free touched_occupied imp
                Hinv Hndo Hnew Hsize)
      as (imp' & sent & Hrun & _ & _ & _ & _ & _ & _ & Hnd & Hpos & Hcol).
    exists imp', (MeshRedefine (Z.of_nat (length (vertices imp'))) :: sent).
    split; [assumption|]. auto.
Qed.

(** X23. The condition on the newly occupied keys cannot be dropped: when
    a key that the key map already holds is passed as newly occupied (and is
    not freed in the same call) while the unused list is not empty,
    [OccupancyMesh::update] takes the last unused vertex, overwrites its
    position and colour, and loses it: the key keeps its old vertex, and
    afterwards the vertex taken is held neither by the unused list nor by
    any key, so the mesh is no longer consistent. *)
Theorem update_loses_vertex_of_known_key connectionCount key i unused x
    (imp : @OccupancyMeshDetail K _ _ V) :
  meshInv V imp ->
  connectionCount <> 0 ->
  voxel_index_map imp !! key = Some i ->
  unused_vertex_list imp = unused ++ [x] ->
  exists imp' sent,
    update V voxelCentreGlobal halfExtents voxelColour white connectionCount
      [key] [] [] imp = Some (imp', sent)
    /\ voxel_index_map imp' = voxel_index_map imp
    /\ unused_vertex_list imp' = unused
    /\ vertices imp' !! Z.to_nat x = Some (voxelCentreGlobal key)
    /\ colours imp' !! Z.to_nat x = Some (voxelColour key)
    /\ (x ∉ unused_vertex_list imp')
    /\ (forall k, voxel_index_map imp' !! k <> Some x)
    /\ ~ meshInv V imp'.
Proof.
  intros Hinv Hconn Hkey Hunused.
  pose proof Hinv as (Hn & Hc & Hrange & Hinj & Hun & Hnd & Hdisj & Hcover & Hzero).
  assert (x ∈ unused_vertex_list imp) as Hx
    by (rewrite Hunused; apply elem_of_app; right; apply list_elem_of_singleton; reflexivity).
  assert (0 <= x < Z.of_nat (length (vertices imp))) as Hxr
    by (rewrite Forall_forall in Hun; apply Hun; assumption).
  assert (x ∉ unused) as Hxu.
  { rewrite Hunused in Hnd. apply NoDup_app in Hnd as (_ & Hd & _).
    intros Hin. apply (Hd _ Hin). apply list_elem_of_singleton. reflexivity. }
  assert (forall k, voxel_index_map imp !! k <> Some x) as Hnokey
    by (intros k Hk; exact (Hdisj _ _ Hk Hx)).
  unfold update. apply Z.eqb_neq in Hconn. rewrite Hconn.
  unfold updateConnected. cbn [freeVoxels reuseVertices].
  rewrite Hunused, pop_back_app.
  rewrite (store_Some (vertices imp)) by lia.
  rewrite (store_Some (colours imp)) by lia.
  rewrite Z.leb_refl. cbn [app].
  unfold map_insert. rewrite Hkey.
  cbn [vertices colours unused_vertex_list voxel_index_map normals length].
  cbn [sendModified]. unfold inRange.
  cbn [vertices colours].
  rewrite !length_insert, Hc.
  rewrite bool_decide_eq_true_2 by assumption. cbn [andb].
  cbn [addVertices touchVoxels].
  eexists _, _. split; [reflexivity|].
  cbn [vertices colours unused_vertex_list voxel_index_map].
  split; [reflexivity|]. split; [reflexivity|].
  split; [apply list_lookup_insert_eq; lia|].
  split; [apply list_lookup_insert_eq; lia|].
  split; [assumption|]. split; [assumption|].
  intros (_ & _ & _ & _ & _ & _ & _ & Hcover' & _).
  cbn [vertices colours unused_vertex_list voxel_index_map] in Hcover'.
  rewrite length_insert in Hcover'.
  destruct (Hcover' x Hxr) as [Hin | [k Hk]]; [contradiction|].
  exact (Hnokey k Hk).
Qed.

End MeshFacts.

Import TraceMeshExamples.

Lemma column_mesh_consistent : meshInv ivec3 column_mesh.
Proof.
  assert (forall k i, voxel_index_map column_mesh !! k = Some i ->
            (k = meshKey 0 /\ i = 0) \/ (k = meshKey 2 /\ i = 2)) as Hmap.
  { intros k i Hk. cbn [column_mesh voxel_index_map] in Hk.
    apply lookup_insert_Some in Hk as [[<- <-] | [_ Hk]]; [left; split; reflexivity|].
    apply lookup_insert_Some in Hk as [[<- <-] | [_ Hk]]; [right; split; reflexivity|].
    rewrite lookup_empty in Hk. discriminate. }
  unfold meshInv. cbn [column_mesh vertices normals colours unused_vertex_list length].
  split; [reflexivity|]. split; [reflexivity|].
  split; [intros k i Hk; destruct (Hmap k i Hk) as [[_ ->] | [_ ->]]; lia|].
  split.
  { intros k1 k2 i H1 H2.
    destruct (Hmap k1 i H1) as [[-> Hi] | [-> Hi]],
             (Hmap k2 i H2) as [[-> Hi'] | [-> Hi']]; (reflexivity || lia). }
  split; [apply Forall_singleton; lia|]. split; [apply NoDup_singleton|].
  split.
  { intros k i Hk Hin. apply list_elem_of_singleton in Hin.
    destruct (Hmap k i Hk) as [[_ ->] | [_ ->]]; lia. }
  split.
  { intros i Hi. assert (i = 0 \/ i = 1 \/ i = 2) as [-> | [-> | ->]] by lia.
    - right. exists (meshKey 0). reflexivity.
    - left. apply list_elem_of_singleton. reflexivity.
    - right. exists (meshKey 2). reflexivity. }
  intros i Hin. apply list_elem_of_singleton in Hin as ->. reflexivity.
Qed.

Lemma column_update_keys :
  NoDup [meshKey 1; meshKey 5]
  /\ forall k, k ∈ [meshKey 1; meshKey 5] ->
       voxel_index_map column_mesh !! k = None \/ k ∈ [meshKey 0].
Proof.
  split.
  - apply NoDup_cons. split; [|apply NoDup_singleton].
    intros Hin. apply list_elem_of_singleton in Hin. discriminate.
  - intros k Hk. left.
    apply elem_of_cons in Hk as [-> | Hk]; [reflexivity|].
    apply list_elem_of_singleton in Hk as ->. reflexivity.
Qed.

Lemma update_keeps_mesh_consistent_witness :
  exists imp' sent,
    column_update 1 [meshKey 1; meshKey 5] [meshKey 0] [meshKey 2]
    = Some (imp', sent)
    /\ meshInv ivec3 imp'.
Proof.
  apply (update_keeps_mesh_consistent ivec3 localKey (IVec3 0 0 0) (fun _ => 128)
           16777215 1 [meshKey 1; meshKey 5] [meshKey 0] [meshKey 2]
           column_mesh).
  - exact column_mesh_consistent.
  - exact (proj1 column_update_keys).
  - exact (proj2 column_update_keys).
  - vm_compute. reflexivity.
Defined.

Lemma column_update_keys3 :
  NoDup [meshKey 1; meshKey 5; meshKey 6]
  /\ forall k, k ∈ [meshKey 1; meshKey 5; meshKey 6] ->
       voxel_index_map column_mesh !! k = None \/ k ∈ [meshKey 0].
Proof.
  split.
  - apply NoDup_cons. split.
    { intros Hin. apply elem_of_cons in Hin as [Hin | Hin]; [discriminate|].
      apply list_elem_of_singleton in Hin. discriminate. }
    apply NoDup_cons. split; [|apply NoDup_singleton].
    intros Hin. apply list_elem_of_singleton in Hin. discriminate.
  - intros k Hk. left.
    apply elem_of_cons in Hk as [-> | Hk]; [reflexivity|].
    apply elem_of_cons in Hk as [-> | Hk]; [reflexivity|].
    apply list_elem_of_singleton in Hk as ->. reflexivity.
Qed.

Lemma update_announces_vertex_count_witness :
  exists imp' sent,
    column_update 1 [meshKey 1; meshKey 5; meshKey 6] [meshKey 0] [meshKey 2]
    = Some (imp', MeshRedefine (Z.of_nat (length (vertices imp'))) :: sent)
    /\ (length (vertices column_mesh) <= length (vertices imp'))%nat
    /\ (unused_vertex_list imp' = []
        \/ length (vertices imp') = length (vertices column_mesh))
    /\ (length (vertices imp') <> length (vertices column_mesh) ->
        let old := Z.of_nat (length (vertices column_mesh)) in
        let new := Z.of_nat (length (vertices imp')) in
        BulkPositions old new ∈ sent /\ BulkNormals old new ∈ sent
        /\ BulkColours old new ∈ sent).
Proof.
  apply (update_announces_vertex_count ivec3 localKey (IVec3 0 0 0) (fun _ => 128)
           16777215 1 [meshKey 1; meshKey 5; meshKey 6] [meshKey 0]
           [meshKey 2] column_mesh).
  - exact column_mesh_consistent.
  - exact (proj1 column_update_keys3).
  - exact (proj2 column_update_keys3).
  - vm_compute. reflexivity.
  - discriminate.
  - discriminate.
Defined.

Lemma update_key_map_witness :
  exists imp' sent,
    column_update 1 [meshKey 1; meshKey 5] [meshKey 0] [meshKey 2]
    = Some (imp', sent)
    /\ (forall k, k ∈ [meshKey 1; meshKey 5] ->
          is_Some (voxel_index_map imp' !! k))
    /\ (forall k, k ∉ [meshKey 1; meshKey 5] -> k ∈ [meshKey 0] ->
          voxel_index_map imp' !! k = None)
    /\ (forall k, k ∉ [meshKey 1; meshKey 5] -> k ∉ [meshKey 0] ->
          voxel_index_map imp' !! k = voxel_index_map column_mesh !! k).
Proof.
  apply (update_key_map ivec3 localKey (IVec3 0 0 0) (fun _ => 128)
           16777215 1 [meshKey 1; meshKey 5] [meshKey 0] [meshKey 2]
           column_mesh).
  - exact column_mesh_consistent.
  - exact (proj1 column_update_keys).
  - exact (proj2 column_update_keys).
  - vm_compute. reflexivity.
  - discriminate.
Defined.

Lemma update_sends_every_change_witness :
  exists imp' sent,
    column_update 1 [meshKey 1] [meshKey 0] [meshKey 2] = Some (imp', sent)
    /\ NoDup (positionsSent sent)
    /\ (forall j, 0 <= j < Z.of_nat (length (vertices column_mesh)) ->
          j ∉ positionsSent sent ->
          vertices imp' !! Z.to_nat j = vertices column_mesh !! Z.to_nat j)
    /\ (forall j, 0 <= j < Z.of_nat (length (vertices column_mesh)) ->
          j ∉ coloursSent sent ->
          colours imp' !! Z.to_nat j = colours column_mesh !! Z.to_nat j).
Proof.
  apply (update_sends_every_change ivec3 localKey (IVec3 0 0 0) (fun _ => 128)
           16777215 1 [meshKey 1] [meshKey 0] [meshKey 2] column_mesh).
  - exact column_mesh_consistent.
  - apply NoDup_singleton.
  - intros k Hk. left. apply list_elem_of_singleton in Hk as ->. reflexivity.
  - vm_compute. reflexivity.
  - discriminate.
Defined.

Lemma update_loses_vertex_of_known_key_witness :
  exists imp' sent,
    column_update 1 [meshKey 2] [] [] = Some (imp', sent)
    /\ voxel_index_map imp' = voxel_index_map column_mesh
    /\ unused_vertex_list imp' = []
    /\ vertices imp' !! Z.to_nat 1 = Some (localKey (meshKey 2))
    /\ colours imp' !! Z.to_nat 1 = Some 128
    /\ (1 ∉ unused_vertex_list imp')
    /\ (forall k, voxel_index_map imp' !! k <> Some 1)
    /\ ~ meshInv ivec3 imp'.
Proof.
  apply (update_loses_vertex_of_known_key ivec3 localKey (IVec3 0 0 0) (fun _ => 128)
           16777215 1 (meshKey 2) 2 [] 1 column_mesh).
  - exact column_mesh_consistent.
  - discriminate.
  - reflexivity.
  - reflexivity.
Defined.

End TraceMeshFacts.

(** ** Buffers that retain a voxel block *)

Module VoxelBufFacts.

Import VoxelBuf.

Section BufferFacts.

Context {B : Type} `{EqDecision B}.
Variable uncompressedByteSize : B -> Z.
Variable voxelBytes : B -> Z.
Variable default_memory : Z.
Variable default_size : Z.

Lemma holders_insert_fresh block self buffer (objs : gmap nat (@VoxelBuffer B)) :
  objs !! self = None ->
  holders block (<[self := buffer]> objs)
  = (weight block buffer + holders block objs)%nat.
Proof.
  intros Hfresh. unfold holders, weight.
  destruct (decide (voxel_block_ buffer = Some block)) as [Hb | Hb].
  - rewrite map_filter_insert_True by exact Hb.
    rewrite map_size_insert_None; [reflexivity|].
    apply map_lookup_filter_None. left. assumption.
  - rewrite map_filter_insert_False by exact Hb.
    rewrite delete_id by assumption. reflexivity.
Qed.

Lemma holders_insert block self buffer (objs : gmap nat (@VoxelBuffer B)) :
  holders block (<[self := buffer]> objs)
  = (weight block buffer + holders block (delete self objs))%nat.
Proof.
  rewrite <- insert_delete_eq. apply holders_insert_fresh, lookup_delete_eq.
Qed.

Lemma holders_lookup block self buffer (objs : gmap nat (@VoxelBuffer B)) :
  objs !! self = Some buffer ->
  holders block objs = (weight block buffer + holders block (delete self objs))%nat.
Proof.
  intros Hself. rewrite <- (insert_delete_id objs self buffer Hself) at 1.
  apply holders_insert_fresh, lookup_delete_eq.
Qed.

Lemma holders_empty block : holders block (∅ : gmap nat (@VoxelBuffer B)) = 0%nat.
Proof. unfold holders. rewrite map_filter_empty. apply map_size_empty. Qed.

Lemma weight_block (block : B) (buffer : @VoxelBuffer B) :
  weight block buffer
  = match voxel_block_ buffer with
    | Some b => if decide (b = block) then 1%nat else 0%nat
    | None => 0%nat
    end.
Proof.
  unfold weight. destruct (voxel_block_ buffer) as [b|].
  - destruct (decide (b = block)) as [-> | Hne'].
    + rewrite decide_True by reflexivity. reflexivity.
    + rewrite decide_False by congruence. reflexivity.
  - destruct (decide (None = Some block)); [discriminate | reflexivity].
Qed.

Lemma release_balanced (base : B -> Z) self (h h' : @Heap B) :
  balanced base h -> release self h = Some h' ->
  balanced base h'
  /\ exists this, objects h' !! self = Some this /\ voxel_block_ this = None.
Proof.
  intros Hbal. unfold release.
  destruct (objects h !! self) as [this|] eqn:Hself; [|discriminate].
  destruct (voxel_block_ this) as [blk|] eqn:Hblk; intros [= <-].
  - split.
    + intros b. specialize (Hbal b).
      cbn [objects setObject releaseBlock retained].
      rewrite holders_insert, (holders_lookup b self this) in * by assumption.
      rewrite !weight_block, Hblk in *. cbn [voxel_block_].
      destruct (decide (b = blk)) as [-> | Hne].
      * rewrite decide_True in Hbal by reflexivity. lia.
      * rewrite decide_False in Hbal by congruence. lia.
    + eexists. cbn [objects setObject releaseBlock].
      split; [apply lookup_insert_eq | reflexivity].
  - split; [assumption|]. eauto.
Qed.

Lemma call_balanced (base : B -> Z) c (h h' : @Heap B) :
  balanced base h ->
  call uncompressedByteSize voxelBytes default_memory default_size c h = Some h' ->
  balanced base h'.
Proof.
  intros Hbal. destruct c as [self block | self other | self other | self
                             | self other | self other | self]; cbn [call].
  - (* Construct *)
    unfold construct. destruct (objects h !! self) eqn:Hself; [discriminate|].
    destruct block as [blk|]; intros [= <-]; intros b; specialize (Hbal b);
      cbn [objects setObject retain retained];
      rewrite holders_insert_fresh by assumption;
      rewrite weight_block; cbn [voxel_block_]; [|lia].
    destruct (decide (blk = b)) as [-> | Hne].
    + rewrite decide_True by reflexivity. lia.
    + rewrite decide_False by congruence. lia.
  - (* MoveConstruct *)
    unfold moveConstruct. destruct (objects h !! self) eqn:Hself; [discriminate|].
    destruct (objects h !! other) as [that|] eqn:Hother; [|discriminate].
    intros [= <-]. intros b. specialize (Hbal b).
    assert (self <> other) by congruence.
    cbn [objects setObject retained].
    rewrite holders_insert_fresh by (rewrite lookup_insert_ne by congruence; assumption).
    rewrite holders_insert, (holders_lookup b other that) in * by assumption.
    rewrite !weight_block in *. cbn [voxel_block_]. lia.
  - (* CopyConstruct *)
    unfold copyConstruct. destruct (objects h !! self) eqn:Hself; [discriminate|].
    destruct (objects h !! other) as [that|] eqn:Hother; [|discriminate].
    destruct (voxel_block_ that) as [blk|] eqn:Hblk; intros [= <-]; intros b;
      specialize (Hbal b); cbn [objects setObject retain retained];
      rewrite holders_insert_fresh by assumption;
      rewrite weight_block; cbn [voxel_block_]; rewrite ?Hblk; [|lia].
    destruct (decide (blk = b)) as [-> | Hne].
    + rewrite decide_True by reflexivity. lia.
    + rewrite decide_False by congruence. lia.
  - (* Destroy *)
    unfold destroy. destruct (release self h) as [h1|] eqn:Hrel; [|discriminate].
    intros [= <-].
    destruct (release_balanced base self h h1 Hbal Hrel) as (Hbal1 & this & Hthis & Hnull).
    intros b. specialize (Hbal1 b). cbn [objects retained].
    rewrite (holders_lookup b self this) in Hbal1 by assumption.
    rewrite weight_block, Hnull in Hbal1. lia.
  - (* MoveAssign *)
    unfold moveAssign. destruct (objects h !! self) as [this|] eqn:Hself; [|discriminate].
    destruct (objects h !! other) as [that|] eqn:Hother; [|discriminate].
    intros [= <-]. intros b. specialize (Hbal b). cbn [objects setObject retained].
    rewrite holders_insert.
    destruct (decide (self = other)) as [-> | Hne].
    + rewrite delete_insert_eq.
      rewrite (holders_lookup b other that) in Hbal by assumption.
      assert (this = that) as -> by congruence.
      rewrite !weight_block in *. cbn [voxel_block_]. lia.
    + rewrite delete_insert_ne by congruence.
      rewrite holders_insert.
      rewrite (holders_lookup b other that) in Hbal by assumption.
      rewrite (holders_lookup b self this (delete other (objects h))) in Hbal
        by (rewrite lookup_delete_ne by congruence; assumption).
      rewrite !weight_block in *. cbn [voxel_block_]. lia.
  - (* CopyAssign *)
    unfold copyAssign. destruct (objects h !! self) as [this|] eqn:Hself; [|discriminate].
    destruct (objects h !! other) as [that|] eqn:Hother; [|discriminate].
    destruct (bool_decide (self <> other)); [|intros [= <-]; assumption].
    destruct (release self h) as [h1|] eqn:Hrel; [|discriminate].
    destruct (release_balanced base self h h1 Hbal Hrel) as (Hbal1 & this1 & Hthis & Hnull).
    rewrite Hthis.
    destruct (voxel_block_ that) as [blk|] eqn:Hblk; intros [= <-]; intros b;
      specialize (Hbal1 b); cbn [objects setObject retain retained];
      rewrite holders_insert;
      rewrite (holders_lookup b self this1) in Hbal1 by assumption;
      rewrite !weight_block in *; rewrite Hnull in Hbal1; cbn [voxel_block_]; [|lia].
    destruct (decide (blk = b)) as [-> | Hne].
    + rewrite decide_True by reflexivity. lia.
    + rewrite decide_False by congruence. lia.
  - (* Release *)
    intros Hrel. apply (release_balanced base self h h' Hbal Hrel).
Qed.

Lemma calls_balanced (base : B -> Z) cs : forall (h h' : @Heap B),
  balanced base h ->
  calls uncompressedByteSize voxelBytes default_memory default_size cs h = Some h' ->
  balanced base h'.
Proof.
  induction cs as [|c rest IH]; intros h h' Hbal; cbn [calls].
  - intros [= <-]. assumption.
  - destruct (call _ _ _ _ c h) as [h1|] eqn:Hcall; [|discriminate].
    apply IH. eapply call_balanced; eassumption.
Qed.

Lemma balanced_no_objects (base : B -> Z) :
  balanced base (MkHeap ∅ base).
Proof. intros b. cbn [retained objects]. rewrite holders_empty. lia. Qed.

(** X21. Constructing, copying, moving, assigning, releasing and destroying
    [VoxelBuffer] objects keeps every voxel block retained exactly once for
    each buffer that holds it: after any sequence of these calls the
    outstanding retain count of a block is the number of live buffers whose
    [voxel_block_] it is (on top of what other code retains), so it never
    drops below that, and once every buffer is destroyed nothing stays
    retained. *)
Theorem buffers_keep_retains_balanced (base : B -> Z) cs (h h' : @Heap B) :
  balanced base h ->
  calls uncompressedByteSize voxelBytes default_memory default_size cs h = Some h' ->
  balanced base h'
  /\ (forall block, base block <= retained h' block)
  /\ (objects h' = ∅ -> forall block, retained h' block = base block).
Proof.
  intros Hbal Hrun. pose proof (calls_balanced base cs h h' Hbal Hrun) as Hbal'.
  split; [assumption|]. split.
  - intros b. rewrite (Hbal' b). lia.
  - intros Hnone b. rewrite (Hbal' b), Hnone, holders_empty. lia.
Qed.

End BufferFacts.

Import VoxelBufExamples.

Lemma buffers_keep_retains_balanced_witness :
  exists h',
    run_buffer_calls buffer_calls = Some h'
    /\ balanced (fun _ => 0) h'
    /\ (forall block, 0 <= retained h' block)
    /\ (objects h' = ∅ -> forall block, retained h' block = 0).
Proof.
  destruct (run_buffer_calls buffer_calls) as [h'|] eqn:Hrun;
    [|vm_compute in Hrun; discriminate].
  exists h'. split; [reflexivity|].
  exact (buffers_keep_retains_balanced (fun _ => 4096)
           (fun block => 65536 * Z.of_nat block) 0 0 (fun _ => 0) buffer_calls
           no_buffers h' (balanced_no_objects (fun _ => 0)) Hrun).
Defined.


End VoxelBufFacts.

(** ** The sectors of a region *)

Module TraceSectorsFacts.

Import KeyMath TraceSectors.

Lemma loop_elem first last x : x ∈ loop first last <-> first <= x < last.
Proof.
  unfold loop. rewrite list_elem_of_In, in_map_iff. split.
  - intros (n & <- & Hn). apply in_seq in Hn. lia.
  - intros Hx. exists (Z.to_nat (x - first)). split; [lia|].
    apply in_seq. lia.
Qed.

Lemma sectorVoxels_elem sector_key dim key :
  key ∈ sectorVoxels sector_key dim <->
  exists x y z,
    key = makeKey (sector_region sector_key) x y z
    /\ fst (sectorRange sector_key dim 0) <= x < snd (sectorRange sector_key dim 0)
    /\ fst (sectorRange sector_key dim 1) <= y < snd (sectorRange sector_key dim 1)
    /\ fst (sectorRange sector_key dim 2) <= z < snd (sectorRange sector_key dim 2).
Proof.
  unfold sectorVoxels.
  destruct (sectorRange sector_key dim 0) as [sx ex].
  destruct (sectorRange sector_key dim 1) as [sy ey].
  destruct (sectorRange sector_key dim 2) as [sz ez]. cbn [fst snd].
  rewrite list_elem_of_In, in_flat_map. split.
  - intros (z & Hz & Hin). apply in_flat_map in Hin as (y & Hy & Hin).
    apply in_map_iff in Hin as (x & <- & Hx).
    apply list_elem_of_In, loop_elem in Hx, Hy, Hz. eauto 10.
  - intros (x & y & z & -> & Hx & Hy & Hz).
    exists z. split; [apply list_elem_of_In, loop_elem; assumption|].
    apply in_flat_map. exists y. split; [apply list_elem_of_In, loop_elem; assumption|].
    apply in_map_iff. exists x. split; [reflexivity|].
    apply list_elem_of_In, loop_elem; assumption.
Qed.

(** The bit of an axis in a sector index built from three flags. *)
Lemma sector_bits (bx by_ bz : bool) (i : nat) :
  (i < 3)%nat ->
  flag (negb (Z.land (int16 (flag bx + flag by_ * 2 + flag bz * 4))
                (Z.shiftl 1 (Z.of_nat i)) =? 0))
  = flag (nth i [bx; by_; bz] false).
Proof.
  intros Hi. destruct i as [|[|[|i]]]; [| | |lia];
    destruct bx, by_, bz; reflexivity.
Qed.

Lemma sector_index_bits w :
  0 <= w < 8 ->
  int16 (flag (negb (Z.land w (Z.shiftl 1 0) =? 0))
         + flag (negb (Z.land w (Z.shiftl 1 1) =? 0)) * 2
         + flag (negb (Z.land w (Z.shiftl 1 2) =? 0)) * 4) = w.
Proof.
  intros Hw.
  assert (w = 0 \/ w = 1 \/ w = 2 \/ w = 3 \/ w = 4 \/ w = 5 \/ w = 6 \/ w = 7)
    as [-> | [-> | [-> | [-> | [-> | [-> | [-> | ->]]]]]]] by lia; reflexivity.
Qed.

Lemma sectorRange_cases sector_key dim i :
  let bit := negb (Z.land (sector_w sector_key) (Z.shiftl 1 (Z.of_nat i)) =? 0) in
  sectorRange sector_key dim i
  = if bit then (Z.quot (vget dim i) 2, vget dim i) else (0, Z.quot (vget dim i) 2).
Proof.
  cbn zeta. unfold sectorRange.
  destruct (negb (Z.land _ _ =? 0)); reflexivity.
Qed.

Lemma half_range d x (b : bool) :
  0 <= d ->
  (let '(first, last) := if b then (Z.quot d 2, d) else (0, Z.quot d 2) in
   first <= x < last)
  <-> 0 <= x < d /\ (Z.quot d 2 <=? x) = b.
Proof.
  intros Hd. rewrite Z.quot_div_nonneg by lia.
  assert (0 <= d / 2 <= d) by (Z.to_euclidean_division_equations; lia).
  destruct b; cbn beta iota; destruct (Z.leb_spec (d / 2) x); split;
    intros Hr; try (destruct Hr as [? ?]; (discriminate || lia));
    (split; [lia | (reflexivity || lia)]).
Qed.

(** X22. The eight sectors of a region partition its voxels, and
    [sectorKey] and the drawing loops agree on them: for region dimensions
    in [uint8_t], a key with local coordinates inside the region is among the
    voxels [drawNdt] and [drawNdtTm] scan for the key's own sector key; and
    every voxel scanned for a sector key with [w] in 0..7 lies inside the
    region and has that sector key. *)
Theorem sectors_partition_region key region w dim :
  dimU8 dim ->
  (localIn key dim -> key ∈ sectorVoxels (sectorKey key dim) dim)
  /\ (0 <= w < 8 -> key ∈ sectorVoxels (I16Vec4 region w) dim ->
      sectorKey key dim = I16Vec4 region w /\ localIn key dim).
Proof.
  intros (Hdx & Hdy & Hdz). destruct dim as [dx dy dz]. cbn [ix iy iz] in *.
  split.
  - intros (Hx & Hy & Hz). destruct key as [reg [lx ly lz]]. cbn [localKey ix iy iz] in *.
    apply sectorVoxels_elem. exists lx, ly, lz.
    unfold sectorKey. cbn [localKey regionKey vget vset ix iy iz sector_region].
    split.
    { unfold makeKey, uint8. rewrite !Z.mod_small by lia. reflexivity. }
    rewrite !sectorRange_cases. cbn zeta. cbn [sector_w].
    change 0%nat with (Z.to_nat 0) at 1.
    pose proof (sector_bits (dx ÷ 2 <=? lx) (dy ÷ 2 <=? ly) (dz ÷ 2 <=? lz)) as Hbits.
    assert (forall i, (i < 3)%nat ->
              negb (Z.land (int16 (flag (dx ÷ 2 <=? lx) + flag (dy ÷ 2 <=? ly) * 2
                                   + flag (dz ÷ 2 <=? lz) * 4))
                      (Z.shiftl 1 (Z.of_nat i)) =? 0)
              = nth i [dx ÷ 2 <=? lx; dy ÷ 2 <=? ly; dz ÷ 2 <=? lz] false) as Hbit.
    { intros i Hi. specialize (Hbits i Hi).
      destruct (negb _), (nth i _ false); (reflexivity || discriminate). }
    rewrite (Hbit 0%nat), (Hbit 1%nat), (Hbit 2%nat) by lia.
    cbn [nth vget ix iy iz].
    pose proof (proj2 (half_range dx lx (dx ÷ 2 <=? lx) ltac:(lia))
                  (conj Hx eq_refl)) as Hrx.
    pose proof (proj2 (half_range dy ly (dy ÷ 2 <=? ly) ltac:(lia))
                  (conj Hy eq_refl)) as Hry.
    pose proof (proj2 (half_range dz lz (dz ÷ 2 <=? lz) ltac:(lia))
                  (conj Hz eq_refl)) as Hrz.
    destruct (dx ÷ 2 <=? lx), (dy ÷ 2 <=? ly), (dz ÷ 2 <=? lz);
      cbn [fst snd]; auto.
  - intros Hw Hin. apply sectorVoxels_elem in Hin as (x & y & z & -> & Hx & Hy & Hz).
    rewrite !sectorRange_cases in Hx, Hy, Hz. cbn zeta in Hx, Hy, Hz.
    cbn [sector_w sector_region vget ix iy iz] in Hx, Hy, Hz.
    set (bx := negb (Z.land w (Z.shiftl 1 (Z.of_nat 0)) =? 0)) in *.
    set (by_ := negb (Z.land w (Z.shiftl 1 (Z.of_nat 1)) =? 0)) in *.
    set (bz := negb (Z.land w (Z.shiftl 1 (Z.of_nat 2)) =? 0)) in *.
    assert (0 <= x < dx /\ (dx ÷ 2 <=? x) = bx) as [Hx' Hbx]
      by (apply half_range; [lia|]; destruct bx; exact Hx).
    assert (0 <= y < dy /\ (dy ÷ 2 <=? y) = by_) as [Hy' Hby]
      by (apply half_range; [lia|]; destruct by_; exact Hy).
    assert (0 <= z < dz /\ (dz ÷ 2 <=? z) = bz) as [Hz' Hbz]
      by (apply half_range; [lia|]; destruct bz; exact Hz).
    unfold sectorKey, makeKey, uint8, localIn.
    cbn [localKey regionKey vget vset ix iy iz].
    rewrite !Z.mod_small by lia. rewrite Hbx, Hby, Hbz.
    split; [|auto].
    f_equal. subst bx by_ bz. apply (sector_index_bits w Hw).
Qed.

Import KeyExamples.

Lemma sectors_partition_region_witness :
  dimU8 dims8
  /\ localIn key_235 dims8
  /\ key_235 ∈ sectorVoxels (sectorKey key_235 dims8) dims8
  /\ sectorKey key_235 dims8 = I16Vec4 (IVec3 0 (-1) 7) 4.
Proof.
  assert (dimU8 dims8) as Hdim by (unfold dimU8, dims8; cbn; lia).
  assert (localIn key_235 dims8) as Hlocal by (unfold localIn, key_235, dims8; cbn; lia).
  destruct (sectors_partition_region key_235 (IVec3 0 (-1) 7) 4 dims8 Hdim)
    as [Hscan Hkey].
  split; [exact Hdim|]. split; [exact Hlocal|].
  split; [exact (Hscan Hlocal)|].
  refine (proj1 (Hkey _ _)); [lia|].
  change (I16Vec4 (IVec3 0 (-1) 7) 4) with (sectorKey key_235 dims8).
  exact (Hscan Hlocal).
Defined.

End TraceSectorsFacts.
